(** * Signaling coordination layer of the video-calling application

    A shallow embedding of

    - the server-side signaling gateway ([SignalingGateway]: room map,
      join / disconnect handling and the offer / answer / ice-candidate relay),
    - the client-side peer negotiation orchestrator (the [VideoCall]
      component: one [PeerConnection] record per remote participant, ICE
      candidate buffering, restart on connectivity loss, track toggling),

    together with the properties of the specification that concern them. *)

From Stdlib Require Import String List Arith Lia.
From stdpp Require Import base decidable option list strings.

Set Warnings "-clear-no-such-hyp".

Local Open Scope string_scope.
Local Open Scope list_scope.

(** ** JavaScript collections

    A JavaScript [Map] and [Set] iterate in insertion order, and the order
    of the notifications the gateway emits follows that order; both are
    therefore kept as lists: entries in insertion order, keys unique. *)

Module Js.

Section jmap.
Context {V : Type}.

(** [Map.prototype.get] *)
Fixpoint jmap_get (k : string) (m : list (string * V)) : option V :=
  match m with
  | [] => None
  | (k', v) :: m' => if decide (k = k') then Some v else jmap_get k m'
  end.

(** [Map.prototype.has] *)
Definition jmap_has (k : string) (m : list (string * V)) : bool :=
  match jmap_get k m with Some _ => true | None => false end.

(** [Map.prototype.set]: an existing key keeps its position *)
Fixpoint jmap_set (k : string) (v : V) (m : list (string * V)) : list (string * V) :=
  match m with
  | [] => [(k, v)]
  | (k', v') :: m' =>
      if decide (k = k') then (k, v) :: m' else (k', v') :: jmap_set k v m'
  end.

(** [Map.prototype.delete] *)
Fixpoint jmap_delete (k : string) (m : list (string * V)) : list (string * V) :=
  match m with
  | [] => []
  | (k', v') :: m' =>
      if decide (k = k') then m' else (k', v') :: jmap_delete k m'
  end.
End jmap.

(** [Set.prototype.has], [add] and [delete] on a [Set<string>] *)
Definition jset_has (x : string) (s : list string) : bool := bool_decide (x ∈ s).

Definition jset_add (x : string) (s : list string) : list string :=
  if decide (x ∈ s) then s else s ++ [x].

Definition jset_delete (x : string) (s : list string) : list string :=
  filter (λ y, y ≠ x) s.

End Js.
Import Js.

(** ** Negotiation payloads

    The relay and the orchestrator carry session descriptions and ICE
    candidates without looking inside them. *)

Inductive SdpType := SdpOffer | SdpAnswer.

Record RTCSessionDescriptionInit := {
  sdp_type : SdpType;
  sdp : string;
}.

Definition RTCIceCandidateInit := string.

Global Instance SdpType_eq_dec : EqDecision SdpType.
Proof. solve_decision. Defined.
Global Instance RTCSessionDescriptionInit_eq_dec : EqDecision RTCSessionDescriptionInit.
Proof. solve_decision. Defined.

(** Messages a client sends to the gateway. *)
Inductive ClientMsg :=
| JoinRoom (roomId : string)
| Offer (offer : RTCSessionDescriptionInit) (to : string)
| Answer (answer : RTCSessionDescriptionInit) (to : string)
| IceCandidate (candidate : RTCIceCandidateInit) (to : string).

(** Messages the gateway sends to a client. *)
Inductive ServerMsg :=
| RoomUsers (users : list string)
| UserJoined (userId : string)
| UserLeft (userId : string)
| OfferFrom (offer : RTCSessionDescriptionInit) (from : string)
| AnswerFrom (answer : RTCSessionDescriptionInit) (from : string)
| IceCandidateFrom (candidate : RTCIceCandidateInit) (from : string).

Global Instance ClientMsg_eq_dec : EqDecision ClientMsg.
Proof. solve_decision. Defined.
Global Instance ServerMsg_eq_dec : EqDecision ServerMsg.
Proof. solve_decision. Defined.

(** ** The signaling gateway (server) *)

Module Gateway.

(** [interface Room { users: Set<string> }] *)
Record Room := { users : list string }.

(** What an emission is addressed to: [this.server.to(name)] addresses the
    transport room [name]; [client.emit] addresses the client's own socket. *)
Inductive Target :=
| ToRoom (name : string)
| ToSocket (sid : string).

Global Instance Target_eq_dec : EqDecision Target.
Proof. solve_decision. Defined.

(** One emission, with the sockets the transport hands it to. *)
Record Sent := {
  sent_to : Target;
  sent_msg : ServerMsg;
  sent_recipients : list string;
}.

(** The gateway's state: its own [rooms] map, and the part of the
    socket.io server it talks to: the connected sockets and the transport
    rooms (every socket is put in the room named by its own id when it
    connects, [client.join(r)] adds it to room [r], and a socket has left
    all its rooms by the time [handleDisconnect] runs). *)
Record State := {
  rooms : list (string * Room);
  sockets : list string;
  adapter : list (string * list string);
}.

Definition init : State := {| rooms := []; sockets := []; adapter := [] |}.

(** Members of a room of the gateway's map; an absent room has none. *)
Definition members (roomId : string) (st : State) : list string :=
  match jmap_get roomId (rooms st) with
  | Some room => users room
  | None => []
  end.

(** A connection is registered while its socket is connected. *)
Definition registered (sid : string) (st : State) : bool :=
  jset_has sid (sockets st).

Definition sio_members (name : string) (ad : list (string * list string)) : list string :=
  default [] (jmap_get name ad).

Definition sio_join (sid name : string) (ad : list (string * list string))
  : list (string * list string) :=
  jmap_set name (jset_add sid (sio_members name ad)) ad.

Fixpoint sio_leave_all (sid : string) (ad : list (string * list string))
  : list (string * list string) :=
  match ad with
  | [] => []
  | (name, sids) :: ad' =>
      let sids' := jset_delete sid sids in
      if decide (length sids' = 0) then sio_leave_all sid ad'
      else (name, sids') :: sio_leave_all sid ad'
  end.

Definition resolve (st : State) (t : Target) : list string :=
  match t with
  | ToRoom name => sio_members name (adapter st)
  | ToSocket sid => [sid]
  end.

Definition emit (st : State) (t : Target) (m : ServerMsg) : Sent :=
  {| sent_to := t; sent_msg := m; sent_recipients := resolve st t |}.

(** [handleConnection] only logs; the transport registers the socket. *)
Definition handleConnection (client : string) (st : State) : State * list Sent :=
  (st, []).

(** The body of [this.rooms.forEach] in [handleDisconnect], over the
    entries in order: returns the entries that remain and the emissions. *)
Fixpoint disconnectRooms (st : State) (client : string) (rs : list (string * Room))
  : list (string * Room) * list Sent :=
  match rs with
  | [] => ([], [])
  | (roomId, room) :: rest =>
      let '(rest', out) := disconnectRooms st client rest in
      if jset_has client (users room) then
        let room' := {| users := jset_delete client (users room) |} in
        let notes :=
          map (λ userId, emit st (ToRoom userId) (UserLeft client)) (users room') in
        if decide (length (users room') = 0) then (rest', notes ++ out)
        else ((roomId, room') :: rest', notes ++ out)
      else ((roomId, room) :: rest', out)
  end.

Definition handleDisconnect (client : string) (st : State) : State * list Sent :=
  let '(rooms', out) := disconnectRooms st client (rooms st) in
  ({| rooms := rooms'; sockets := sockets st; adapter := adapter st |}, out).

Definition handleJoinRoom (roomId : string) (client : string) (st : State)
  : State * list Sent :=
  let rooms1 :=
    if jmap_has roomId (rooms st) then rooms st
    else jmap_set roomId {| users := [] |} (rooms st) in
  let room := default {| users := [] |} (jmap_get roomId rooms1) in
  (* Notify existing users about new user *)
  let joined :=
    map (λ userId, emit st (ToRoom userId) (UserJoined client)) (users room) in
  (* Add user to room *)
  let room' := {| users := jset_add client (users room) |} in
  let st1 := {| rooms := jmap_set roomId room' rooms1;
                sockets := sockets st;
                adapter := sio_join client roomId (adapter st) |} in
  (* Send existing users to the new user *)
  let existingUsers := filter (λ id, id ≠ client) (users room') in
  (st1, joined ++ [emit st1 (ToSocket client) (RoomUsers existingUsers)]).

Definition handleOffer (offer : RTCSessionDescriptionInit) (to : string)
    (client : string) (st : State) : State * list Sent :=
  (st, [emit st (ToRoom to) (OfferFrom offer client)]).

Definition handleAnswer (answer : RTCSessionDescriptionInit) (to : string)
    (client : string) (st : State) : State * list Sent :=
  (st, [emit st (ToRoom to) (AnswerFrom answer client)]).

Definition handleIceCandidate (candidate : RTCIceCandidateInit) (to : string)
    (client : string) (st : State) : State * list Sent :=
  (st, [emit st (ToRoom to) (IceCandidateFrom candidate client)]).

(** What reaches the gateway: transport connects and disconnects, and
    the messages of connected clients. *)
Inductive Event :=
| Connect (client : string)
| Disconnect (client : string)
| Message (client : string) (m : ClientMsg).

Global Instance Event_eq_dec : EqDecision Event.
Proof. solve_decision. Defined.

Definition dispatch (client : string) (m : ClientMsg) (st : State)
  : State * list Sent :=
  match m with
  | JoinRoom roomId => handleJoinRoom roomId client st
  | Offer offer to => handleOffer offer to client st
  | Answer answer to => handleAnswer answer to client st
  | IceCandidate candidate to => handleIceCandidate candidate to client st
  end.

Definition step (st : State) (ev : Event) : State * list Sent :=
  match ev with
  | Connect client =>
      handleConnection client
        {| rooms := rooms st;
           sockets := jset_add client (sockets st);
           adapter := sio_join client client (adapter st) |}
  | Disconnect client =>
      handleDisconnect client
        {| rooms := rooms st;
           sockets := jset_delete client (sockets st);
           adapter := sio_leave_all client (adapter st) |}
  | Message client m => dispatch client m st
  end.

(** The state after a sequence of events, oldest first. *)
Definition run (st : State) (evs : list Event) : State :=
  fold_left (λ s ev, (step s ev).1) evs st.

(** What each socket receives from a list of emissions. *)
Definition deliveries (out : list Sent) : list (string * ServerMsg) :=
  out ≫= (λ s, map (λ sid, (sid, sent_msg s)) (sent_recipients s)).

(** How many emissions of [m] are addressed to the connection [sid]. *)
Definition addressed (sid : string) (m : ServerMsg) (out : list Sent) : nat :=
  length (filter (λ s, sent_to s = ToRoom sid ∧ sent_msg s = m) out).

Definition users_of (o : option Room) : list string :=
  match o with Some room => users room | None => [] end.


(** The member set as the specification words it: [client] issued a join
    for [roomId] and has not disconnected since. *)
Definition spec_member (client roomId : string) (evs : list Event) : Prop :=
  ∃ before after,
    evs = before ++ Message client (JoinRoom roomId) :: after
    ∧ Disconnect client ∉ after.

(** The keys of both maps are unique, the member lists are sets, and no
    room of the map is empty. *)
Definition wf (st : State) : Prop :=
  NoDup (rooms st).*1
  ∧ Forall (λ e, NoDup (users e.2)) (rooms st)
  ∧ Forall (λ e, users e.2 ≠ []) (rooms st)
  ∧ NoDup (adapter st).*1.

(** Who the transport hands an emission addressed to the room [name] to:
    the connection of that id while it is registered, and the connections
    that joined a room of that name. *)
Definition in_transport_room (sid name : string) (st : State) : Prop :=
  (sid = name ∧ registered name st = true) ∨ sid ∈ members name st.

(** The transport rooms hold whom [in_transport_room] says. *)
Definition transport_ok (st : State) : Prop :=
  ∀ sid name, sid ∈ sio_members name (adapter st) ↔ in_transport_room sid name st.

(** A relay handler forwards: the state is untouched and the one
    emission is addressed to [to] and carries [msg]. *)
Definition forwards (st : State) (to : string) (msg : ServerMsg)
    (res : State * list Sent) : Prop :=
  res.1 = st
  ∧ res.2 = [{| sent_to := ToRoom to; sent_msg := msg;
                sent_recipients := sio_members to (adapter st) |}]
  ∧ (∀ sid, (sid, msg) ∈ deliveries res.2 ↔ in_transport_room sid to st)
  ∧ (∀ sid m, (sid, m) ∈ deliveries res.2 → m = msg)
  ∧ (registered to st = true → (to, msg) ∈ deliveries res.2)
  ∧ (registered to st = false → members to st = [] → deliveries res.2 = []).

(** The target and the message of a relayed client message as the
    target receives it; a join is not relayed. *)
Definition relayed (client : string) (m : ClientMsg) : option (string * ServerMsg) :=
  match m with
  | JoinRoom _ => None
  | Offer offer to => Some (to, OfferFrom offer client)
  | Answer answer to => Some (to, AnswerFrom answer client)
  | IceCandidate candidate to => Some (to, IceCandidateFrom candidate client)
  end.

End Gateway.

(** ** The peer negotiation orchestrator (client) *)

Module Orchestrator.

Inductive Kind := Audio | Video.

(** A [MediaStreamTrack] of the local stream. *)
Record Track := {
  tid : nat;
  kind : Kind;
  enabled : bool;
}.

Inductive SignalingState :=
| Stable | HaveLocalOffer | HaveRemoteOffer | SignalingClosed.

(** [RTCPeerConnection.connectionState] *)
Inductive ConnectionState :=
| ConnNew | Connecting | Connected | Disconnected | Failed | Closed.

(** [RTCPeerConnection.iceConnectionState] *)
Inductive IceConnectionState :=
| IceNew | IceChecking | IceConnected | IceCompleted | IceFailed
| IceDisconnected | IceClosed.

Global Instance Kind_eq_dec : EqDecision Kind.
Proof. solve_decision. Defined.
Global Instance SignalingState_eq_dec : EqDecision SignalingState.
Proof. solve_decision. Defined.

(** The calls the orchestrator makes on a negotiation session. *)
Inductive Call :=
| AddTrack (track : nat)
| CreateOffer
| CreateAnswer
| SetLocalDescription (d : RTCSessionDescriptionInit)
| SetRemoteDescription (d : RTCSessionDescriptionInit)
| AddIceCandidate (candidate : RTCIceCandidateInit)
| RestartIce
| ReplaceTrack (sender : nat) (track : nat)
| Close.

Global Instance Call_eq_dec : EqDecision Call.
Proof. solve_decision. Defined.

(** The browser's [RTCPeerConnection], as far as the orchestrator reads
    and drives it: the user id its event handlers were created for, the
    signaling state, the track of each sender ([getSenders()]) as track id
    and kind, and the calls made on it, oldest first. *)
Record RTCPeerConnection := {
  owner : string;
  signalingState : SignalingState;
  senders : list (option (nat * Kind));
  calls : list Call;
}.

(** [interface PeerConnection]; [connection] is a reference into the
    sessions of the state, [stream] the id of the remote [MediaStream]. *)
Record PeerConnection := {
  userId : string;
  connection : nat;
  stream : option nat;
  iceCandidates : list RTCIceCandidateInit;
  remoteDescriptionSet : bool;
}.

(** The component's state.  [PeerConnection] records are JavaScript
    objects that the maps [peersRef.current] and [peers] share and that
    handlers mutate in place: the maps hold references into [heap]. *)
Record State := {
  peersRef : list (string * nat);
  peers : list (string * nat);
  heap : list PeerConnection;
  conns : list RTCPeerConnection;
  localStream : option (list Track);
  socketSet : bool;
  isConnected : bool;
  isAudioEnabled : bool;
  isVideoEnabled : bool;
  hasJoinedRoom : bool;
  connectionError : option string;
}.

(** A local stream with one audio and one video track, both enabled, as
    [getUserMedia] returns it. *)
Definition camera : list Track :=
  [ {| tid := 0; kind := Audio; enabled := true |};
    {| tid := 1; kind := Video; enabled := true |} ].

(** The component once the socket is created; [stream] is the local
    stream, if it was obtained. *)
Definition init (stream : option (list Track)) : State :=
  {| peersRef := []; peers := []; heap := []; conns := [];
     localStream := stream; socketSet := true; isConnected := false;
     isAudioEnabled := true; isVideoEnabled := true;
     hasJoinedRoom := false; connectionError := None |}.

Definition set_peersRef (v : list (string * nat)) (s : State) : State :=
  {| peersRef := v; peers := peers s; heap := heap s; conns := conns s;
     localStream := localStream s; socketSet := socketSet s;
     isConnected := isConnected s; isAudioEnabled := isAudioEnabled s;
     isVideoEnabled := isVideoEnabled s; hasJoinedRoom := hasJoinedRoom s;
     connectionError := connectionError s |}.

Definition set_peers (v : list (string * nat)) (s : State) : State :=
  {| peersRef := peersRef s; peers := v; heap := heap s; conns := conns s;
     localStream := localStream s; socketSet := socketSet s;
     isConnected := isConnected s; isAudioEnabled := isAudioEnabled s;
     isVideoEnabled := isVideoEnabled s; hasJoinedRoom := hasJoinedRoom s;
     connectionError := connectionError s |}.

Definition set_heap (v : list PeerConnection) (s : State) : State :=
  {| peersRef := peersRef s; peers := peers s; heap := v; conns := conns s;
     localStream := localStream s; socketSet := socketSet s;
     isConnected := isConnected s; isAudioEnabled := isAudioEnabled s;
     isVideoEnabled := isVideoEnabled s; hasJoinedRoom := hasJoinedRoom s;
     connectionError := connectionError s |}.

Definition set_conns (v : list RTCPeerConnection) (s : State) : State :=
  {| peersRef := peersRef s; peers := peers s; heap := heap s; conns := v;
     localStream := localStream s; socketSet := socketSet s;
     isConnected := isConnected s; isAudioEnabled := isAudioEnabled s;
     isVideoEnabled := isVideoEnabled s; hasJoinedRoom := hasJoinedRoom s;
     connectionError := connectionError s |}.

Definition set_localStream (v : option (list Track)) (s : State) : State :=
  {| peersRef := peersRef s; peers := peers s; heap := heap s; conns := conns s;
     localStream := v; socketSet := socketSet s;
     isConnected := isConnected s; isAudioEnabled := isAudioEnabled s;
     isVideoEnabled := isVideoEnabled s; hasJoinedRoom := hasJoinedRoom s;
     connectionError := connectionError s |}.

(** The React state of the user interface: [setIsConnected],
    [setIsAudioEnabled], [setIsVideoEnabled], [setHasJoinedRoom],
    [setConnectionError]. *)
Definition set_isConnected (v : bool) (s : State) : State :=
  {| peersRef := peersRef s; peers := peers s; heap := heap s; conns := conns s;
     localStream := localStream s; socketSet := socketSet s;
     isConnected := v; isAudioEnabled := isAudioEnabled s;
     isVideoEnabled := isVideoEnabled s; hasJoinedRoom := hasJoinedRoom s;
     connectionError := connectionError s |}.

Definition set_isAudioEnabled (v : bool) (s : State) : State :=
  {| peersRef := peersRef s; peers := peers s; heap := heap s; conns := conns s;
     localStream := localStream s; socketSet := socketSet s;
     isConnected := isConnected s; isAudioEnabled := v;
     isVideoEnabled := isVideoEnabled s; hasJoinedRoom := hasJoinedRoom s;
     connectionError := connectionError s |}.

Definition set_isVideoEnabled (v : bool) (s : State) : State :=
  {| peersRef := peersRef s; peers := peers s; heap := heap s; conns := conns s;
     localStream := localStream s; socketSet := socketSet s;
     isConnected := isConnected s; isAudioEnabled := isAudioEnabled s;
     isVideoEnabled := v; hasJoinedRoom := hasJoinedRoom s;
     connectionError := connectionError s |}.

Definition set_hasJoinedRoom (v : bool) (s : State) : State :=
  {| peersRef := peersRef s; peers := peers s; heap := heap s; conns := conns s;
     localStream := localStream s; socketSet := socketSet s;
     isConnected := isConnected s; isAudioEnabled := isAudioEnabled s;
     isVideoEnabled := isVideoEnabled s; hasJoinedRoom := v;
     connectionError := connectionError s |}.

Definition set_connectionError (v : option string) (s : State) : State :=
  {| peersRef := peersRef s; peers := peers s; heap := heap s; conns := conns s;
     localStream := localStream s; socketSet := socketSet s;
     isConnected := isConnected s; isAudioEnabled := isAudioEnabled s;
     isVideoEnabled := isVideoEnabled s; hasJoinedRoom := hasJoinedRoom s;
     connectionError := v |}.

Definition set_socketSet (v : bool) (s : State) : State :=
  {| peersRef := peersRef s; peers := peers s; heap := heap s; conns := conns s;
     localStream := localStream s; socketSet := v;
     isConnected := isConnected s; isAudioEnabled := isAudioEnabled s;
     isVideoEnabled := isVideoEnabled s; hasJoinedRoom := hasJoinedRoom s;
     connectionError := connectionError s |}.

(** *** The negotiation session *)

Definition log (c : Call) (pc : RTCPeerConnection) : RTCPeerConnection :=
  {| owner := owner pc; signalingState := signalingState pc;
     senders := senders pc; calls := calls pc ++ [c] |}.

Definition with_signaling (st : SignalingState) (pc : RTCPeerConnection)
  : RTCPeerConnection :=
  {| owner := owner pc; signalingState := st;
     senders := senders pc; calls := calls pc |}.

Definition with_senders (sd : list (option (nat * Kind))) (pc : RTCPeerConnection)
  : RTCPeerConnection :=
  {| owner := owner pc; signalingState := signalingState pc;
     senders := sd; calls := calls pc |}.

(** Apply [f] to the session [pc] of the state. *)
Definition on_conn (pc : nat) (f : RTCPeerConnection → RTCPeerConnection)
    (s : State) : State :=
  set_conns (alter f pc (conns s)) s.

(** Apply [f] to the [PeerConnection] object at [l]. *)
Definition on_peer (l : nat) (f : PeerConnection → PeerConnection)
    (s : State) : State :=
  set_heap (alter f l (heap s)) s.

(** The signaling state after a description is set with success. *)
Definition after_remote (d : RTCSessionDescriptionInit) : SignalingState :=
  match sdp_type d with SdpOffer => HaveRemoteOffer | SdpAnswer => Stable end.

Definition after_local (d : RTCSessionDescriptionInit) : SignalingState :=
  match sdp_type d with SdpOffer => HaveLocalOffer | SdpAnswer => Stable end.

(** The methods of a session, on the session itself ... *)
Definition rtc_close (c : RTCPeerConnection) : RTCPeerConnection :=
  with_signaling SignalingClosed (log Close c).

Definition rtc_addTrack (t : Track) (c : RTCPeerConnection) : RTCPeerConnection :=
  with_senders (senders c ++ [Some (tid t, kind t)]) (log (AddTrack (tid t)) c).

(** [ok] tells whether the browser accepts the description. *)
Definition rtc_setRemoteDescription (d : RTCSessionDescriptionInit) (ok : bool)
    (c : RTCPeerConnection) : RTCPeerConnection :=
  let c' := log (SetRemoteDescription d) c in
  if ok then with_signaling (after_remote d) c' else c'.

Definition rtc_setLocalDescription (d : RTCSessionDescriptionInit) (ok : bool)
    (c : RTCPeerConnection) : RTCPeerConnection :=
  let c' := log (SetLocalDescription d) c in
  if ok then with_signaling (after_local d) c' else c'.

Definition rtc_addIceCandidate (candidate : RTCIceCandidateInit)
    (c : RTCPeerConnection) : RTCPeerConnection :=
  log (AddIceCandidate candidate) c.

(** ... and on the session [pc] of the state. *)
Definition pc_close (pc : nat) : State → State := on_conn pc rtc_close.

Definition pc_setRemoteDescription (pc : nat) (d : RTCSessionDescriptionInit)
    (ok : bool) : State → State :=
  on_conn pc (rtc_setRemoteDescription d ok).

Definition pc_setLocalDescription (pc : nat) (d : RTCSessionDescriptionInit)
    (ok : bool) : State → State :=
  on_conn pc (rtc_setLocalDescription d ok).

Definition pc_addIceCandidate (pc : nat) (candidate : RTCIceCandidateInit)
  : State → State :=
  on_conn pc (rtc_addIceCandidate candidate).

Definition pc_restartIce (pc : nat) : State → State :=
  on_conn pc (log RestartIce).

(** The candidates handed to [addIceCandidate] of a session, in order. *)
Definition applied (c : RTCPeerConnection) : list RTCIceCandidateInit :=
  omap (λ x, match x with AddIceCandidate k => Some k | _ => None end) (calls c).

(** The outcome of the browser calls a handler awaits: whether
    [setRemoteDescription] resolves, what [createOffer] / [createAnswer]
    resolves to ([None]: it rejects), whether [setLocalDescription]
    resolves. *)
Record Browser := {
  setRemoteOk : bool;
  created : option RTCSessionDescriptionInit;
  setLocalOk : bool;
}.

(** *** Handlers

    A handler runs to its end before the next event is handled; where
    the source awaits the browser, the outcome is taken from [Browser]. *)

Definition new_conn (userId : string) : RTCPeerConnection :=
  {| owner := userId; signalingState := Stable; senders := []; calls := [] |}.

Definition new_peer (userId : string) (pc : nat) : PeerConnection :=
  {| userId := userId; connection := pc; stream := None;
     iceCandidates := []; remoteDescriptionSet := false |}.

(** [createPeerConnection(userId)]: returns the new session. *)
Definition createPeerConnection (userId : string) (s : State) : nat * State :=
  (* Close existing connection if any *)
  let s1 :=
    match jmap_get userId (peersRef s) with
    | Some l =>
        match heap s !! l with
        | Some existingPeer => pc_close (connection existingPeer) s
        | None => s
        end
    | None => s
    end in
  let peerConnection :=
    (* Add local stream tracks to peer connection *)
    match localStream s1 with
    | Some tracks =>
        foldl (λ c track, if enabled track then rtc_addTrack track c else c)
          (new_conn userId) tracks
    | None => new_conn userId
    end in
  let pc := length (conns s1) in
  let s3 := set_conns (conns s1 ++ [peerConnection]) s1 in
  (* Store peer connection *)
  let l := length (heap s3) in
  let s4 := set_heap (heap s3 ++ [new_peer userId pc]) s3 in
  let s5 := set_peersRef (jmap_set userId l (peersRef s4)) s4 in
  (pc, set_peers (peersRef s5) s5).

(** [addBufferedIceCandidates(peer)], [peer] being the object at [l]. *)
Definition addBufferedIceCandidates (l : nat) (s : State) : State :=
  match heap s !! l with
  | Some peer =>
      if bool_decide (0 < length (iceCandidates peer)) && remoteDescriptionSet peer
      then
        let s1 :=
          on_conn (connection peer)
            (λ c, foldl (λ c candidate, rtc_addIceCandidate candidate c) c
                    (iceCandidates peer)) s in
        on_peer l (λ p,
          {| userId := userId p; connection := connection p; stream := stream p;
             iceCandidates := []; remoteDescriptionSet := remoteDescriptionSet p |}) s1
      else s
  | None => s
  end.

Definition mark_remote_set (p : PeerConnection) : PeerConnection :=
  {| userId := userId p; connection := connection p; stream := stream p;
     iceCandidates := iceCandidates p; remoteDescriptionSet := true |}.

Definition push_candidate (candidate : RTCIceCandidateInit) (p : PeerConnection)
  : PeerConnection :=
  {| userId := userId p; connection := connection p; stream := stream p;
     iceCandidates := iceCandidates p ++ [candidate];
     remoteDescriptionSet := remoteDescriptionSet p |}.

Definition with_stream (remoteStream : nat) (p : PeerConnection) : PeerConnection :=
  {| userId := userId p; connection := connection p; stream := Some remoteStream;
     iceCandidates := iceCandidates p;
     remoteDescriptionSet := remoteDescriptionSet p |}.

(** The [try] block of [handleRoomUsers] for one user: create and send
    the offer. *)
Definition offerTo (b : Browser) (userId : string) (pc : nat) (s : State)
  : State * list ClientMsg :=
  let s1 := on_conn pc (log CreateOffer) s in
  match created b with
  | Some offer =>
      let s2 := pc_setLocalDescription pc offer (setLocalOk b) s1 in
      if setLocalOk b then (s2, [Offer offer userId]) else (s2, [])
  | None => (s1, [])
  end.

(** [handleRoomUsers({ users })]; [browser userId] is the outcome of the
    browser calls made for [userId]. *)
Fixpoint handleRoomUsers (browser : string → Browser) (users : list string)
    (s : State) : State * list ClientMsg :=
  match users with
  | [] => (s, [])
  | userId :: rest =>
      if jmap_has userId (peersRef s) then handleRoomUsers browser rest s
      else
        let '(pc, s1) := createPeerConnection userId s in
        let '(s2, out) := offerTo (browser userId) userId pc s1 in
        let '(s3, out') := handleRoomUsers browser rest s2 in
        (s3, out ++ out')
  end.

Definition handleUserJoined (userId : string) (s : State) : State * list ClientMsg :=
  if jmap_has userId (peersRef s) then (s, [])
  else ((createPeerConnection userId s).2, []).

(** The [try] block of [handleOffer], [peer] being the object at [l]. *)
Definition answerOffer (b : Browser) (offer : RTCSessionDescriptionInit)
    (from : string) (l : nat) (s : State) : State * list ClientMsg :=
  match heap s !! l with
  | Some peer =>
      let pc := connection peer in
      let s2 := pc_setRemoteDescription pc offer (setRemoteOk b) s in
      if setRemoteOk b then
        let s3 := on_peer l mark_remote_set s2 in
        (* Add any buffered ICE candidates *)
        let s4 := addBufferedIceCandidates l s3 in
        let s5 := on_conn pc (log CreateAnswer) s4 in
        match created b with
        | Some answer =>
            let s6 := pc_setLocalDescription pc answer (setLocalOk b) s5 in
            if setLocalOk b then (s6, [Answer answer from]) else (s6, [])
        | None => (s5, [])
        end
      else (s2, [])
  | None => (s, [])
  end.

(** [handleOffer({ offer, from })].  When no [PeerConnection] is stored for
    [from], the handler builds an object literal of its own around the
    session that [createPeerConnection] returns; the object that
    [createPeerConnection] stored in [peersRef.current] is another one. *)
Definition handleOffer (b : Browser) (offer : RTCSessionDescriptionInit)
    (from : string) (s : State) : State * list ClientMsg :=
  match jmap_get from (peersRef s) with
  | Some l => answerOffer b offer from l s
  | None =>
      let '(pc, s') := createPeerConnection from s in
      answerOffer b offer from (length (heap s'))
        (set_heap (heap s' ++ [new_peer from pc]) s')
  end.

(** [handleAnswer({ answer, from })] *)
Definition handleAnswer (b : Browser) (answer : RTCSessionDescriptionInit)
    (from : string) (s : State) : State * list ClientMsg :=
  match jmap_get from (peersRef s) with
  | Some l =>
      match heap s !! l with
      | Some peer =>
          let s1 := pc_setRemoteDescription (connection peer) answer (setRemoteOk b) s in
          if setRemoteOk b then
            let s2 := on_peer l mark_remote_set s1 in
            (* Add any buffered ICE candidates *)
            (addBufferedIceCandidates l s2, [])
          else (s1, [])
      | None => (s, [])
      end
  | None => (s, [])
  end.

(** [handleIceCandidate({ candidate, from })] *)
Definition handleIceCandidate (candidate : RTCIceCandidateInit) (from : string)
    (s : State) : State * list ClientMsg :=
  match jmap_get from (peersRef s) with
  | Some l =>
      match heap s !! l with
      | Some peer =>
          (* Buffer candidates if remote description not set yet *)
          if negb (remoteDescriptionSet peer)
          then (on_peer l (push_candidate candidate) s, [])
          else (pc_addIceCandidate (connection peer) candidate s, [])
      | None => (s, [])
      end
  | None => (s, [])
  end.

(** [handleUserLeft({ userId })] *)
Definition handleUserLeft (userId : string) (s : State) : State * list ClientMsg :=
  match jmap_get userId (peersRef s) with
  | Some l =>
      let s1 :=
        match heap s !! l with
        | Some peer => pc_close (connection peer) s
        | None => s
        end in
      let s2 := set_peersRef (jmap_delete userId (peersRef s1)) s1 in
      (set_peers (peersRef s2) s2, [])
  | None => (s, [])
  end.

(** [peerConnection.onconnectionstatechange] of the session [pc], whose
    [connectionState] has become [state]. *)
Definition onconnectionstatechange (pc : nat) (state : ConnectionState)
    (s : State) : State * list ClientMsg :=
  match conns s !! pc with
  | Some this =>
      let userId := owner this in
      match state with
      | Failed | Disconnected =>
          (* Attempt ICE restart *)
          match jmap_get userId (peersRef s) with
          | Some l =>
              match heap s !! l with
              | Some peer =>
                  match conns s !! connection peer with
                  | Some c =>
                      if decide (signalingState c = Stable)
                      then (pc_restartIce (connection peer) s, [])
                      else (s, [])
                  | None => (s, [])
                  end
              | None => (s, [])
              end
          | None => (s, [])
          end
      | Closed =>
          let s1 := set_peers (jmap_delete userId (peers s)) s in
          (set_peersRef (jmap_delete userId (peersRef s1)) s1, [])
      | _ => (s, [])
      end
  | None => (s, [])
  end.

(** [peerConnection.oniceconnectionstatechange] of the session [pc]. *)
Definition oniceconnectionstatechange (pc : nat) (state : IceConnectionState)
    (s : State) : State * list ClientMsg :=
  match state with
  | IceFailed => (pc_restartIce pc s, [])
  | _ => (s, [])
  end.

(** [peerConnection.ontrack] of the session [pc]; [remoteStream] is
    [event.streams[0]]. *)
Definition ontrack (pc : nat) (remoteStream : option nat) (s : State)
  : State * list ClientMsg :=
  match conns s !! pc, remoteStream with
  | Some this, Some rs =>
      match jmap_get (owner this) (peers s) with
      | Some l => (on_peer l (with_stream rs) s, [])
      | None => (s, [])
      end
  | _, _ => (s, [])
  end.

(** [sender.replaceTrack(track)] on the first sender of the session
    whose track is of kind [k], if there is one. *)
Definition substitute (k : Kind) (track : Track) (c : RTCPeerConnection)
  : RTCPeerConnection :=
  match list_find (λ sd, snd <$> sd = Some k) (senders c) with
  | Some (i, _) =>
      with_senders (<[i := Some (tid track, kind track)]> (senders c))
        (log (ReplaceTrack i (tid track)) c)
  | None => c
  end.

(** The body of [peersRef.current.forEach] in [toggleAudio] and
    [toggleVideo], for the object at [l]. *)
Definition replaceIn (k : Kind) (track : Track) (l : nat) (s : State) : State :=
  match heap s !! l with
  | Some peer => on_conn (connection peer) (substitute k track) s
  | None => s
  end.

Definition flip (t : Track) : Track :=
  {| tid := tid t; kind := kind t; enabled := negb (enabled t) |}.

Definition toggleAudio (s : State) : State * list ClientMsg :=
  match localStream s with
  | Some tracks =>
      match list_find (λ t, kind t = Audio) tracks with
      | Some (i, t) =>
          let audioTrack := flip t in
          let s1 := set_localStream (Some (<[i := audioTrack]> tracks)) s in
          let s2 := set_isAudioEnabled (enabled audioTrack) s1 in
          (* Update tracks in all peer connections *)
          (foldl (λ acc e, replaceIn Audio audioTrack e.2 acc) s2 (peersRef s2), [])
      | None => (s, [])
      end
  | None => (s, [])
  end.

Definition toggleVideo (s : State) : State * list ClientMsg :=
  match localStream s with
  | Some tracks =>
      match list_find (λ t, kind t = Video) tracks with
      | Some (i, t) =>
          let videoTrack := flip t in
          let s1 := set_localStream (Some (<[i := videoTrack]> tracks)) s in
          let s2 := set_isVideoEnabled (enabled videoTrack) s1 in
          (* Update tracks in all peer connections *)
          (foldl (λ acc e, replaceIn Video videoTrack e.2 acc) s2 (peersRef s2), [])
      | None => (s, [])
      end
  | None => (s, [])
  end.

(** [cleanup()] *)
Definition cleanup (s : State) : State :=
  (* Close all peer connections *)
  let s1 :=
    foldl (λ acc e,
      match heap acc !! e.2 with
      | Some peer => pc_close (connection peer) acc
      | None => acc
      end) s (peersRef s) in
  let s2 := set_peers [] (set_peersRef [] s1) in
  (* Stop local stream tracks *)
  let s3 := set_localStream None s2 in
  set_isConnected false (set_hasJoinedRoom false s3).

(** The [connect] and [reconnect] handlers of the socket.  They have the
    same body; [joined] is the value of [hasJoinedRoom] that the handler
    closed over when the socket was created. *)
Definition handleConnect (joined : bool) (roomId : string) (s : State)
  : State * list ClientMsg :=
  let s1 := set_connectionError None (set_isConnected true s) in
  (* Rejoin room if we were in one *)
  if joined && bool_decide (is_Some (localStream s1))
  then (s1, [JoinRoom roomId])
  else (s1, []).

(** The effect that joins the room when socket and local stream are ready. *)
Definition joinEffect (roomId : string) (s : State) : State * list ClientMsg :=
  if socketSet s && bool_decide (is_Some (localStream s)) && isConnected s
     && negb (hasJoinedRoom s)
  then (set_hasJoinedRoom true s, [JoinRoom roomId])
  else (s, []).

(** What the orchestrator reacts to. *)
Inductive Event :=
| OnRoomUsers (browser : string → Browser) (users : list string)
| OnUserJoined (userId : string)
| OnOffer (b : Browser) (offer : RTCSessionDescriptionInit) (from : string)
| OnAnswer (b : Browser) (answer : RTCSessionDescriptionInit) (from : string)
| OnIceCandidate (candidate : RTCIceCandidateInit) (from : string)
| OnUserLeft (userId : string)
| OnConnectionState (pc : nat) (state : ConnectionState)
| OnIceConnectionState (pc : nat) (state : IceConnectionState)
| OnTrack (pc : nat) (remoteStream : option nat)
| OnToggleAudio
| OnToggleVideo
| OnConnect (joined : bool) (roomId : string)
| OnJoinEffect (roomId : string)
| OnCleanup.

Definition step (s : State) (ev : Event) : State * list ClientMsg :=
  match ev with
  | OnRoomUsers browser users => handleRoomUsers browser users s
  | OnUserJoined userId => handleUserJoined userId s
  | OnOffer b offer from => handleOffer b offer from s
  | OnAnswer b answer from => handleAnswer b answer from s
  | OnIceCandidate candidate from => handleIceCandidate candidate from s
  | OnUserLeft userId => handleUserLeft userId s
  | OnConnectionState pc state => onconnectionstatechange pc state s
  | OnIceConnectionState pc state => oniceconnectionstatechange pc state s
  | OnTrack pc remoteStream => ontrack pc remoteStream s
  | OnToggleAudio => toggleAudio s
  | OnToggleVideo => toggleVideo s
  | OnConnect joined roomId => handleConnect joined roomId s
  | OnJoinEffect roomId => joinEffect roomId s
  | OnCleanup => (cleanup s, [])
  end.

(** State and emissions after a sequence of events, oldest first. *)
Fixpoint run (s : State) (evs : list Event) : State * list ClientMsg :=
  match evs with
  | [] => (s, [])
  | ev :: rest =>
      let '(s1, out) := step s ev in
      let '(s2, out') := run s1 rest in
      (s2, out ++ out')
  end.

(** The stored PeerLink of [userId]: the object [peersRef.current] maps
    it to. *)
Definition peerLink (userId : string) (s : State) : option PeerConnection :=
  l ← jmap_get userId (peersRef s); heap s !! l.

(** The session of the stored PeerLink of [userId]. *)
Definition session (userId : string) (s : State) : option RTCPeerConnection :=
  p ← peerLink userId s; conns s !! connection p.

(** The sessions of the stored PeerLinks. *)
Definition sessions_of (hp : list PeerConnection) (entries : list (string * nat))
  : list nat :=
  omap (λ e, connection <$> hp !! e.2) entries.

Definition stored_sessions (s : State) : list nat :=
  sessions_of (heap s) (peersRef s).

(** The entries of [peersRef.current] refer to objects, their sessions
    exist, and distinct entries have distinct sessions. *)
Definition wf (s : State) : Prop :=
  Forall (λ e, e.2 < length (heap s)) (peersRef s)
  ∧ Forall (λ pc, pc < length (conns s)) (stored_sessions s)
  ∧ NoDup (stored_sessions s).

(** [s'] has the map of [s], and its objects and sessions at the places
    of those of [s], each object with the session it had. *)
Definition same_links (s s' : State) : Prop :=
  peersRef s' = peersRef s
  ∧ (length (heap s) ≤ length (heap s'))%nat
  ∧ (length (conns s) ≤ length (conns s'))%nat
  ∧ ∀ l, l < length (heap s) →
         connection <$> heap s' !! l = connection <$> heap s !! l.

(** Distinct stored PeerLinks have distinct sessions. *)
Definition distinct_sessions (s : State) : Prop := NoDup (stored_sessions s).

Definition is_ReplaceTrack (c : Call) : Prop :=
  match c with ReplaceTrack _ _ => True | _ => False end.

(** The local track of kind [k] that a toggle flips, after the flip. *)
Definition toggled (k : Kind) (s : State) : option Track :=
  tracks ← localStream s;
  (λ it, flip it.2) <$> list_find (λ t, kind t = k) tracks.

(** What a toggle of the track of kind [k] does to a session. *)
Definition substitution (k : Kind) (s : State)
  : RTCPeerConnection → RTCPeerConnection :=
  match toggled k s with
  | Some track => substitute k track
  | None => id
  end.

(** [s'] is [s] but for its sessions. *)
Definition same_but_conns (s s' : State) : Prop :=
  peersRef s' = peersRef s
  ∧ peers s' = peers s
  ∧ heap s' = heap s
  ∧ localStream s' = localStream s
  ∧ socketSet s' = socketSet s
  ∧ isConnected s' = isConnected s
  ∧ isAudioEnabled s' = isAudioEnabled s
  ∧ isVideoEnabled s' = isVideoEnabled s
  ∧ hasJoinedRoom s' = hasJoinedRoom s
  ∧ connectionError s' = connectionError s
  ∧ length (conns s') = length (conns s).

(** The displayed flag of the other kind of track. *)
Definition other_flag (k : Kind) (s : State) : bool :=
  match k with Audio => isVideoEnabled s | Video => isAudioEnabled s end.

(** The frame of a toggle of the track of kind [k]: nothing is emitted;
    the maps, the [PeerConnection] records, the connection status, the
    flag of the other kind and the local tracks of the other kind are
    untouched; and the session of every stored PeerLink, and no other
    session, gets the same [substitution]. *)
Definition toggle_frame (k : Kind) (s : State) (res : State * list ClientMsg)
  : Prop :=
  res.2 = []
  ∧ peersRef res.1 = peersRef s
  ∧ peers res.1 = peers s
  ∧ heap res.1 = heap s
  ∧ socketSet res.1 = socketSet s
  ∧ isConnected res.1 = isConnected s
  ∧ hasJoinedRoom res.1 = hasJoinedRoom s
  ∧ connectionError res.1 = connectionError s
  ∧ other_flag k res.1 = other_flag k s
  ∧ (∀ i t, (localStream s ≫= (λ tracks, tracks !! i)) = Some t → kind t ≠ k →
            (localStream res.1 ≫= (λ tracks, tracks !! i)) = Some t)
  ∧ length (conns res.1) = length (conns s)
  ∧ ∀ pc c, conns s !! pc = Some c →
      conns res.1 !! pc
      = Some (if decide (pc ∈ stored_sessions s) then substitution k s c else c).

(** A [PeerConnection] after its remote description was applied and its
    queue flushed. *)
Definition flushed (p : PeerConnection) : PeerConnection :=
  {| userId := userId p; connection := connection p; stream := stream p;
     iceCandidates := []; remoteDescriptionSet := true |}.

(** *** The rest of the component *)


(** [peerConnection.onicecandidate] of the session [pc]; [candidate] is
    [event.candidate] ([None] when gathering is complete) and [socketRef]
    tells whether [socketRef.current] holds a socket. *)
Definition onicecandidate (pc : nat) (candidate : option RTCIceCandidateInit)
    (socketRef : bool) (s : State) : State * list ClientMsg :=
  match conns s !! pc, candidate with
  | Some this, Some k =>
      if socketRef then (s, [IceCandidate k (owner this)]) else (s, [])
  | _, _ => (s, [])
  end.

(** What [navigator.mediaDevices.getUserMedia] settles to: a stream, or
    an error with its [name]. *)
Inductive MediaOutcome :=
| Granted (stream : list Track)
| Refused (name : string).

Definition mediaErrorMessage (name : string) : string :=
  if decide (name = "NotAllowedError")
  then "Camera/microphone access denied. Please allow access and refresh."
  else if decide (name = "NotFoundError")
  then "No camera/microphone found. Please connect a device."
  else "Could not access camera/microphone. Please check permissions.".

(** [getLocalStream()] *)
Definition getLocalStream (outcome : MediaOutcome) (s : State) : State :=
  match outcome with
  | Granted stream => set_localStream (Some stream) s
  | Refused name => set_connectionError (Some (mediaErrorMessage name)) s
  end.

(** The [disconnect] handler of the socket; the boolean tells whether a
    manual reconnection is scheduled. *)
Definition handleSocketDisconnect (reason : string) (s : State) : State * bool :=
  (set_isConnected false s, bool_decide (reason = "io server disconnect")).

(** The [connect_error] handler of the socket. *)
Definition handleConnectError (s : State) : State :=
  set_isConnected false
    (set_connectionError (Some "Failed to connect to server. Retrying...") s).

(** The [reconnect_failed] handler of the socket. *)
Definition handleReconnectFailed (s : State) : State :=
  set_connectionError
    (Some "Failed to reconnect to server. Please refresh the page.") s.

(** The events of the socket, of the media devices and of ICE gathering. *)
Inductive Lifecycle :=
| OnLocalStream (outcome : MediaOutcome)
| OnGathered (pc : nat) (candidate : option RTCIceCandidateInit) (socketRef : bool)
| OnSocketDisconnect (reason : string)
| OnConnectError
| OnReconnectFailed.

Definition lifecycle_step (s : State) (ev : Lifecycle) : State * list ClientMsg :=
  match ev with
  | OnLocalStream outcome => (getLocalStream outcome s, [])
  | OnGathered pc candidate socketRef => onicecandidate pc candidate socketRef s
  | OnSocketDisconnect reason => ((handleSocketDisconnect reason s).1, [])
  | OnConnectError => (handleConnectError s, [])
  | OnReconnectFailed => (handleReconnectFailed s, [])
  end.

(** Everything the component reacts to. *)
Inductive Input :=
| Core (ev : Event)
| Life (ev : Lifecycle).

Definition input_step (s : State) (i : Input) : State * list ClientMsg :=
  match i with
  | Core ev => step s ev
  | Life ev => lifecycle_step s ev
  end.

Fixpoint input_run (s : State) (inputs : list Input) : State * list ClientMsg :=
  match inputs with
  | [] => (s, [])
  | i :: rest =>
      let '(s1, out) := input_step s i in
      let '(s2, out') := input_run s1 rest in
      (s2, out ++ out')
  end.

(** The targets of the offers of a list of emissions, in order. *)
Definition offer_targets (out : list ClientMsg) : list string :=
  omap (λ m, match m with Offer _ to => Some to | _ => None end) out.

Definition is_JoinRoom (m : ClientMsg) : Prop :=
  match m with JoinRoom _ => True | _ => False end.

Global Instance is_JoinRoom_dec m : Decision (is_JoinRoom m).
Proof. destruct m; cbn; apply _. Defined.

(** An event that removes PeerLinks from the map. *)
Definition removes_links (i : Input) : Prop :=
  match i with
  | Core (OnUserLeft _) | Core (OnConnectionState _ Closed) | Core OnCleanup => True
  | _ => False
  end.

(** An event that closes sessions. *)
Definition closes_sessions (i : Input) : Prop :=
  match i with
  | Core (OnUserLeft _) | Core OnCleanup => True
  | _ => False
  end.

(** An event after which a join may be emitted again. *)
Definition rejoins (i : Input) : Prop :=
  match i with
  | Core OnCleanup | Core (OnConnect true _) => True
  | _ => False
  end.

(** A media acquisition that succeeds. *)
Definition grants_stream (i : Input) : Prop :=
  match i with Life (OnLocalStream (Granted _)) => True | _ => False end.


(** The kinds of the senders of a session. *)
Definition sender_kinds (c : RTCPeerConnection) : list (option Kind) :=
  (λ sd : option (nat * Kind), snd <$> sd) <$> senders c.

(** The first local track of kind [k]: [getAudioTracks()[0]] and
    [getVideoTracks()[0]]. *)
Definition first_track (k : Kind) (s : State) : option Track :=
  tracks ← localStream s; snd <$> list_find (λ t, kind t = k) tracks.

(** [s'] has the sessions of [s] at their places, each for the user it
    was created for, and none of them closed since. *)
Definition keeps_open (s s' : State) : Prop :=
  ∀ pc c, conns s !! pc = Some c →
    ∃ c', conns s' !! pc = Some c'
          ∧ owner c' = owner c
          ∧ (Close ∈ calls c' → Close ∈ calls c).

(** [s'] is [s] as far as the local stream and the React state of the
    user interface go. *)
Definition same_ui (s s' : State) : Prop :=
  localStream s' = localStream s
  ∧ socketSet s' = socketSet s
  ∧ isConnected s' = isConnected s
  ∧ isAudioEnabled s' = isAudioEnabled s
  ∧ isVideoEnabled s' = isVideoEnabled s
  ∧ hasJoinedRoom s' = hasJoinedRoom s
  ∧ connectionError s' = connectionError s.

(** The maps of a state the component reaches: [wf], no user id stored
    twice, and the rendered map [peers] a copy of [peersRef.current]. *)
Definition consistent (s : State) : Prop :=
  wf s ∧ NoDup (peersRef s).*1 ∧ peers s = peersRef s.

(** [s'] has the [PeerConnection] records and the sessions of [s] at
    their places: each record with its user and its session, with a remote
    stream if it had one and with its flag set if it was; each session for
    the user it was created for. *)
Definition records_kept (s s' : State) : Prop :=
  (∀ l p, heap s !! l = Some p →
     ∃ p', heap s' !! l = Some p'
           ∧ userId p' = userId p ∧ connection p' = connection p
           ∧ (is_Some (stream p) → is_Some (stream p'))
           ∧ (remoteDescriptionSet p = true → remoteDescriptionSet p' = true))
  ∧ (∀ pc c, conns s !! pc = Some c →
       ∃ c', conns s' !! pc = Some c' ∧ owner c' = owner c).

(** [s'] keeps the records and sessions of [s], and each record it has
    besides refers to a session it has besides, created for the user of
    the record. *)
Definition extends (s s' : State) : Prop :=
  records_kept s s'
  ∧ ∀ l p, heap s' !! l = Some p → (length (heap s) ≤ l)%nat →
      ∃ c, conns s' !! connection p = Some c ∧ owner c = userId p
           ∧ (length (conns s) ≤ connection p)%nat.

(** Every record refers to a session created for its user, and the map
    files each record under its user. *)
Definition named (s : State) : Prop :=
  (∀ l p, heap s !! l = Some p →
     ∃ c, conns s !! connection p = Some c ∧ owner c = userId p)
  ∧ Forall (λ e, ∀ p, heap s !! e.2 = Some p → userId p = e.1) (peersRef s).

End Orchestrator.

(** * Properties *)

(** ** JavaScript collections *)

Module JsFacts.

Section jmap.
Context {V : Type}.
Implicit Types (m : list (string * V)) (k : string) (v : V).

Lemma jmap_get_set_eq k v m : jmap_get k (jmap_set k v m) = Some v.
Proof.
  induction m as [|[k' v'] m IH]; simpl.
  - by rewrite decide_True.
  - destruct (decide (k = k')) as [->|Hne]; simpl.
    + by rewrite decide_True.
    + by rewrite decide_False.
Qed.

Lemma jmap_get_set_ne k k' v m :
  k ≠ k' → jmap_get k' (jmap_set k v m) = jmap_get k' m.
Proof.
  intros Hne. induction m as [|[k0 v0] m IH]; simpl.
  - by rewrite decide_False.
  - destruct (decide (k = k0)) as [->|Hk]; simpl.
    + by rewrite !decide_False.
    + by rewrite IH.
Qed.

Lemma jmap_set_set k v v' m : jmap_set k v (jmap_set k v' m) = jmap_set k v m.
Proof.
  induction m as [|[k0 v0] m IH]; simpl.
  - by rewrite decide_True.
  - destruct (decide (k = k0)) as [->|Hk]; simpl.
    + by rewrite decide_True.
    + by rewrite decide_False, IH.
Qed.

Lemma jmap_get_None k m : jmap_get k m = None ↔ k ∉ m.*1.
Proof.
  induction m as [|[k0 v0] m IH]; simpl.
  - split; [intros _; apply not_elem_of_nil | done].
  - rewrite not_elem_of_cons. destruct (decide (k = k0)) as [->|Hk].
    + split; [done | by intros [? _]].
    + rewrite IH. split; [done | by intros [_ ?]].
Qed.

Lemma jmap_get_Some_elem k v m : jmap_get k m = Some v → (k, v) ∈ m.
Proof.
  induction m as [|[k0 v0] m IH]; simpl; [done|].
  destruct (decide (k = k0)) as [->|Hk].
  - intros [= ->]. apply list_elem_of_here.
  - intros H. apply list_elem_of_further. auto.
Qed.

Lemma jmap_set_keys k v m :
  (jmap_set k v m).*1 = if decide (k ∈ m.*1) then m.*1 else m.*1 ++ [k].
Proof.
  induction m as [|[k0 v0] m IH]; cbn [jmap_set fmap list_fmap fst].
  - destruct (decide (k ∈ [])) as [H|_]; [by apply elem_of_nil in H | done].
  - destruct (decide (k = k0)) as [->|Hk]; cbn [fmap list_fmap fst].
    + destruct (decide (k0 ∈ k0 :: m.*1)) as [_|H]; [done|].
      exfalso. apply H, list_elem_of_here.
    + rewrite IH. destruct (decide (k ∈ m.*1)) as [Hin|Hin];
        destruct (decide (k ∈ k0 :: m.*1)) as [Hin'|Hin']; try done.
      * exfalso. by apply Hin', list_elem_of_further.
      * apply elem_of_cons in Hin' as [?|?]; done.
Qed.

Lemma jmap_set_NoDup k v m : NoDup m.*1 → NoDup (jmap_set k v m).*1.
Proof.
  intros Hnd. rewrite jmap_set_keys. case_decide; [done|].
  apply NoDup_app. split_and!; [done | | apply NoDup_singleton].
  intros x Hx ->%list_elem_of_singleton. done.
Qed.

Lemma jmap_set_elem k v m e :
  e ∈ jmap_set k v m → e = (k, v) ∨ e ∈ m.
Proof.
  induction m as [|[k0 v0] m IH]; simpl.
  - rewrite list_elem_of_singleton. auto.
  - destruct (decide (k = k0)) as [->|Hk]; rewrite !elem_of_cons; naive_solver.
Qed.
End jmap.

Lemma jset_has_true x s : jset_has x s = true ↔ x ∈ s.
Proof. unfold jset_has. apply bool_decide_eq_true. Qed.

Lemma jset_has_false x s : jset_has x s = false ↔ x ∉ s.
Proof. unfold jset_has. apply bool_decide_eq_false. Qed.

Lemma elem_of_jset_add x y s : x ∈ jset_add y s ↔ x = y ∨ x ∈ s.
Proof.
  unfold jset_add. case_decide.
  - naive_solver.
  - rewrite elem_of_app, list_elem_of_singleton. naive_solver.
Qed.

Lemma jset_add_NoDup y s : NoDup s → NoDup (jset_add y s).
Proof.
  intros Hnd. unfold jset_add. case_decide; [done|].
  apply NoDup_app. split_and!; [done | | apply NoDup_singleton].
  intros x Hx ->%list_elem_of_singleton. done.
Qed.

Lemma jset_add_member y s : y ∈ s → jset_add y s = s.
Proof. intros H. unfold jset_add. by rewrite decide_True. Qed.

Lemma elem_of_jset_delete x y s : x ∈ jset_delete y s ↔ x ∈ s ∧ x ≠ y.
Proof. unfold jset_delete. rewrite list_elem_of_filter. naive_solver. Qed.

Lemma jset_delete_NoDup y s : NoDup s → NoDup (jset_delete y s).
Proof. apply NoDup_filter. Qed.

Lemma jset_delete_absent y s : y ∉ s → jset_delete y s = s.
Proof.
  intros H. unfold jset_delete. induction s as [|x s IH]; [done|].
  apply not_elem_of_cons in H as [Hne Hs].
  rewrite filter_cons, decide_True by done. by rewrite IH.
Qed.

Lemma jset_add_delete_same c s :
  filter (λ id, id ≠ c) (jset_add c s) = filter (λ id, id ≠ c) s.
Proof.
  unfold jset_add. case_decide; [done|].
  rewrite filter_app, filter_cons, decide_False, filter_nil, app_nil_r; naive_solver.
Qed.

Section jmap_more.
Context {V : Type}.
Implicit Types (m : list (string * V)) (k : string) (v : V).

Lemma jmap_elem_get k v m : NoDup m.*1 → (k, v) ∈ m → jmap_get k m = Some v.
Proof.
  induction m as [|[k0 v0] m IH]; simpl.
  - intros _ H. by apply elem_of_nil in H.
  - rewrite NoDup_cons. intros [Hk0 Hnd] [H | H]%elem_of_cons.
    + injection H as -> ->. by rewrite decide_True.
    + rewrite decide_False; [auto|].
      intros ->. apply Hk0. apply list_elem_of_fmap. by exists (k0, v).
Qed.

Lemma jmap_delete_keys k m : (jmap_delete k m).*1 ⊆ m.*1.
Proof.
  induction m as [|[k0 v0] m IH]; cbn [jmap_delete fmap list_fmap fst]; [done|].
  destruct (decide (k = k0)) as [->|Hk]; cbn [fmap list_fmap fst].
  - intros x Hx. by apply list_elem_of_further.
  - intros x [->|Hx]%elem_of_cons; [apply list_elem_of_here|].
    apply list_elem_of_further. by apply IH.
Qed.

Lemma jmap_delete_NoDup k m : NoDup m.*1 → NoDup (jmap_delete k m).*1.
Proof.
  induction m as [|[k0 v0] m IH]; cbn [jmap_delete fmap list_fmap fst]; [done|].
  rewrite NoDup_cons. intros [Hk0 Hnd].
  destruct (decide (k = k0)) as [->|Hk]; cbn [fmap list_fmap fst]; [done|].
  apply NoDup_cons. split; [|auto].
  intros Hin. by apply Hk0, (jmap_delete_keys k m).
Qed.

Lemma jmap_get_delete_eq k m : NoDup m.*1 → jmap_get k (jmap_delete k m) = None.
Proof.
  induction m as [|[k0 v0] m IH]; cbn [jmap_delete fmap list_fmap fst]; [done|].
  rewrite NoDup_cons. intros [Hk0 Hnd].
  destruct (decide (k = k0)) as [->|Hk].
  - by apply jmap_get_None.
  - cbn [jmap_get]. rewrite decide_False by done. auto.
Qed.

Lemma jmap_get_delete_ne k k' m :
  k ≠ k' → jmap_get k' (jmap_delete k m) = jmap_get k' m.
Proof.
  intros Hne. induction m as [|[k0 v0] m IH]; cbn [jmap_delete]; [done|].
  destruct (decide (k = k0)) as [->|Hk]; cbn [jmap_get].
  - by rewrite decide_False.
  - by rewrite IH.
Qed.

Lemma jmap_delete_absent k m : jmap_get k m = None → jmap_delete k m = m.
Proof.
  induction m as [|[k0 v0] m IH]; cbn [jmap_delete jmap_get]; [done|].
  destruct (decide (k = k0)) as [->|Hk]; [done|]. intros H. by rewrite IH.
Qed.
End jmap_more.

Lemma jset_delete_twice x s : jset_delete x (jset_delete x s) = jset_delete x s.
Proof.
  apply jset_delete_absent. rewrite elem_of_jset_delete. tauto.
Qed.

End JsFacts.

(** ** The signaling gateway *)

Module GatewayFacts.
Import Gateway JsFacts.

(** *** [handleJoinRoom] *)

Lemma join_rooms roomId client st :
  rooms (handleJoinRoom roomId client st).1
  = jmap_set roomId {| users := jset_add client (members roomId st) |} (rooms st).
Proof.
  unfold handleJoinRoom, members, jmap_has. cbn [fst rooms].
  destruct (jmap_get roomId (rooms st)) as [room|] eqn:E.
  - by rewrite E.
  - by rewrite jmap_get_set_eq, jmap_set_set.
Qed.

Lemma members_join roomId client st r :
  members r (handleJoinRoom roomId client st).1
  = if decide (r = roomId) then jset_add client (members roomId st)
    else members r st.
Proof.
  unfold members at 1. rewrite join_rooms.
  destruct (decide (r = roomId)) as [->|Hne].
  - by rewrite jmap_get_set_eq.
  - by rewrite jmap_get_set_ne.
Qed.

Lemma join_sent roomId client st :
  (handleJoinRoom roomId client st).2
  = map (λ userId, emit st (ToRoom userId) (UserJoined client)) (members roomId st)
    ++ [emit (handleJoinRoom roomId client st).1 (ToSocket client)
          (RoomUsers (filter (λ id, id ≠ client) (members roomId st)))].
Proof.
  unfold handleJoinRoom, members, jmap_has. cbn [fst snd].
  destruct (jmap_get roomId (rooms st)) as [room|] eqn:E.
  - rewrite E. cbn [default users]. by rewrite jset_add_delete_same.
  - rewrite jmap_get_set_eq. cbn [default users map app].
    by rewrite jset_add_delete_same.
Qed.

Lemma join_adapter roomId client st :
  adapter (handleJoinRoom roomId client st).1 = sio_join client roomId (adapter st)
  ∧ sockets (handleJoinRoom roomId client st).1 = sockets st.
Proof. done. Qed.

(** *** [handleDisconnect] *)

Lemma disconnect_keys st c rs k :
  k ∈ (disconnectRooms st c rs).1.*1 → k ∈ rs.*1.
Proof.
  induction rs as [|[r room] rs IH]; simpl; [done|].
  destruct (disconnectRooms st c rs) as [rest' out].
  destruct (jset_has c (users room)); [case_decide|];
    cbn [fst fmap list_fmap] in *; rewrite ?elem_of_cons; naive_solver.
Qed.

Lemma disconnect_NoDup st c rs :
  NoDup rs.*1 → NoDup (disconnectRooms st c rs).1.*1.
Proof.
  induction rs as [|[r room] rs IH]; simpl; [done|].
  rewrite NoDup_cons. intros [Hr Hnd].
  pose proof (disconnect_keys st c rs r) as Hk.
  destruct (disconnectRooms st c rs) as [rest' out].
  destruct (jset_has c (users room)); [case_decide|];
    cbn [fst fmap list_fmap] in *; rewrite ?NoDup_cons; naive_solver.
Qed.

Lemma disconnect_get st c rs r :
  NoDup rs.*1 →
  users_of (jmap_get r (disconnectRooms st c rs).1)
  = jset_delete c (users_of (jmap_get r rs)).
Proof.
  induction rs as [|[r0 room] rs IH]; simpl; [done|].
  rewrite NoDup_cons. intros [Hr Hnd].
  pose proof (disconnect_keys st c rs r0) as Hk.
  specialize (IH Hnd).
  destruct (disconnectRooms st c rs) as [rest' out]. cbn [fst] in *.
  destruct (jset_has c (users room)) eqn:Hhas.
  - case_decide as Hlen; cbn [fst users jmap_get].
    + destruct (decide (r = r0)) as [->|Hne]; [|done].
      assert (jmap_get r0 rest' = None) as -> by (apply jmap_get_None; auto).
      cbn [users_of]. symmetry. by apply nil_length_inv.
    + by destruct (decide (r = r0)).
  - cbn [fst jmap_get]. destruct (decide (r = r0)) as [->|Hne]; [|done].
    cbn [users_of]. symmetry. apply jset_delete_absent.
    by apply jset_has_false.
Qed.

Lemma members_disconnect c st r :
  NoDup (rooms st).*1 →
  members r (handleDisconnect c st).1 = jset_delete c (members r st).
Proof.
  intros Hnd. unfold handleDisconnect.
  pose proof (disconnect_get st c (rooms st) r Hnd) as H.
  destruct (disconnectRooms st c (rooms st)) as [rooms' out]. done.
Qed.

Lemma disconnect_Forall (P : Room → Prop) st c rs :
  (∀ room, P room → P {| users := jset_delete c (users room) |}) →
  Forall (λ e, P e.2) rs →
  Forall (λ e, P e.2) (disconnectRooms st c rs).1.
Proof.
  intros HP. induction 1 as [|[r room] rs Hroom Hall IH]; simpl; [done|].
  destruct (disconnectRooms st c rs) as [rest' out]. cbn [fst snd] in *.
  destruct (jset_has c (users room)); [case_decide|]; cbn [fst];
    try constructor; cbn [snd]; auto.
Qed.

Lemma disconnect_nonempty st c rs :
  Forall (λ e, users e.2 ≠ []) rs →
  Forall (λ e, users e.2 ≠ []) (disconnectRooms st c rs).1.
Proof.
  induction 1 as [|[r room] rs Hroom Hall IH]; simpl; [done|].
  destruct (disconnectRooms st c rs) as [rest' out]. cbn [fst snd] in *.
  destruct (jset_has c (users room)); [case_decide as Hlen|]; cbn [fst];
    try constructor; auto.
  cbn [snd users]. intros E. by rewrite E in Hlen.
Qed.

Lemma filter_eq_NoDup (m : string) (l : list string) :
  NoDup l → length (filter (λ u, u = m) l) = if decide (m ∈ l) then 1 else 0.
Proof.
  induction 1 as [|x l Hx Hnd IH]; [done|].
  rewrite filter_cons. destruct (decide (x = m)) as [->|Hne].
  - cbn [length]. rewrite IH, decide_False by done.
    rewrite decide_True; [done | apply list_elem_of_here].
  - rewrite IH. destruct (decide (m ∈ l)) as [Hin|Hin].
    + rewrite decide_True; [done | by apply list_elem_of_further].
    + rewrite decide_False; [done|]. rewrite not_elem_of_cons. done.
Qed.

Lemma addressed_app m msg out out' :
  addressed m msg (out ++ out') = addressed m msg out + addressed m msg out'.
Proof. unfold addressed. by rewrite filter_app, length_app. Qed.

Lemma addressed_notes st m msg (us : list string) :
  addressed m msg (map (λ userId, emit st (ToRoom userId) msg) us)
  = length (filter (λ u, u = m) us).
Proof.
  unfold addressed. induction us as [|u us IH]; [done|].
  cbn [map]. rewrite !filter_cons. cbn [emit sent_to sent_msg].
  destruct (decide (u = m)) as [->|Hne].
  - rewrite decide_True by done. cbn [length]. by rewrite IH.
  - rewrite decide_False; [done|]. intros [[= ?] _]. done.
Qed.



(** *** The transport rooms *)

Lemma sio_members_join n c name ad :
  sio_members n (sio_join c name ad)
  = if decide (n = name) then jset_add c (sio_members name ad)
    else sio_members n ad.
Proof.
  unfold sio_join. unfold sio_members at 1.
  destruct (decide (n = name)) as [->|Hne].
  - by rewrite jmap_get_set_eq.
  - by rewrite jmap_get_set_ne.
Qed.

Lemma sio_leave_keys c ad k : k ∈ (sio_leave_all c ad).*1 → k ∈ ad.*1.
Proof.
  induction ad as [|[n sids] ad IH]; simpl; [done|].
  case_decide; cbn [fmap list_fmap fst]; rewrite ?elem_of_cons; naive_solver.
Qed.

Lemma sio_leave_NoDup c ad : NoDup ad.*1 → NoDup (sio_leave_all c ad).*1.
Proof.
  induction ad as [|[n sids] ad IH]; simpl; [done|].
  rewrite NoDup_cons. intros [Hn Hnd].
  pose proof (sio_leave_keys c ad n).
  case_decide; cbn [fmap list_fmap fst]; rewrite ?NoDup_cons; naive_solver.
Qed.

Lemma sio_members_leave n c ad :
  NoDup ad.*1 →
  sio_members n (sio_leave_all c ad) = jset_delete c (sio_members n ad).
Proof.
  unfold sio_members.
  induction ad as [|[n0 sids] ad IH]; simpl; [done|].
  rewrite NoDup_cons. intros [Hn Hnd]. specialize (IH Hnd).
  pose proof (sio_leave_keys c ad n0) as Hk.
  case_decide as Hlen; cbn [jmap_get].
  - destruct (decide (n = n0)) as [->|Hne]; [|done].
    assert (jmap_get n0 (sio_leave_all c ad) = None) as ->
      by (apply jmap_get_None; auto).
    cbn [default]. symmetry. by apply nil_length_inv.
  - by destruct (decide (n = n0)).
Qed.

(** *** Invariants of the reachable states *)

Lemma run_snoc st evs ev : run st (evs ++ [ev]) = (step (run st evs) ev).1.
Proof. unfold run. by rewrite fold_left_app. Qed.

Lemma step_wf st ev : wf st → wf (step st ev).1.
Proof.
  intros (Hk & Hu & Hne & Ha).
  destruct ev as [c|c|c [r|o t|a t|k t]]; cbn [step dispatch handleConnection
    handleOffer handleAnswer handleIceCandidate fst];
    try (split_and!; cbn [rooms adapter]; by try apply jmap_set_NoDup).
  - (* disconnect *)
    unfold handleDisconnect. cbn [rooms sockets adapter].
    set (st0 := {| rooms := rooms st; sockets := _; adapter := _ |}).
    pose proof (disconnect_NoDup st0 c (rooms st) Hk).
    pose proof (disconnect_Forall (λ room, NoDup (users room)) st0 c (rooms st)
                  (λ room, jset_delete_NoDup c (users room)) Hu).
    pose proof (disconnect_nonempty st0 c (rooms st) Hne).
    destruct (disconnectRooms st0 c (rooms st)) as [rooms' out].
    split_and!; cbn [fst rooms adapter]; try done. by apply sio_leave_NoDup.
  - (* join *)
    unfold wf. rewrite join_rooms.
    destruct (join_adapter r c st) as [-> _].
    split_and!.
    + by apply jmap_set_NoDup.
    + apply Forall_forall. intros e [->|He]%jmap_set_elem.
      * cbn [snd users]. apply jset_add_NoDup.
        unfold members. destruct (jmap_get r (rooms st)) as [room|] eqn:E;
          [|apply NoDup_nil_2].
        apply jmap_get_Some_elem in E.
        by apply (proj1 (Forall_forall _ _) Hu (r, room)).
      * by apply (proj1 (Forall_forall _ _) Hu e).
    + apply Forall_forall. intros e [->|He]%jmap_set_elem.
      * cbn [snd users]. intros E.
        assert (c ∈ jset_add c (members r st)) as Hin
          by (apply elem_of_jset_add; auto).
        rewrite E in Hin. by apply elem_of_nil in Hin.
      * by apply (proj1 (Forall_forall _ _) Hne e).
    + by apply jmap_set_NoDup.
Qed.

Lemma registered_iff sid st : registered sid st = true ↔ sid ∈ sockets st.
Proof. apply jset_has_true. Qed.

Lemma step_transport st ev : wf st → transport_ok st → transport_ok (step st ev).1.
Proof.
  intros (Hk & Hu & Hne & Ha) Hok x n. specialize (Hok x n).
  unfold in_transport_room in *. rewrite registered_iff in *.
  destruct ev as [c|c|c [r|o t|a t|k t]]; cbn [step dispatch handleConnection
    handleOffer handleAnswer handleIceCandidate fst]; try done.
  - (* connect *)
    unfold members. cbn [adapter sockets rooms].
    rewrite sio_members_join. fold (members n st).
    destruct (decide (n = c)) as [->|Hn];
      rewrite ?elem_of_jset_add; naive_solver.
  - (* disconnect *)
    rewrite members_disconnect by done.
    unfold handleDisconnect. cbn [rooms sockets adapter].
    destruct (disconnectRooms _ c (rooms st)) as [rooms' out].
    cbn [fst adapter sockets]. unfold members. cbn [rooms]. fold (members n st).
    rewrite sio_members_leave by done.
    rewrite !elem_of_jset_delete. naive_solver.
  - (* join *)
    rewrite members_join. destruct (join_adapter r c st) as [-> ->].
    rewrite sio_members_join.
    destruct (decide (n = r)) as [->|Hn];
      rewrite ?elem_of_jset_add; naive_solver.
Qed.

Lemma run_inv evs : wf (run init evs) ∧ transport_ok (run init evs).
Proof.
  induction evs as [|ev evs [Hwf Hok]] using rev_ind.
  - split.
    + split_and!; cbn; try constructor.
    + intros x n. unfold in_transport_room, registered, members. cbn.
      split; [by intros ?%elem_of_nil|].
      intros [[_ ?]|?%elem_of_nil]; done.
  - rewrite run_snoc. split; [by apply step_wf | by apply step_transport].
Qed.

(** *** Membership *)

Lemma spec_member_snoc c r evs ev :
  spec_member c r (evs ++ [ev])
  ↔ ev = Message c (JoinRoom r) ∨ (spec_member c r evs ∧ ev ≠ Disconnect c).
Proof.
  unfold spec_member. split.
  - intros (before & after & Heq & Hnot).
    destruct after as [|x after _] using rev_ind.
    + left. by apply app_inj_tail in Heq as [_ ->].
    + right. rewrite app_comm_cons, app_assoc in Heq.
      apply app_inj_tail in Heq as [-> ->].
      rewrite elem_of_app, list_elem_of_singleton in Hnot.
      split; [exists before, after; split; [done|tauto] | intros ->; tauto].
  - intros [->|[(before & after & -> & Hnot) Hne]].
    + exists evs, []. split; [done | apply not_elem_of_nil].
    + exists before, (after ++ [ev]). split.
      * by rewrite <- app_assoc.
      * rewrite elem_of_app, list_elem_of_singleton. naive_solver.
Qed.

Lemma members_step st ev r x :
  NoDup (rooms st).*1 →
  x ∈ members r (step st ev).1
  ↔ match ev with
    | Connect _ => x ∈ members r st
    | Disconnect c => x ∈ members r st ∧ x ≠ c
    | Message c (JoinRoom r') => (r = r' ∧ x = c) ∨ x ∈ members r st
    | Message _ _ => x ∈ members r st
    end.
Proof.
  intros Hnd.
  destruct ev as [c|c|c [r'|o t|a t|k t]]; cbn [step dispatch handleConnection
    handleOffer handleAnswer handleIceCandidate fst]; try done.
  - rewrite members_disconnect by done. unfold members. cbn [rooms].
    apply elem_of_jset_delete.
  - rewrite members_join. destruct (decide (r = r')) as [->|Hne].
    + rewrite elem_of_jset_add. naive_solver.
    + naive_solver.
Qed.

Lemma members_NoDup evs roomId :
  NoDup (members roomId (run init evs)).
Proof.
  destruct (run_inv evs) as [(Hk & Hu & _) _].
  unfold members. destruct (jmap_get roomId (rooms (run init evs))) as [room|] eqn:E;
    [|apply NoDup_nil_2].
  apply jmap_get_Some_elem in E.
  by apply (proj1 (Forall_forall _ _) Hu (roomId, room)).
Qed.

(** C2.  For every sequence of events applied to the gateway from its
    initial state, and every room identifier, the members of the room are
    exactly the connections that issued a join for that room and have not
    disconnected since; the members form a set (no connection is listed
    twice); and a join by a connection that is already a member leaves the
    member set of every room as it was. *)
Theorem room_members_exact (evs : list Event) (roomId client : string) :
  (client ∈ members roomId (run init evs) ↔ spec_member client roomId evs)
  ∧ NoDup (members roomId (run init evs))
  ∧ (client ∈ members roomId (run init evs) →
     ∀ r, members r (run init (evs ++ [Message client (JoinRoom roomId)]))
          = members r (run init evs)).
Proof.
  split_and!.
  - induction evs as [|ev evs IH] using rev_ind.
    + split; [by intros ?%elem_of_nil|].
      intros (before & after & Heq & _). by destruct before.
    + destruct (run_inv evs) as [(Hk & _) _].
      rewrite run_snoc, members_step, spec_member_snoc by done.
      destruct ev as [c|c|c [r'|o t|a t|k t]]; rewrite IH; naive_solver.
  - apply members_NoDup.
  - intros Hin r. rewrite run_snoc. cbn [step dispatch].
    rewrite members_join. case_decide as Hr; [|done].
    subst r. by apply jset_add_member.
Qed.

(** A run on which the last part of [room_members_exact] applies. *)
Lemma room_members_exact_witness :
  members "r1" (run init [Connect "A"; Message "A" (JoinRoom "r1");
                          Message "A" (JoinRoom "r1")])
  = members "r1" (run init [Connect "A"; Message "A" (JoinRoom "r1")]).
Proof.
  apply (proj2 (proj2 (room_members_exact
           [Connect "A"; Message "A" (JoinRoom "r1")] "r1" "A"))).
  vm_compute. apply list_elem_of_here.
Defined.

(** C5.  In every state reached from the initial one, every room of the
    map has a member; disconnecting the only member of a room deletes the
    room in that same step; and a room that appears in the map was created
    by a join whose joiner is a member of it right after the join. *)
Theorem rooms_never_empty (evs : list Event) :
  Forall (λ e, users e.2 ≠ []) (rooms (run init evs))
  ∧ (∀ c r, members r (run init evs) = [c] →
       jmap_get r (rooms (run init (evs ++ [Disconnect c]))) = None)
  ∧ (∀ ev r,
       jmap_get r (rooms (run init evs)) = None →
       is_Some (jmap_get r (rooms (run init (evs ++ [ev])))) →
       ∃ c, ev = Message c (JoinRoom r)
            ∧ c ∈ members r (run init (evs ++ [ev]))).
Proof.
  split_and!.
  - by destruct (run_inv evs) as [(_ & _ & Hne & _) _].
  - intros c r Hm.
    destruct (run_inv (evs ++ [Disconnect c])) as [(_ & _ & Hne & _) _].
    destruct (run_inv evs) as [(Hk & _) _].
    assert (members r (run init (evs ++ [Disconnect c])) = []) as Hnil.
    { rewrite run_snoc. cbn [step]. rewrite members_disconnect by done.
      unfold members in *. cbn [rooms]. rewrite Hm.
      unfold jset_delete. by rewrite filter_cons, decide_False, filter_nil by tauto. }
    unfold members in Hnil.
    destruct (jmap_get r (rooms (run init (evs ++ [Disconnect c])))) as [room|] eqn:E;
      [|done].
    apply jmap_get_Some_elem in E.
    by destruct (proj1 (Forall_forall _ _) Hne (r, room) E).
  - intros ev r Hnone [room Hsome]. rewrite run_snoc in Hsome |- *.
    destruct ev as [c|c|c [r'|o t|a t|k t]]; cbn [step dispatch handleConnection
      handleOffer handleAnswer handleIceCandidate fst rooms] in Hsome |- *;
      try congruence.
    + exfalso. apply jmap_get_None in Hnone. apply Hnone.
      unfold handleDisconnect in Hsome. cbn [rooms] in Hsome.
      pose proof (disconnect_keys
        {| rooms := rooms (run init evs);
           sockets := jset_delete c (sockets (run init evs));
           adapter := sio_leave_all c (adapter (run init evs)) |}
        c (rooms (run init evs)) r) as Hkeys.
      destruct (disconnectRooms _ c (rooms (run init evs))) as [rooms' out].
      cbn [fst rooms] in *. apply Hkeys.
      apply jmap_get_Some_elem in Hsome.
      apply list_elem_of_fmap. by exists (r, room).
    + rewrite join_rooms in Hsome. destruct (decide (r = r')) as [->|Hne].
      * exists c. split; [done|]. rewrite members_join, decide_True by done.
        apply elem_of_jset_add. by left.
      * rewrite jmap_get_set_ne in Hsome by done. congruence.
Qed.

(** A run on which the last two parts of [rooms_never_empty] apply. *)
Lemma rooms_never_empty_witness :
  jmap_get "r1" (rooms (run init [Connect "A"; Message "A" (JoinRoom "r1");
                                  Disconnect "A"])) = None
  ∧ ∃ c, Message "A" (JoinRoom "r1") = Message c (JoinRoom "r1")
         ∧ c ∈ members "r1" (run init [Connect "A"; Message "A" (JoinRoom "r1")]).
Proof.
  split.
  - apply (proj1 (proj2 (rooms_never_empty
             [Connect "A"; Message "A" (JoinRoom "r1")])) "A" "r1").
    reflexivity.
  - apply (proj2 (proj2 (rooms_never_empty [Connect "A"]))
             (Message "A" (JoinRoom "r1")) "r1").
    + reflexivity.
    + vm_compute. by eexists.
Defined.

(** *** Notifications *)



(** C3.  What [handleJoinRoom] emits: one user-joined notification
    addressed to each member present before the join, the joiner included
    when it is already a member, and then room-users, to the joiner's own
    socket, listing the members present before the join without the
    joiner.  At the second join of A to its room, A is sent a user-joined
    notification that carries its own identifier. *)
Theorem rejoin_notifies_joiner (evs : list Event) (roomId client : string) :
  let st := run init evs in
  let res := step st (Message client (JoinRoom roomId)) in
  res.2 = map (λ userId, emit st (ToRoom userId) (UserJoined client))
              (members roomId st)
          ++ [emit res.1 (ToSocket client)
                (RoomUsers (filter (λ id, id ≠ client) (members roomId st)))]
  ∧ (∀ m, addressed m (UserJoined client) res.2
          = if decide (m ∈ members roomId st) then 1 else 0)
  ∧ step (run init [Connect "A"; Message "A" (JoinRoom "r1")])
         (Message "A" (JoinRoom "r1"))
    = (run init [Connect "A"; Message "A" (JoinRoom "r1")],
       [ {| sent_to := ToRoom "A"; sent_msg := UserJoined "A";
            sent_recipients := ["A"] |};
         {| sent_to := ToSocket "A"; sent_msg := RoomUsers [];
            sent_recipients := ["A"] |} ]).
Proof.
  intros st res. split_and!; [apply join_sent | | by vm_compute].
  intros m. unfold res. cbn [step dispatch]. rewrite join_sent.
  rewrite addressed_app, addressed_notes.
  pose proof (members_NoDup evs roomId) as Hnd. fold st in Hnd.
  rewrite filter_eq_NoDup by done.
  rewrite <- (Nat.add_0_r (if decide (m ∈ members roomId st) then 1 else 0)) at 2.
  f_equal.
Qed.

(** *** The relay *)

Lemma deliveries_one t msg recipients :
  deliveries [{| sent_to := t; sent_msg := msg; sent_recipients := recipients |}]
  = map (λ sid, (sid, msg)) recipients.
Proof. unfold deliveries. cbn. apply app_nil_r. Qed.

Lemma forwards_emit st to msg :
  wf st → transport_ok st →
  forwards st to msg (st, [emit st (ToRoom to) msg]).
Proof.
  intros Hwf Hok. unfold transport_ok in Hok.
  unfold forwards, emit. cbn [fst snd resolve].
  rewrite deliveries_one.
  assert (∀ sid, (sid, msg) ∈ map (λ sid0, (sid0, msg)) (sio_members to (adapter st))
                 ↔ in_transport_room sid to st) as Hdel.
  { intros sid. rewrite <- Hok. rewrite list_elem_of_fmap. split.
    - by intros (x & [= ->] & Hx).
    - intros Hx. by exists sid. }
  split_and!; try done.
  - intros sid m (x & [= -> ->] & _)%list_elem_of_fmap. done.
  - intros Hreg. apply Hdel. by left.
  - intros Hreg Hnone.
    destruct (sio_members to (adapter st)) as [|sid rest] eqn:E; [done|].
    assert (in_transport_room sid to st) as [[_ Hr]|Hm].
    { apply Hok. rewrite E. apply list_elem_of_here. }
    + congruence.
    + rewrite Hnone in Hm. by apply elem_of_nil in Hm.
Qed.

(** C8, as stated: an offer whose target is not a registered connection
    but the name of a room that a connection joined is not dropped; the
    members of that room receive it. *)
Lemma relay_reaches_room_members :
  let st := run init [Connect "A"; Message "A" (JoinRoom "r1"); Connect "B"] in
  let offer := {| sdp_type := SdpOffer; sdp := "v=0" |} in
  registered "r1" st = false
  ∧ deliveries (step st (Message "B" (Offer offer "r1"))).2
    = [("A", OfferFrom offer "B")]
  ∧ deliveries (step st (Message "B" (Offer offer "r1"))).2 ≠ [].
Proof. by vm_compute. Qed.

(** C8, amended.  In every reachable state, an offer, answer or
    ice-candidate message with target identifier [to] leaves the gateway's
    state untouched and is emitted once, payload unchanged and with the
    sender's identifier as [from], to the transport room named [to]: it
    reaches the connection [to] when that connection is registered, it
    also reaches every connection that joined a room named [to], it
    reaches nobody else, and when [to] names neither a registered
    connection nor a room with members nothing is delivered. *)
Theorem relay_forwards (evs : list Event) (client to : string) :
  let st := run init evs in
  (∀ offer, forwards st to (OfferFrom offer client)
              (step st (Message client (Offer offer to))))
  ∧ (∀ answer, forwards st to (AnswerFrom answer client)
                 (step st (Message client (Answer answer to))))
  ∧ (∀ candidate, forwards st to (IceCandidateFrom candidate client)
                    (step st (Message client (IceCandidate candidate to)))).
Proof.
  intros st. destruct (run_inv evs) as [Hwf Hok]. fold st in Hwf, Hok.
  split_and!; intros ?; by apply forwards_emit.
Qed.

(** *** Disconnecting twice, joining and leaving *)

Lemma disconnect_absent st c rs :
  Forall (λ e : string * Room, c ∉ users e.2) rs →
  disconnectRooms st c rs = (rs, []).
Proof.
  induction 1 as [|[r room] rs Hc _ IH]; cbn [disconnectRooms]; [done|].
  rewrite IH. cbn [snd] in Hc. apply jset_has_false in Hc. by rewrite Hc.
Qed.

Lemma disconnect_removes st c rs :
  Forall (λ e : string * Room, c ∉ users e.2) (disconnectRooms st c rs).1.
Proof.
  induction rs as [|[r room] rs IH]; cbn [disconnectRooms]; [constructor|].
  destruct (disconnectRooms st c rs) as [rest' out]. cbn [fst] in IH.
  destruct (jset_has c (users room)) eqn:Hhas; [case_decide|]; cbn [fst];
    try done; constructor; try done; cbn [snd users].
  - rewrite elem_of_jset_delete. tauto.
  - by apply jset_has_false.
Qed.

Lemma disconnect_rooms_transport st st' c rs :
  (disconnectRooms st c rs).1 = (disconnectRooms st' c rs).1.
Proof.
  induction rs as [|[r room] rs IH]; cbn [disconnectRooms]; [done|].
  destruct (disconnectRooms st c rs) as [rest1 out1].
  destruct (disconnectRooms st' c rs) as [rest2 out2]. cbn [fst] in IH. subst.
  destruct (jset_has c (users room)); [case_decide|]; done.
Qed.

Lemma sio_leave_absent c ad :
  Forall (λ e : string * list string, (c ∉ e.2) ∧ (e.2 ≠ [])) ad →
  sio_leave_all c ad = ad.
Proof.
  induction 1 as [|[n sids] ad [Hc Hne] _ IH]; cbn [sio_leave_all]; [done|].
  cbn [snd] in *. rewrite jset_delete_absent by done.
  rewrite decide_False by (by destruct sids). by rewrite IH.
Qed.

Lemma sio_leave_removes c ad :
  Forall (λ e : string * list string, (c ∉ e.2) ∧ (e.2 ≠ [])) (sio_leave_all c ad).
Proof.
  induction ad as [|[n sids] ad IH]; cbn [sio_leave_all]; [constructor|].
  case_decide as Hlen; [done|]. constructor; [|done]. cbn [snd]. split.
  - rewrite elem_of_jset_delete. tauto.
  - intros E. by rewrite E in Hlen.
Qed.

Lemma step_disconnect st c :
  step st (Disconnect c)
  = ({| rooms := (disconnectRooms st c (rooms st)).1;
        sockets := jset_delete c (sockets st);
        adapter := sio_leave_all c (adapter st) |},
     (disconnectRooms
        {| rooms := rooms st; sockets := jset_delete c (sockets st);
           adapter := sio_leave_all c (adapter st) |} c (rooms st)).2).
Proof.
  cbn [step]. unfold handleDisconnect. cbn [rooms sockets adapter].
  rewrite (disconnect_rooms_transport st
    {| rooms := rooms st; sockets := jset_delete c (sockets st);
       adapter := sio_leave_all c (adapter st) |} c (rooms st)).
  by destruct (disconnectRooms _ c (rooms st)).
Qed.

(** X1.  A second disconnect of the same connection finds nothing to do:
    it emits no notification and leaves the whole state (room map,
    registered sockets, transport rooms) as the first disconnect left
    it. *)
Theorem disconnect_twice (st : State) (client : string) :
  step (step st (Disconnect client)).1 (Disconnect client)
  = ((step st (Disconnect client)).1, []).
Proof.
  rewrite (step_disconnect st client). cbn [fst].
  rewrite step_disconnect. cbn [rooms sockets adapter].
  rewrite !(disconnect_absent _ client _ (disconnect_removes st client (rooms st))).
  cbn [fst snd]. rewrite jset_delete_twice.
  by rewrite (sio_leave_absent client _ (sio_leave_removes client (adapter st))).
Qed.

Lemma join_leave_rooms st c r rs :
  NoDup rs.*1 →
  Forall (λ e : string * Room, users e.2 ≠ []) rs →
  Forall (λ e : string * Room, c ∉ users e.2) rs →
  (disconnectRooms st c
     (jmap_set r {| users := users_of (jmap_get r rs) ++ [c] |} rs)).1 = rs.
Proof.
  intros Hnd Hne Hc. induction rs as [|[k room] rs IH].
  - cbn [jmap_get jmap_set users_of app disconnectRooms users].
    unfold jset_has. rewrite bool_decide_eq_true_2 by apply list_elem_of_here.
    unfold jset_delete. rewrite filter_cons.
    destruct (decide (c ≠ c)) as [Hcc|_]; [done|]. by rewrite filter_nil.
  - apply NoDup_cons in Hnd as [Hk Hnd].
    apply Forall_cons in Hne as [Hroom Hne].
    apply Forall_cons in Hc as [Hcroom Hc]. cbn [snd] in *.
    cbn [jmap_get jmap_set]. destruct (decide (r = k)) as [->|Hrk].
    + cbn [users_of disconnectRooms users]. rewrite (disconnect_absent _ c rs Hc).
      unfold jset_has. rewrite bool_decide_eq_true_2
        by (rewrite elem_of_app, list_elem_of_singleton; auto).
      cbn [users]. unfold jset_delete.
      rewrite filter_app, filter_cons.
      destruct (decide (c ≠ c)) as [Hcc|_]; [done|]. rewrite filter_nil, app_nil_r.
      fold (jset_delete c (users room)). rewrite jset_delete_absent by done.
      rewrite decide_False by (by destruct (users room)).
      cbn [fst]. by destruct room.
    + cbn [disconnectRooms]. specialize (IH Hnd Hne Hc).
      destruct (disconnectRooms st c (jmap_set r _ rs)) as [rest' out].
      cbn [fst] in IH. subst rest'.
      apply jset_has_false in Hcroom. by rewrite Hcroom.
Qed.

(** X2.  Joining a room and then disconnecting undoes the join: for a
    connection that is in no room of a reachable state, the room map after
    the join and the disconnect is the room map before, whether the room
    existed (the others keep their places) or was created by the join (it
    is deleted again). *)
Theorem join_then_disconnect (evs : list Event) (roomId client : string) :
  (∀ r, client ∉ members r (run init evs)) →
  rooms (run init (evs ++ [Message client (JoinRoom roomId); Disconnect client]))
  = rooms (run init evs).
Proof.
  intros Habsent. destruct (run_inv evs) as [(Hk & _ & Hne & _) _].
  replace (evs ++ [Message client (JoinRoom roomId); Disconnect client])
    with ((evs ++ [Message client (JoinRoom roomId)]) ++ [Disconnect client])
    by by rewrite <- app_assoc.
  rewrite !run_snoc. set (st := run init evs) in *.
  cbn [step dispatch]. unfold handleDisconnect. cbn [rooms sockets adapter].
  rewrite join_rooms.
  assert (Forall (λ e : string * Room, client ∉ users e.2) (rooms st)) as Hc.
  { apply Forall_forall. intros [k room] Hin. cbn [snd].
    specialize (Habsent k). unfold members in Habsent.
    by rewrite (jmap_elem_get k room (rooms st) Hk Hin) in Habsent. }
  assert (jset_add client (members roomId st)
          = users_of (jmap_get roomId (rooms st)) ++ [client]) as ->.
  { unfold jset_add. rewrite decide_False by apply Habsent. done. }
  pose proof (join_leave_rooms
    {| rooms := jmap_set roomId
                  {| users := users_of (jmap_get roomId (rooms st)) ++ [client] |}
                  (rooms st);
       sockets := jset_delete client (sockets (handleJoinRoom roomId client st).1);
       adapter := sio_leave_all client (adapter (handleJoinRoom roomId client st).1) |}
    client roomId (rooms st) Hk Hne Hc) as H.
  destruct (disconnectRooms _ client _) as [rooms' out]. done.
Qed.

(** [join_then_disconnect] for a newcomer to an existing room. *)
Lemma join_then_disconnect_witness :
  rooms (run init ([Connect "A"; Message "A" (JoinRoom "r1"); Connect "B"]
                   ++ [Message "B" (JoinRoom "r1"); Disconnect "B"]))
  = rooms (run init [Connect "A"; Message "A" (JoinRoom "r1"); Connect "B"]).
Proof.
  apply (join_then_disconnect
           [Connect "A"; Message "A" (JoinRoom "r1"); Connect "B"] "r1" "B").
  intros r.
  let st := eval vm_compute in
    (run init [Connect "A"; Message "A" (JoinRoom "r1"); Connect "B"]) in
  change (run init [Connect "A"; Message "A" (JoinRoom "r1"); Connect "B"]) with st.
  unfold members. cbn [rooms jmap_get].
  destruct (decide (r = "r1")) as [_|_]; cbn [users].
  - intros H. apply list_elem_of_singleton in H. discriminate.
  - apply not_elem_of_nil.
Defined.

(** *** The transport rooms of the reachable states *)

Lemma sio_join_sets c name ad :
  Forall (λ e : string * list string, NoDup e.2) ad →
  Forall (λ e : string * list string, NoDup e.2) (sio_join c name ad).
Proof.
  intros Hall. unfold sio_join. apply Forall_forall.
  intros e [->|He]%jmap_set_elem.
  - cbn [snd]. apply jset_add_NoDup. unfold sio_members.
    destruct (jmap_get name ad) as [sids|] eqn:E; [|apply NoDup_nil_2].
    apply jmap_get_Some_elem in E.
    by apply (proj1 (Forall_forall _ _) Hall (name, sids)).
  - by apply (proj1 (Forall_forall _ _) Hall e).
Qed.

Lemma sio_leave_sets c ad :
  Forall (λ e : string * list string, NoDup e.2) ad →
  Forall (λ e : string * list string, NoDup e.2) (sio_leave_all c ad).
Proof.
  induction 1 as [|[n sids] ad Hn _ IH]; cbn [sio_leave_all]; [done|].
  case_decide; [done|]. constructor; [|done]. by apply jset_delete_NoDup.
Qed.

Lemma adapter_sets_NoDup evs :
  Forall (λ e : string * list string, NoDup e.2) (adapter (run init evs)).
Proof.
  induction evs as [|ev evs IH] using rev_ind; [constructor|].
  rewrite run_snoc. destruct ev as [c|c|c [r|o t|a t|k t]]; try done.
  - by apply sio_join_sets.
  - rewrite step_disconnect. cbn [fst adapter]. by apply sio_leave_sets.
  - cbn [step dispatch]. destruct (join_adapter r c (run init evs)) as [-> _].
    by apply sio_join_sets.
Qed.

(** X3.  [client.join(roomId)] keeps the transport rooms in step with the
    room map: in every reachable state the sockets in the transport room
    of a name are, each once, the members of the gateway's room of that
    name, together with the socket of that id while it is registered. *)
Theorem transport_rooms (evs : list Event) (name sid : string) :
  (sid ∈ sio_members name (adapter (run init evs))
   ↔ in_transport_room sid name (run init evs))
  ∧ NoDup (sio_members name (adapter (run init evs))).
Proof.
  split; [apply run_inv|].
  pose proof (adapter_sets_NoDup evs) as Hall. unfold sio_members.
  destruct (jmap_get name (adapter (run init evs))) as [sids|] eqn:E;
    [|apply NoDup_nil_2].
  apply jmap_get_Some_elem in E.
  by apply (proj1 (Forall_forall _ _) Hall (name, sids)).
Qed.

Lemma only_member (x : string) (l : list string) :
  NoDup l → (∀ y, y ∈ l ↔ y = x) → l = [x].
Proof.
  intros Hnd Hl. destruct l as [|a l].
  - assert (x ∈ []) as H%elem_of_nil by by apply Hl. done.
  - assert (a = x) as -> by (apply Hl, list_elem_of_here).
    destruct l as [|b l]; [done|].
    assert (b = x) as -> by (apply Hl; apply list_elem_of_further, list_elem_of_here).
    apply NoDup_cons in Hnd as [Hx _]. exfalso. apply Hx, list_elem_of_here.
Qed.

Lemma relay_one (evs : list Event) (client : string) (m : ClientMsg)
    (to : string) (msg : ServerMsg) :
  relayed client m = Some (to, msg) →
  registered to (run init evs) = true →
  members to (run init evs) = [] →
  step (run init evs) (Message client m)
  = (run init evs,
     [{| sent_to := ToRoom to; sent_msg := msg; sent_recipients := [to] |}])
  ∧ deliveries (step (run init evs) (Message client m)).2 = [(to, msg)].
Proof.
  intros Hrel Hreg Hnone. set (st := run init evs) in *.
  assert (sio_members to (adapter st) = [to]) as Hto.
  { destruct (run_inv evs) as [_ Hok]. fold st in Hok.
    apply only_member.
    - pose proof (adapter_sets_NoDup evs) as Hall. fold st in Hall.
      unfold sio_members.
      destruct (jmap_get to (adapter st)) as [sids|] eqn:E; [|apply NoDup_nil_2].
      apply jmap_get_Some_elem in E.
      by apply (proj1 (Forall_forall _ _) Hall (to, sids)).
    - intros y. rewrite (Hok y to). unfold in_transport_room. rewrite Hnone, Hreg.
      split; [intros [[-> _]|?%elem_of_nil]; done | intros ->; by left]. }
  destruct m as [r|o t|a t|k t]; cbn [relayed] in Hrel; [done|..];
    injection Hrel as ? ?; subst; cbn [step dispatch];
    unfold handleOffer, handleAnswer, handleIceCandidate, emit;
    cbn [resolve snd]; rewrite Hto; by rewrite deliveries_one.
Qed.

(** X4.  In a reachable state, an offer, answer or ice-candidate whose
    target is a registered connection, with no room named by the target's
    id, is delivered once, to the target and to nobody else, with the
    sender's id as from, whether or not sender and target share a room;
    the gateway's state is unchanged. *)
Theorem relay_private (evs : list Event) (client : string) (m : ClientMsg)
    (to : string) (msg : ServerMsg) :
  relayed client m = Some (to, msg) →
  registered to (run init evs) = true →
  members to (run init evs) = [] →
  step (run init evs) (Message client m)
  = (run init evs,
     [{| sent_to := ToRoom to; sent_msg := msg; sent_recipients := [to] |}])
  ∧ deliveries (step (run init evs) (Message client m)).2 = [(to, msg)].
Proof. apply relay_one. Qed.

(** [relay_private] between two connections that share no room. *)
Lemma relay_private_witness :
  let offer := {| sdp_type := SdpOffer; sdp := "v=0" |} in
  deliveries (step (run init [Connect "A"; Connect "B"])
                (Message "A" (Offer offer "B"))).2
  = [("B", OfferFrom offer "A")].
Proof.
  intros offer.
  apply (relay_private [Connect "A"; Connect "B"] "A" (Offer offer "B") "B"
           (OfferFrom offer "A")); reflexivity.
Defined.

End GatewayFacts.

(** ** The peer negotiation orchestrator *)

Module OrchestratorFacts.
Import Orchestrator JsFacts.

(** *** Sessions *)

Lemma applied_log call c :
  applied (log call c)
  = applied c ++ match call with AddIceCandidate k => [k] | _ => [] end.
Proof.
  unfold applied, log. cbn [calls]. rewrite omap_app.
  destruct call; cbn; by rewrite ?app_nil_r.
Qed.

Lemma applied_with_signaling st c : applied (with_signaling st c) = applied c.
Proof. done. Qed.

Lemma applied_with_senders sd c : applied (with_senders sd c) = applied c.
Proof. done. Qed.

Lemma applied_flush ks c :
  applied (foldl (λ c k, rtc_addIceCandidate k c) c ks) = applied c ++ ks.
Proof.
  revert c. induction ks as [|k ks IH]; intros c; cbn [foldl].
  - by rewrite app_nil_r.
  - rewrite IH. unfold rtc_addIceCandidate. rewrite applied_log.
    by rewrite <- app_assoc.
Qed.

Lemma applied_setRemote d ok c :
  applied (rtc_setRemoteDescription d ok c) = applied c.
Proof.
  unfold rtc_setRemoteDescription. destruct ok; cbn zeta;
    rewrite ?applied_with_signaling, applied_log; apply app_nil_r.
Qed.

Lemma applied_setLocal d ok c :
  applied (rtc_setLocalDescription d ok c) = applied c.
Proof.
  unfold rtc_setLocalDescription. destruct ok; cbn zeta;
    rewrite ?applied_with_signaling, applied_log; apply app_nil_r.
Qed.

Lemma applied_addTracks tracks c :
  applied (foldl (λ c track, if enabled track then rtc_addTrack track c else c)
             c tracks) = applied c.
Proof.
  revert c. induction tracks as [|t tracks IH]; intros c; cbn [foldl]; [done|].
  rewrite IH. destruct (enabled t); [|done].
  unfold rtc_addTrack. rewrite applied_with_senders, applied_log. apply app_nil_r.
Qed.

(** *** Messages from a sender without PeerLink *)

(** C10.  An answer or an ICE candidate whose sender has no PeerLink in
    the orchestrator's map changes nothing: the state after the handler is
    the state before it (no PeerLink created, nothing buffered), nothing is
    emitted, and whatever happens afterwards happens as if the message had
    never arrived, so the candidate is never applied later. *)
Theorem unknown_sender_ignored (s : State) (from : string) :
  jmap_get from (peersRef s) = None →
  (∀ b answer, handleAnswer b answer from s = (s, []))
  ∧ (∀ candidate, handleIceCandidate candidate from s = (s, []))
  ∧ (∀ b answer evs, run s (OnAnswer b answer from :: evs) = run s evs)
  ∧ (∀ candidate evs, run s (OnIceCandidate candidate from :: evs) = run s evs).
Proof.
  intros Hnone.
  assert (∀ b answer, handleAnswer b answer from s = (s, [])) as Ha
    by (intros; unfold handleAnswer; by rewrite Hnone).
  assert (∀ candidate, handleIceCandidate candidate from s = (s, [])) as Hi
    by (intros; unfold handleIceCandidate; by rewrite Hnone).
  split_and!; try done.
  - intros b answer evs. cbn [run step]. rewrite Ha. by destruct (run s evs).
  - intros candidate evs. cbn [run step]. rewrite Hi. by destruct (run s evs).
Qed.

(** [unknown_sender_ignored] before any PeerLink exists. *)
Lemma unknown_sender_ignored_witness :
  handleIceCandidate "candidate:1" "u" (init (Some camera)) = (init (Some camera), []).
Proof.
  apply (proj1 (proj2 (unknown_sender_ignored (init (Some camera)) "u" eq_refl))).
Defined.

(** Reduce the projections of a state built by the setters and by
    [on_conn] / [on_peer]. *)
Ltac orch_cbn :=
  cbn [fst snd on_conn on_peer set_heap set_conns set_peers set_peersRef
       set_localStream set_isConnected set_isAudioEnabled set_isVideoEnabled
       set_hasJoinedRoom set_connectionError set_socketSet
       pc_close pc_setRemoteDescription pc_setLocalDescription
       pc_addIceCandidate pc_restartIce
       peersRef peers heap conns localStream socketSet isConnected
       isAudioEnabled isVideoEnabled hasJoinedRoom connectionError] in *.

(** *** Buffering of ICE candidates *)

Lemma calls_setRemote d ok c :
  calls (rtc_setRemoteDescription d ok c) = calls c ++ [SetRemoteDescription d].
Proof. by destruct ok. Qed.

Lemma calls_setLocal d ok c :
  calls (rtc_setLocalDescription d ok c) = calls c ++ [SetLocalDescription d].
Proof. by destruct ok. Qed.

Lemma calls_flush ks c :
  calls (foldl (λ c k, rtc_addIceCandidate k c) c ks)
  = calls c ++ map AddIceCandidate ks.
Proof.
  revert c. induction ks as [|k ks IH]; intros c; cbn [foldl map].
  - by rewrite app_nil_r.
  - rewrite IH. cbn [rtc_addIceCandidate log calls]. by rewrite <- app_assoc.
Qed.

(** A candidate for a stored PeerLink whose flag is false is queued. *)
Lemma candidate_queued k from s l p :
  jmap_get from (peersRef s) = Some l →
  heap s !! l = Some p →
  remoteDescriptionSet p = false →
  handleIceCandidate k from s = (on_peer l (push_candidate k) s, [])
  ∧ peerLink from (on_peer l (push_candidate k) s) = Some (push_candidate k p)
  ∧ session from (on_peer l (push_candidate k) s) = session from s.
Proof.
  intros Hl Hp Hflag. unfold handleIceCandidate, peerLink, session, peerLink.
  rewrite Hl, Hp, Hflag. cbn [negb peersRef on_peer set_heap heap conns mbind
    option_bind].
  rewrite Hl. cbn [mbind option_bind].
  rewrite list_lookup_alter_eq, Hp. done.
Qed.


Lemma candidates_queued ks from s l p :
  jmap_get from (peersRef s) = Some l →
  heap s !! l = Some p →
  remoteDescriptionSet p = false →
  ∃ p', peerLink from (run s (map (λ k, OnIceCandidate k from) ks)).1 = Some p'
        ∧ remoteDescriptionSet p' = false
        ∧ iceCandidates p' = iceCandidates p ++ ks
        ∧ session from (run s (map (λ k, OnIceCandidate k from) ks)).1
          = session from s
        ∧ (run s (map (λ k, OnIceCandidate k from) ks)).2 = [].
Proof.
  revert s p. induction ks as [|k ks IH]; intros s p Hl Hp Hflag.
  - exists p. unfold peerLink. cbn [run map fst snd]. rewrite Hl. cbn.
    by rewrite app_nil_r.
  - destruct (candidate_queued k from s l p Hl Hp Hflag) as (Hstep & Hp' & Hs').
    cbn [map run step]. rewrite Hstep.
    destruct (IH (on_peer l (push_candidate k) s) (push_candidate k p))
      as (p' & H1 & H2 & H3 & H4 & H5).
    + done.
    + cbn [on_peer set_heap heap]. by rewrite list_lookup_alter_eq, Hp.
    + done.
    + destruct (run (on_peer l (push_candidate k) s) _) as [s2 out].
      cbn [fst snd] in *. exists p'. split_and!; try done.
      * rewrite H3. cbn [push_candidate iceCandidates]. by rewrite <- app_assoc.
      * by rewrite H4.
Qed.

(** The session that [createPeerConnection] builds. *)
Lemma fresh_session_applied u stream :
  applied (match stream with
           | Some tracks =>
               foldl (λ c track, if enabled track then rtc_addTrack track c else c)
                 (new_conn u) tracks
           | None => new_conn u
           end) = [].
Proof. destruct stream as [tracks|]; [apply applied_addTracks | done]. Qed.

Lemma owner_addTracks tracks c :
  owner (foldl (λ c track, if enabled track then rtc_addTrack track c else c)
           c tracks) = owner c.
Proof.
  revert c. induction tracks as [|t tracks IH]; intros c; cbn [foldl]; [done|].
  rewrite IH. by destruct (enabled t).
Qed.

Lemma createPeerConnection_fresh u s :
  jmap_get u (peersRef s) = None →
  ∃ c0, applied c0 = [] ∧ owner c0 = u
        ∧ createPeerConnection u s
          = (length (conns s),
             set_peers (jmap_set u (length (heap s)) (peersRef s))
               (set_peersRef (jmap_set u (length (heap s)) (peersRef s))
                  (set_heap (heap s ++ [new_peer u (length (conns s))])
                     (set_conns (conns s ++ [c0]) s)))).
Proof.
  intros Hnone. unfold createPeerConnection. rewrite Hnone.
  eexists. split_and!; [apply fresh_session_applied | | reflexivity].
  destruct (localStream s) as [tracks|]; [|done]. by rewrite owner_addTracks.
Qed.

(** The [try] block of [handleOffer] when the description is accepted:
    the object at [l] is marked and its queue emptied, the queue goes to
    the session in order, and nothing else of the maps and of the other
    objects and sessions changes. *)
Lemma answerOffer_accepted b offer from l s peer c :
  heap s !! l = Some peer →
  conns s !! connection peer = Some c →
  setRemoteOk b = true →
  peersRef (answerOffer b offer from l s).1 = peersRef s
  ∧ heap (answerOffer b offer from l s).1 !! l = Some (flushed peer)
  ∧ (∀ l', l' ≠ l → heap (answerOffer b offer from l s).1 !! l' = heap s !! l')
  ∧ (∀ pc, pc ≠ connection peer →
       conns (answerOffer b offer from l s).1 !! pc = conns s !! pc)
  ∧ ∃ c', conns (answerOffer b offer from l s).1 !! connection peer = Some c'
          ∧ applied c' = applied c ++ iceCandidates peer
          ∧ SetRemoteDescription offer ∈ calls c'.
Proof.
  intros Hp Hc Hok. unfold answerOffer. rewrite Hp, Hok.
  unfold addBufferedIceCandidates. orch_cbn.
  rewrite list_lookup_alter_eq, Hp. cbn [fmap option_fmap option_map].
  cbn [mark_remote_set iceCandidates remoteDescriptionSet connection].
  rewrite andb_true_r.
  destruct (iceCandidates peer) as [|k ks] eqn:Hq.
  - (* nothing buffered *)
    rewrite bool_decide_eq_false_2 by (cbn; lia).
    destruct (created b) as [answer|]; [destruct (setLocalOk b)|]; orch_cbn;
      (split_and!;
       [ done
       | rewrite list_lookup_alter_eq, Hp; cbn [fmap option_fmap option_map];
         unfold flushed, mark_remote_set; by rewrite Hq
       | by intros l' Hl'; rewrite list_lookup_alter_ne
       | by intros pc Hpc; rewrite ?list_lookup_alter_ne
       | rewrite !list_lookup_alter_eq, Hc; cbn [fmap option_fmap option_map];
         eexists; split_and!; [done | |] ]);
      rewrite ?applied_setLocal, ?applied_log, ?applied_setRemote, ?app_nil_r;
      try done;
      rewrite ?calls_setLocal; unfold log; cbn [calls];
      rewrite ?calls_setRemote, ?elem_of_app, ?list_elem_of_singleton; tauto.
  - (* the queue is flushed *)
    rewrite bool_decide_eq_true_2 by (cbn; lia).
    destruct (created b) as [answer|]; [destruct (setLocalOk b)|]; orch_cbn;
      (split_and!;
       [ done
       | rewrite !list_lookup_alter_eq, Hp; cbn; done
       | by intros l' Hl'; rewrite !list_lookup_alter_ne
       | by intros pc Hpc; rewrite ?list_lookup_alter_ne
       | rewrite !list_lookup_alter_eq, Hc; cbn [fmap option_fmap option_map];
         eexists; split_and!; [done | |] ]);
      rewrite ?applied_setLocal, ?applied_log, ?applied_flush, ?applied_setRemote,
        ?app_nil_r; try done.
    all: rewrite ?calls_setLocal; unfold log; cbn [calls];
      rewrite calls_flush, calls_setRemote, !elem_of_app, list_elem_of_singleton;
      tauto.
Qed.

Lemma run_cons s ev evs :
  run s (ev :: evs)
  = ((run (step s ev).1 evs).1, (step s ev).2 ++ (run (step s ev).1 evs).2).
Proof.
  cbn [run]. destruct (step s ev) as [s1 out]. cbn [fst snd].
  by destruct (run s1 evs).
Qed.

(** An offer from a sender without stored PeerLink: the description is
    set on the new session, but the stored PeerLink is not the object that
    the handler marks. *)
Lemma offer_unknown_sender b offer from s :
  jmap_get from (peersRef s) = None →
  setRemoteOk b = true →
  ∃ c, jmap_get from (peersRef (handleOffer b offer from s).1)
       = Some (length (heap s))
       ∧ heap (handleOffer b offer from s).1 !! length (heap s)
         = Some (new_peer from (length (conns s)))
       ∧ conns (handleOffer b offer from s).1 !! length (conns s) = Some c
       ∧ SetRemoteDescription offer ∈ calls c
       ∧ applied c = [].
Proof.
  intros Hnone Hok. unfold handleOffer. rewrite Hnone.
  destruct (createPeerConnection_fresh from s Hnone) as (c0 & Hc0 & _ & ->).
  orch_cbn.
  set (np := new_peer from (length (conns s))).
  set (s1 := set_heap _ _).
  assert (heap s1 !! length (heap s ++ [np]) = Some np) as Hl
    by (unfold s1; orch_cbn; by apply list_lookup_middle).
  assert (conns s1 !! connection np = Some c0) as Hc
    by (unfold s1; orch_cbn; by apply list_lookup_middle).
  destruct (answerOffer_accepted b offer from _ s1 np c0 Hl Hc Hok)
    as (Hpr & _ & Hother & _ & c' & Hc' & Happ & Hin).
  exists c'. split_and!.
  - rewrite Hpr. unfold s1. orch_cbn. apply jmap_get_set_eq.
  - rewrite Hother by (rewrite length_app; cbn; lia).
    unfold s1. orch_cbn. apply lookup_app_l_Some. by apply list_lookup_middle.
  - exact Hc'.
  - exact Hin.
  - rewrite Happ, Hc0. done.
Qed.

(** C1.  When an offer arrives from a sender that has no stored PeerLink
    and the browser accepts it, the remote description is applied on the
    new session, but the stored PeerLink keeps its flag false: every
    candidate that arrives from that sender afterwards is appended to the
    queue, and none of them is applied. *)
Theorem unknown_offer_strands_candidates (s : State) (b : Browser)
    (offer : RTCSessionDescriptionInit) (from : string)
    (ks : list RTCIceCandidateInit) :
  jmap_get from (peersRef s) = None →
  setRemoteOk b = true →
  let s' := (run s (OnOffer b offer from :: map (λ k, OnIceCandidate k from) ks)).1 in
  ∃ p c, peerLink from s' = Some p
         ∧ session from s' = Some c
         ∧ SetRemoteDescription offer ∈ calls c
         ∧ remoteDescriptionSet p = false
         ∧ iceCandidates p = ks
         ∧ applied c = [].
Proof.
  intros Hnone Hok s'. unfold s'. rewrite run_cons. cbn [fst step].
  destruct (offer_unknown_sender b offer from s Hnone Hok)
    as (c & Hl & Hp & Hc & Hin & Happ).
  destruct (candidates_queued ks from _ _ _ Hl Hp eq_refl)
    as (p' & Hp' & Hflag & Hq & Hs & _).
  exists p', c. split_and!; try done.
  rewrite Hs. unfold session, peerLink. rewrite Hl. cbn [mbind option_bind].
  rewrite Hp. cbn [mbind option_bind new_peer connection]. exact Hc.
Qed.

(** The failing run: an offer from "u", whom the orchestrator has no
    PeerLink for, then a candidate from "u". *)
Lemma unknown_offer_strands_candidates_witness :
  let b := {| setRemoteOk := true;
              created := Some {| sdp_type := SdpAnswer; sdp := "v=0" |};
              setLocalOk := true |} in
  let offer := {| sdp_type := SdpOffer; sdp := "v=0" |} in
  let s' := (run (init (Some camera)) [OnOffer b offer "u"; OnIceCandidate "candidate:1" "u"]).1 in
  ∃ p c, peerLink "u" s' = Some p
         ∧ session "u" s' = Some c
         ∧ SetRemoteDescription offer ∈ calls c
         ∧ remoteDescriptionSet p = false
         ∧ iceCandidates p = ["candidate:1"]
         ∧ applied c = [].
Proof.
  intros b offer.
  apply (unknown_offer_strands_candidates (init (Some camera)) b offer "u" ["candidate:1"]);
    reflexivity.
Defined.



(** *** Restart on connectivity loss *)

Lemma answerOffer_sent b offer from l s m :
  m ∈ (answerOffer b offer from l s).2 → ∃ answer, m = Answer answer from.
Proof.
  unfold answerOffer. destruct (heap s !! l) as [p|]; [|by intros ?%elem_of_nil].
  destruct (setRemoteOk b); [|by intros ?%elem_of_nil].
  destruct (created b) as [answer|]; [destruct (setLocalOk b)|]; cbn [snd];
    try by intros ?%elem_of_nil.
  intros ->%list_elem_of_singleton. by eexists.
Qed.

(** Offers are created and sent by [handleRoomUsers] only. *)
Lemma offers_only_from_room_users s ev d to :
  Offer d to ∈ (step s ev).2 → ∃ browser users, ev = OnRoomUsers browser users.
Proof.
  destruct ev as [browser users|u|b offer from|b answer from|k from|u
                 |pc state|pc state|pc remoteStream| | |joined roomId|roomId|];
    cbn [step]; [by eexists; eexists|..]; intros Hin; exfalso; revert Hin.
  - unfold handleUserJoined. destruct (jmap_has _ _); by intros ?%elem_of_nil.
  - unfold handleOffer. destruct (jmap_get _ _) as [l|];
      [|destruct (createPeerConnection from s) as [pc s1]];
      by intros [answer [=]]%answerOffer_sent.
  - unfold handleAnswer. destruct (jmap_get _ _) as [l|]; [|by intros ?%elem_of_nil].
    destruct (heap s !! l); [|by intros ?%elem_of_nil].
    destruct (setRemoteOk b); by intros ?%elem_of_nil.
  - unfold handleIceCandidate.
    destruct (jmap_get _ _) as [l|]; [|by intros ?%elem_of_nil].
    destruct (heap s !! l); [|by intros ?%elem_of_nil].
    destruct (negb _); by intros ?%elem_of_nil.
  - unfold handleUserLeft. destruct (jmap_get _ _); by intros ?%elem_of_nil.
  - unfold onconnectionstatechange.
    destruct (conns s !! pc) as [this|]; [|by intros ?%elem_of_nil].
    destruct state; try by intros ?%elem_of_nil.
    all: destruct (jmap_get _ _) as [l|]; [|by intros ?%elem_of_nil].
    all: destruct (heap s !! l) as [p|]; [|by intros ?%elem_of_nil].
    all: destruct (conns s !! connection p); [|by intros ?%elem_of_nil].
    all: case_decide; by intros ?%elem_of_nil.
  - unfold oniceconnectionstatechange. destruct state; by intros ?%elem_of_nil.
  - unfold ontrack. destruct (conns s !! pc); [|by intros ?%elem_of_nil].
    destruct remoteStream; [|by intros ?%elem_of_nil].
    destruct (jmap_get _ _); by intros ?%elem_of_nil.
  - unfold toggleAudio. destruct (localStream s) as [tracks|];
      [|by intros ?%elem_of_nil].
    destruct (list_find _ tracks) as [[i t]|]; by intros ?%elem_of_nil.
  - unfold toggleVideo. destruct (localStream s) as [tracks|];
      [|by intros ?%elem_of_nil].
    destruct (list_find _ tracks) as [[i t]|]; by intros ?%elem_of_nil.
  - unfold handleConnect. destruct (_ && _); [|by intros ?%elem_of_nil].
    by intros [=]%list_elem_of_singleton.
  - unfold joinEffect. destruct (_ && _); [|by intros ?%elem_of_nil].
    by intros [=]%list_elem_of_singleton.
  - by intros ?%elem_of_nil.
Qed.




(** *** Reconnection *)

Lemma offerTo_frame b u pc s :
  peersRef (offerTo b u pc s).1 = peersRef s
  ∧ heap (offerTo b u pc s).1 = heap s
  ∧ (∀ i, i ≠ pc → conns (offerTo b u pc s).1 !! i = conns s !! i)
  ∧ (∀ m, m ∈ (offerTo b u pc s).2 → ∃ d, m = Offer d u).
Proof.
  unfold offerTo.
  destruct (created b) as [offer|]; [destruct (setLocalOk b)|]; orch_cbn;
    (split_and!; [done | done | by intros i Hi; rewrite ?list_lookup_alter_ne |]).
  - intros m ->%list_elem_of_singleton. by eexists.
  - by intros m ?%elem_of_nil.
  - by intros m ?%elem_of_nil.
Qed.

(** [handleRoomUsers] leaves the PeerLinks that are already stored alone. *)
Lemma room_users_keeps_link browser users s u l :
  jmap_get u (peersRef s) = Some l →
  jmap_get u (peersRef (handleRoomUsers browser users s).1) = Some l
  ∧ (∀ p, heap s !! l = Some p →
          heap (handleRoomUsers browser users s).1 !! l = Some p)
  ∧ (∀ i c, conns s !! i = Some c →
            conns (handleRoomUsers browser users s).1 !! i = Some c)
  ∧ (∀ d, Offer d u ∉ (handleRoomUsers browser users s).2).
Proof.
  revert s. induction users as [|v users IH]; intros s Hl; cbn [handleRoomUsers].
  - split_and!; try done. intros d. apply not_elem_of_nil.
  - unfold jmap_has. destruct (jmap_get v (peersRef s)) as [lv|] eqn:Hv; [by apply IH|].
    assert (v ≠ u) as Hvu by (intros ->; congruence).
    destruct (createPeerConnection_fresh v s Hv) as (c0 & _ & _ & ->).
    set (s1 := set_peers _ _).
    destruct (offerTo_frame (browser v) v (length (conns s)) s1)
      as (Hpr & Hhp & Hcs & Hout).
    destruct (offerTo (browser v) v (length (conns s)) s1) as [s2 out] eqn:E.
    cbn [fst snd] in *.
    destruct (IH s2) as (H1 & H2 & H3 & H4).
    { rewrite Hpr. unfold s1. orch_cbn. by rewrite jmap_get_set_ne. }
    destruct (handleRoomUsers browser users s2) as [s3 out'].
    cbn [fst snd] in *. split_and!.
    + done.
    + intros p Hp. apply H2. rewrite Hhp. unfold s1. orch_cbn.
      by apply lookup_app_l_Some.
    + intros i c Hc. apply H3. rewrite Hcs.
      * unfold s1. orch_cbn. by apply lookup_app_l_Some.
      * apply lookup_lt_Some in Hc. lia.
    + intros d [Hin|Hin]%elem_of_app; [|by apply (H4 d)].
      apply Hout in Hin as [d' [= _ ?]]. done.
Qed.




(** *** Well-formed states *)

Lemma sessions_of_ext hp hp' entries :
  Forall (λ e : string * nat, connection <$> hp' !! e.2 = connection <$> hp !! e.2)
    entries →
  sessions_of hp' entries = sessions_of hp entries.
Proof.
  unfold sessions_of. induction 1 as [|e entries He _ IH]; [done|].
  cbn [omap list_omap]. by rewrite He, IH.
Qed.

Lemma sessions_of_set hp entries u l p x :
  hp !! l = Some p →
  x ∈ sessions_of hp (jmap_set u l entries) →
  x = connection p ∨ x ∈ sessions_of hp entries.
Proof.
  intros Hp. unfold sessions_of.
  induction entries as [|[k v] entries IH]; cbn [jmap_set omap list_omap snd].
  - rewrite Hp. cbn. rewrite list_elem_of_singleton. auto.
  - destruct (decide (u = k)) as [->|Hne]; cbn [omap list_omap snd].
    + rewrite Hp. cbn [fmap option_fmap option_map]. rewrite elem_of_cons.
      intros [->|Hin]; [by left|]. right.
      destruct (connection <$> hp !! v); [by apply list_elem_of_further | done].
    + destruct (connection <$> hp !! v); [|done].
      rewrite !elem_of_cons. naive_solver.
Qed.

Lemma sessions_of_set_NoDup hp entries u l p :
  hp !! l = Some p →
  connection p ∉ sessions_of hp entries →
  NoDup (sessions_of hp entries) →
  NoDup (sessions_of hp (jmap_set u l entries)).
Proof.
  intros Hp. unfold sessions_of.
  induction entries as [|[k v] entries IH]; cbn [jmap_set omap list_omap snd].
  - intros _ _. rewrite Hp. cbn. apply NoDup_singleton.
  - destruct (decide (u = k)) as [->|Hne]; cbn [omap list_omap snd].
    + rewrite Hp. cbn [fmap option_fmap option_map].
      destruct (connection <$> hp !! v) as [y|].
      * rewrite not_elem_of_cons, !NoDup_cons. naive_solver.
      * rewrite !NoDup_cons. naive_solver.
    + destruct (connection <$> hp !! v) as [y|] eqn:Hy; [|done].
      rewrite not_elem_of_cons, !NoDup_cons. intros [Hpy Hnot] [Hy' Hnd].
      split; [|auto]. intros Hin.
      apply (sessions_of_set hp entries u l p y Hp) in Hin as [->|Hin]; done.
Qed.

Lemma sessions_of_delete hp entries u x :
  x ∈ sessions_of hp (jmap_delete u entries) → x ∈ sessions_of hp entries.
Proof.
  unfold sessions_of.
  induction entries as [|[k v] entries IH]; cbn [jmap_delete omap list_omap snd];
    [done|].
  destruct (decide (u = k)) as [->|Hne]; cbn [omap list_omap snd];
    destruct (connection <$> hp !! v); rewrite ?elem_of_cons; naive_solver.
Qed.

Lemma sessions_of_delete_NoDup hp entries u :
  NoDup (sessions_of hp entries) → NoDup (sessions_of hp (jmap_delete u entries)).
Proof.
  induction entries as [|[k v] entries IH]; [done|].
  pose proof (sessions_of_delete hp entries u) as Hsub. revert IH Hsub.
  unfold sessions_of. cbn [jmap_delete omap list_omap snd].
  destruct (decide (u = k)) as [->|Hne]; cbn [omap list_omap snd];
    destruct (connection <$> hp !! v); rewrite ?NoDup_cons; naive_solver.
Qed.

Lemma jmap_delete_Forall {V} (P : string * V → Prop) u (m : list (string * V)) :
  Forall P m → Forall P (jmap_delete u m).
Proof.
  induction 1 as [|[k v] m Hkv Hm IH]; cbn [jmap_delete]; [done|].
  destruct (decide (u = k)); [done | by constructor].
Qed.

Lemma same_links_refl s : same_links s s.
Proof. by repeat split. Qed.

Lemma same_links_trans s1 s2 s3 :
  same_links s1 s2 → same_links s2 s3 → same_links s1 s3.
Proof.
  intros (A1 & A2 & A3 & A4) (B1 & B2 & B3 & B4). split_and!; try lia.
  - congruence.
  - intros l Hl. rewrite B4 by lia. by apply A4.
Qed.

Lemma stored_sessions_links s s' :
  same_links s s' →
  Forall (λ e : string * nat, e.2 < length (heap s)) (peersRef s) →
  stored_sessions s' = stored_sessions s.
Proof.
  intros (Hpr & _ & _ & Hl) Hb. unfold stored_sessions. rewrite Hpr.
  apply sessions_of_ext. eapply Forall_impl; [exact Hb|].
  intros e He. by apply Hl.
Qed.

Lemma same_links_wf s s' : same_links s s' → wf s → wf s'.
Proof.
  intros Hlinks (W1 & W2 & W3). unfold wf.
  rewrite (stored_sessions_links s s' Hlinks W1).
  destruct Hlinks as (Hpr & Hh & Hc & _). rewrite Hpr. split_and!; [| |done].
  - eapply Forall_impl; [exact W1|]. intros e He. cbn beta in *. lia.
  - eapply Forall_impl; [exact W2|]. intros pc Hpc. cbn beta in *. lia.
Qed.

Lemma on_conn_links pc f s : same_links s (on_conn pc f s).
Proof.
  unfold same_links. orch_cbn. rewrite length_alter. by split_and!.
Qed.

Lemma on_peer_links l f s :
  (∀ p, connection (f p) = connection p) → same_links s (on_peer l f s).
Proof.
  intros Hf. unfold same_links. orch_cbn. rewrite length_alter.
  split_and!; try done. intros l' _. rewrite list_lookup_alter.
  case_decide as Hll; [|done]. subst l'. destruct (heap s !! l) as [p|]; [|done].
  cbn. by rewrite Hf.
Qed.

Lemma set_field_links s s' :
  peersRef s' = peersRef s → heap s' = heap s → conns s' = conns s →
  same_links s s'.
Proof. intros H1 H2 H3. unfold same_links. rewrite H1, H2, H3. by split_and!. Qed.

Lemma setter_links s :
  (∀ v, same_links s (set_localStream v s))
  ∧ (∀ v, same_links s (set_isConnected v s))
  ∧ (∀ v, same_links s (set_isAudioEnabled v s))
  ∧ (∀ v, same_links s (set_isVideoEnabled v s))
  ∧ (∀ v, same_links s (set_hasJoinedRoom v s))
  ∧ (∀ v, same_links s (set_connectionError v s))
  ∧ (∀ v, same_links s (set_peers v s)).
Proof. split_and!; intros v; by apply set_field_links. Qed.

(** Peel the outermost operation of the state in a [same_links] goal. *)
Ltac links :=
  repeat first
    [ apply same_links_refl
    | eapply same_links_trans; [|apply on_conn_links]
    | eapply same_links_trans; [|by apply on_peer_links]
    | eapply same_links_trans; [|apply setter_links] ].

Lemma addBuffered_links l s : same_links s (addBufferedIceCandidates l s).
Proof.
  unfold addBufferedIceCandidates. destruct (heap s !! l) as [p|]; [|links].
  destruct (_ && _); links.
Qed.

Lemma answerOffer_links b offer from l s :
  same_links s (answerOffer b offer from l s).1.
Proof.
  unfold answerOffer. destruct (heap s !! l) as [p|]; [|links].
  destruct (setRemoteOk b);
    [|unfold pc_setRemoteDescription; cbn [fst]; links].
  assert (same_links s
    (on_conn (connection p) (log CreateAnswer)
       (addBufferedIceCandidates l
          (on_peer l mark_remote_set
             (pc_setRemoteDescription (connection p) offer true s))))) as H.
  { eapply same_links_trans; [|apply on_conn_links].
    eapply same_links_trans; [|apply addBuffered_links].
    unfold pc_setRemoteDescription. links. }
  destruct (created b) as [answer|]; [destruct (setLocalOk b)|]; cbn [fst];
    unfold pc_setLocalDescription;
    try (eapply same_links_trans; [exact H | apply on_conn_links]); exact H.
Qed.

Lemma handleAnswer_links b answer from s :
  same_links s (handleAnswer b answer from s).1.
Proof.
  unfold handleAnswer. destruct (jmap_get from (peersRef s)) as [l|]; [|links].
  destruct (heap s !! l) as [p|]; [|links].
  destruct (setRemoteOk b); cbn [fst]; unfold pc_setRemoteDescription; [|links].
  eapply same_links_trans; [|apply addBuffered_links]. links.
Qed.

Lemma handleIceCandidate_links k from s :
  same_links s (handleIceCandidate k from s).1.
Proof.
  unfold handleIceCandidate. destruct (jmap_get from (peersRef s)) as [l|]; [|links].
  destruct (heap s !! l) as [p|]; [|links].
  destruct (negb _); cbn [fst]; unfold pc_addIceCandidate; links.
Qed.

Lemma replace_fold_links k t (entries : list (string * nat)) s :
  same_links s (foldl (λ acc e, replaceIn k t e.2 acc) s entries).
Proof.
  revert s. induction entries as [|e entries IH]; intros s; cbn [foldl]; [links|].
  eapply same_links_trans; [|apply IH].
  unfold replaceIn. destruct (heap s !! e.2); links.
Qed.

Lemma close_fold_links (entries : list (string * nat)) s :
  same_links s
    (foldl (λ acc e,
       match heap acc !! e.2 with
       | Some peer => pc_close (connection peer) acc
       | None => acc
       end) s entries).
Proof.
  revert s. induction entries as [|e entries IH]; intros s; cbn [foldl]; [links|].
  eapply same_links_trans; [|apply IH].
  destruct (heap s !! e.2); unfold pc_close; links.
Qed.

(** The state after [createPeerConnection]. *)
Lemma createPeerConnection_eq u s :
  ∃ C c0, length C = length (conns s)
    ∧ createPeerConnection u s
      = (length (conns s),
         set_peers (jmap_set u (length (heap s)) (peersRef s))
           (set_peersRef (jmap_set u (length (heap s)) (peersRef s))
              (set_heap (heap s ++ [new_peer u (length (conns s))])
                 (set_conns (C ++ [c0]) s)))).
Proof.
  unfold createPeerConnection.
  destruct (jmap_get u (peersRef s)) as [l|]; [destruct (heap s !! l) as [p|]|].
  - exists (alter rtc_close (connection p) (conns s)). eexists.
    split; [apply length_alter|]. unfold pc_close. orch_cbn.
    by rewrite length_alter.
  - by exists (conns s); eexists.
  - by exists (conns s); eexists.
Qed.

Lemma createPeerConnection_wf u s : wf s → wf (createPeerConnection u s).2.
Proof.
  intros (W1 & W2 & W3).
  destruct (createPeerConnection_eq u s) as (C & c0 & HC & ->).
  unfold wf, stored_sessions in *. orch_cbn.
  set (np := new_peer u (length (conns s))).
  assert ((heap s ++ [np]) !! length (heap s) = Some np) as Hnp
    by by apply list_lookup_middle.
  assert (sessions_of (heap s ++ [np]) (peersRef s) = sessions_of (heap s) (peersRef s))
    as Hsame.
  { apply sessions_of_ext. eapply Forall_impl; [exact W1|].
    intros e He. cbn beta in He. by rewrite lookup_app_l. }
  assert (connection np ∉ sessions_of (heap s ++ [np]) (peersRef s)) as Hfresh.
  { rewrite Hsame. intros Hin.
    apply (proj1 (Forall_forall _ _) W2) in Hin. cbn in Hin. lia. }
  rewrite !length_app. cbn [length]. split_and!.
  - apply Forall_forall. intros e [->|He]%jmap_set_elem; cbn [snd]; [lia|].
    apply (proj1 (Forall_forall _ _) W1) in He. lia.
  - apply Forall_forall. intros x Hx.
    apply (sessions_of_set _ _ _ _ np x Hnp) in Hx as [->|Hx]; [cbn; lia|].
    rewrite Hsame in Hx. apply (proj1 (Forall_forall _ _) W2) in Hx. lia.
  - apply (sessions_of_set_NoDup _ _ _ _ np Hnp Hfresh). by rewrite Hsame.
Qed.

Lemma delete_wf u s s' :
  peersRef s' = jmap_delete u (peersRef s) →
  heap s' = heap s → conns s' = conns s →
  wf s → wf s'.
Proof.
  intros Hpr Hh Hc (W1 & W2 & W3). unfold wf, stored_sessions in *.
  rewrite Hpr, Hh, Hc. split_and!.
  - by apply jmap_delete_Forall.
  - apply Forall_forall. intros x Hx%sessions_of_delete.
    by apply (proj1 (Forall_forall _ _) W2).
  - by apply sessions_of_delete_NoDup.
Qed.

Lemma handleRoomUsers_wf browser users s :
  wf s → wf (handleRoomUsers browser users s).1.
Proof.
  revert s. induction users as [|v users IH]; intros s Hwf; cbn [handleRoomUsers];
    [done|].
  destruct (jmap_has v (peersRef s)); [by apply IH|].
  pose proof (createPeerConnection_wf v s Hwf) as Hwf1.
  destruct (createPeerConnection v s) as [pc s1]. cbn [snd] in Hwf1.
  assert (wf (offerTo (browser v) v pc s1).1) as Hwf2.
  { apply (same_links_wf s1); [|done]. unfold offerTo.
    destruct (created (browser v)) as [offer|];
      [destruct (setLocalOk (browser v))|]; cbn [fst];
      unfold pc_setLocalDescription; links. }
  destruct (offerTo (browser v) v pc s1) as [s2 out]. cbn [fst] in Hwf2.
  specialize (IH s2 Hwf2).
  by destruct (handleRoomUsers browser users s2) as [s3 out'].
Qed.

Lemma handleOffer_wf b offer from s : wf s → wf (handleOffer b offer from s).1.
Proof.
  intros Hwf. unfold handleOffer.
  destruct (jmap_get from (peersRef s)) as [l|].
  - apply (same_links_wf s); [apply answerOffer_links | done].
  - pose proof (createPeerConnection_wf from s Hwf) as Hwf1.
    destruct (createPeerConnection from s) as [pc s1]. cbn [snd] in Hwf1.
    eapply same_links_wf; [|exact Hwf1].
    eapply same_links_trans; [|apply answerOffer_links].
    unfold same_links. orch_cbn. rewrite length_app.
    split_and!; try done; [lia|]. intros l Hl. by rewrite lookup_app_l.
Qed.

Lemma step_preserves_wf s ev : wf s → wf (step s ev).1.
Proof.
  intros Hwf.
  destruct ev as [browser users|u|b offer from|b answer from|k from|u
                 |pc state|pc state|pc remoteStream| | |joined roomId|roomId|];
    cbn [step].
  - by apply handleRoomUsers_wf.
  - unfold handleUserJoined. destruct (jmap_has u (peersRef s)); [done|].
    by apply createPeerConnection_wf.
  - by apply handleOffer_wf.
  - apply (same_links_wf s); [apply handleAnswer_links | done].
  - apply (same_links_wf s); [apply handleIceCandidate_links | done].
  - unfold handleUserLeft. destruct (jmap_get u (peersRef s)) as [l|]; [|done].
    cbn [fst]. eapply (delete_wf u); [reflexivity..|].
    apply (same_links_wf s); [|done].
    destruct (heap s !! l); unfold pc_close; links.
  - unfold onconnectionstatechange. destruct (conns s !! pc) as [this|]; [|done].
    destruct state; try done.
    + destruct (jmap_get _ (peersRef s)) as [l|]; [|done].
      destruct (heap s !! l) as [p|]; [|done].
      destruct (conns s !! connection p) as [c|]; [|done].
      case_decide; [|done]. cbn [fst].
      apply (same_links_wf s); [unfold pc_restartIce; links | done].
    + destruct (jmap_get _ (peersRef s)) as [l|]; [|done].
      destruct (heap s !! l) as [p|]; [|done].
      destruct (conns s !! connection p) as [c|]; [|done].
      case_decide; [|done]. cbn [fst].
      apply (same_links_wf s); [unfold pc_restartIce; links | done].
    + cbn [fst]. by eapply (delete_wf (owner this) s).
  - unfold oniceconnectionstatechange.
    destruct state; try done. cbn [fst].
    apply (same_links_wf s); [unfold pc_restartIce; links | done].
  - unfold ontrack. destruct (conns s !! pc) as [this|]; [|done].
    destruct remoteStream as [rs|]; [|done].
    destruct (jmap_get _ (peers s)) as [l|]; [|done]. cbn [fst].
    apply (same_links_wf s); [links | done].
  - unfold toggleAudio. destruct (localStream s) as [tracks|]; [|done].
    destruct (list_find _ tracks) as [[i t]|]; [|done]. cbn [fst].
    apply (same_links_wf s); [|done].
    eapply same_links_trans; [|apply replace_fold_links]. links.
  - unfold toggleVideo. destruct (localStream s) as [tracks|]; [|done].
    destruct (list_find _ tracks) as [[i t]|]; [|done]. cbn [fst].
    apply (same_links_wf s); [|done].
    eapply same_links_trans; [|apply replace_fold_links]. links.
  - unfold handleConnect. destruct (_ && _); cbn [fst];
      (apply (same_links_wf s); [links | done]).
  - unfold joinEffect. destruct (_ && _); cbn [fst]; [|done].
    apply (same_links_wf s); [links | done].
  - cbn [fst]. unfold cleanup, wf, stored_sessions, sessions_of. orch_cbn.
    split_and!; constructor.
Qed.



(** *** Track toggling *)

Lemma replaceIn_frame k t l s :
  same_but_conns s (replaceIn k t l s)
  ∧ ∀ pc, conns (replaceIn k t l s) !! pc
          = if decide (Some pc = connection <$> heap s !! l)
            then substitute k t <$> conns s !! pc
            else conns s !! pc.
Proof.
  unfold replaceIn, same_but_conns. destruct (heap s !! l) as [peer|]; orch_cbn.
  - split_and!; try done; [apply length_alter|].
    intros pc. cbn [fmap option_fmap option_map].
    destruct (decide (Some pc = Some (connection peer))) as [[= ->]|Hne].
    + apply list_lookup_alter_eq.
    + apply list_lookup_alter_ne. congruence.
  - split_and!; done.
Qed.

(** The loop of the toggles over the entries of [peersRef.current]. *)
Lemma replace_fold_frame k t (entries : list (string * nat)) s :
  let s' := foldl (λ acc e, replaceIn k t e.2 acc) s entries in
  same_but_conns s s'
  ∧ (NoDup (sessions_of (heap s) entries) →
     ∀ pc, conns s' !! pc
           = if decide (pc ∈ sessions_of (heap s) entries)
             then substitute k t <$> conns s !! pc
             else conns s !! pc).
Proof.
  revert s. induction entries as [|e entries IH]; intros s; cbn [foldl].
  - unfold same_but_conns. split_and!; done.
  - destruct (replaceIn_frame k t e.2 s) as (E & E8).
    destruct (IH (replaceIn k t e.2 s)) as (F & F8).
    cbv zeta in *. split.
    + unfold same_but_conns in *. destruct_and!. split_and!; congruence.
    + assert (heap (replaceIn k t e.2 s) = heap s) as E3
        by (unfold same_but_conns in E; tauto).
      intros Hnd pc. rewrite E3 in F8. unfold sessions_of in *.
      cbn [omap list_omap] in Hnd |- *.
      destruct (heap s !! e.2) as [peer|] eqn:Hp;
        cbn [fmap option_fmap option_map] in *.
      * apply NoDup_cons in Hnd as [Hhead Hnd]. rewrite (F8 Hnd pc), E8.
        destruct (decide (Some pc = Some (connection peer))) as [[= ->]|Hne].
        -- rewrite decide_False by done.
           rewrite decide_True; [done | apply list_elem_of_here].
        -- destruct (decide (pc ∈ omap _ entries)) as [Hin|Hin].
           ++ rewrite decide_True; [done | by apply list_elem_of_further].
           ++ rewrite decide_False; [done|].
              rewrite not_elem_of_cons. split; [congruence | done].
      * rewrite (F8 Hnd pc), E8.
        by destruct (decide (Some pc = None)) as [[=]|_].
Qed.

Lemma substitute_frame k t c :
  signalingState (substitute k t c) = signalingState c
  ∧ owner (substitute k t c) = owner c
  ∧ applied (substitute k t c) = applied c
  ∧ ∃ added, calls (substitute k t c) = calls c ++ added
             ∧ Forall is_ReplaceTrack added.
Proof.
  unfold substitute. destruct (list_find _ (senders c)) as [[i sd]|].
  - split_and!; try done.
    + rewrite applied_with_senders, applied_log. apply app_nil_r.
    + eexists. split; [reflexivity|]. by repeat constructor.
  - split_and!; try done. exists []. by rewrite app_nil_r.
Qed.

Lemma toggle_generic k s tracks i t (set_flag : bool → State → State) :
  localStream s = Some tracks →
  list_find (λ t, kind t = k) tracks = Some (i, t) →
  (∀ v x, peersRef (set_flag v x) = peersRef x ∧ peers (set_flag v x) = peers x
          ∧ heap (set_flag v x) = heap x ∧ conns (set_flag v x) = conns x
          ∧ localStream (set_flag v x) = localStream x
          ∧ socketSet (set_flag v x) = socketSet x
          ∧ hasJoinedRoom (set_flag v x) = hasJoinedRoom x
          ∧ isConnected (set_flag v x) = isConnected x
          ∧ connectionError (set_flag v x) = connectionError x
          ∧ other_flag k (set_flag v x) = other_flag k x) →
  distinct_sessions s →
  toggle_frame k s
    (foldl (λ acc e, replaceIn k (flip t) e.2 acc)
       (set_flag (enabled (flip t))
          (set_localStream (Some (<[i := flip t]> tracks)) s))
       (peersRef (set_flag (enabled (flip t))
          (set_localStream (Some (<[i := flip t]> tracks)) s))),
     []).
Proof.
  intros Hls Hfind Hflag Hnd.
  set (s2 := set_flag _ _).
  destruct (Hflag (enabled (flip t))
              (set_localStream (Some (<[i := flip t]> tracks)) s))
    as (G1 & G2 & G3 & G4 & G5 & G6 & G7 & G8 & G9 & G10).
  fold s2 in G1, G2, G3, G4, G5, G6, G7, G8, G9, G10. orch_cbn.
  destruct (replace_fold_frame k (flip t) (peersRef s2) s2) as (F & F8).
  cbv zeta in *. unfold same_but_conns in F.
  destruct F as (F1 & F2 & F3 & F4 & F5 & F6 & F7a & F7v & F9 & F10 & F11).
  unfold toggle_frame, stored_sessions. cbn [fst snd].
  split_and!; try congruence.
  - transitivity (other_flag k s2); [|by rewrite G10].
    unfold other_flag. by destruct k.
  - intros j t' Hj Hk. rewrite F4, G5, Hls in *. cbn [mbind option_bind] in *.
    apply list_find_Some in Hfind as (Hi & Hkind & _).
    rewrite list_lookup_insert_ne; [done|]. intros ->. congruence.
  - intros pc c Hc. rewrite F8.
    + rewrite G1, G3, G4, Hc. unfold substitution, toggled.
      rewrite Hls. cbn [mbind option_bind]. rewrite Hfind.
      cbn [fmap option_fmap option_map snd]. by case_decide.
    + rewrite G1, G3. exact Hnd.
Qed.

Lemma toggle_frames (s : State) :
  distinct_sessions s →
  toggle_frame Audio s (toggleAudio s) ∧ toggle_frame Video s (toggleVideo s).
Proof.
  intros Hnd.
  assert (∀ k, toggled k s = None → toggle_frame k s (s, [])) as Hidle.
  { intros k Hk. unfold toggle_frame, substitution. rewrite Hk. cbn [fst snd id].
    split_and!; try done. intros pc c ->. by case_decide. }
  split.
  - unfold toggleAudio. destruct (localStream s) as [tracks|] eqn:Hls;
      [|by apply Hidle; unfold toggled; rewrite Hls].
    destruct (list_find _ tracks) as [[i t]|] eqn:Hfind;
      [|by apply Hidle; unfold toggled; rewrite Hls; cbn; rewrite Hfind].
    by apply (toggle_generic Audio s tracks i t set_isAudioEnabled).
  - unfold toggleVideo. destruct (localStream s) as [tracks|] eqn:Hls;
      [|by apply Hidle; unfold toggled; rewrite Hls].
    destruct (list_find _ tracks) as [[i t]|] eqn:Hfind;
      [|by apply Hidle; unfold toggled; rewrite Hls; cbn; rewrite Hfind].
    by apply (toggle_generic Video s tracks i t set_isVideoEnabled).
Qed.


(** *** The queue of a stored PeerLink *)


Lemma stored_link u s p c :
  peerLink u s = Some p → session u s = Some c →
  ∃ l, jmap_get u (peersRef s) = Some l ∧ heap s !! l = Some p
       ∧ conns s !! connection p = Some c.
Proof.
  unfold session, peerLink. destruct (jmap_get u (peersRef s)) as [l|]; [|done].
  cbn [mbind option_bind]. intros Hp. rewrite Hp. cbn [mbind option_bind]. eauto.
Qed.

Lemma link_stored u s l p c :
  jmap_get u (peersRef s) = Some l → heap s !! l = Some p →
  conns s !! connection p = Some c →
  peerLink u s = Some p ∧ session u s = Some c.
Proof.
  intros Hl Hp Hc. unfold session, peerLink. rewrite Hl. cbn [mbind option_bind].
  by rewrite Hp.
Qed.




(** X6.  When the browser rejects the remote description of an offer or
    of an answer from a user with a stored PeerLink, the handler stops
    there: nothing is emitted, the maps and every [PeerConnection] record
    are as before (the flag is not set and the queue is kept), and the
    only trace is the rejected call on the session of that PeerLink. *)
Theorem rejected_description_keeps_queue (s : State) (from : string)
    (p : PeerConnection) (c : RTCPeerConnection) (b : Browser)
    (d : RTCSessionDescriptionInit) (res : State * list ClientMsg) :
  peerLink from s = Some p →
  session from s = Some c →
  setRemoteOk b = false →
  res = handleOffer b d from s ∨ res = handleAnswer b d from s →
  res.2 = []
  ∧ peersRef res.1 = peersRef s ∧ peers res.1 = peers s ∧ heap res.1 = heap s
  ∧ peerLink from res.1 = Some p
  ∧ session from res.1 = Some (log (SetRemoteDescription d) c)
  ∧ (∀ i, i ≠ connection p → conns res.1 !! i = conns s !! i).
Proof.
  intros Hp Hc Hok Hres.
  destruct (stored_link from s p c Hp Hc) as (l & Hl & Hhp & Hcs).
  assert (res = (pc_setRemoteDescription (connection p) d false s, [])) as ->.
  { destruct Hres as [-> | ->].
    - unfold handleOffer, answerOffer. by rewrite Hl, Hhp, Hok.
    - unfold handleAnswer. by rewrite Hl, Hhp, Hok. }
  unfold session, peerLink. orch_cbn. rewrite Hl. cbn [mbind option_bind].
  rewrite Hhp. cbn [mbind option_bind]. rewrite list_lookup_alter_eq, Hcs.
  split_and!; try done. intros i Hi. by rewrite list_lookup_alter_ne.
Qed.

(** [rejected_description_keeps_queue] for an answer that is rejected
    after a candidate was queued. *)
Lemma rejected_description_keeps_queue_witness :
  let b := {| setRemoteOk := false; created := None; setLocalOk := false |} in
  let d := {| sdp_type := SdpAnswer; sdp := "v=0" |} in
  let s := (run (init (Some camera))
              [OnUserJoined "u"; OnIceCandidate "candidate:1" "u"]).1 in
  peerLink "u" (handleAnswer b d "u" s).1
  = Some (push_candidate "candidate:1" (new_peer "u" 0)).
Proof.
  intros b d s.
  apply (rejected_description_keeps_queue s "u"
           (push_candidate "candidate:1" (new_peer "u" 0))
           (foldl (λ c track, if enabled track then rtc_addTrack track c else c)
              (new_conn "u") camera)
           b d (handleAnswer b d "u" s) eq_refl eq_refl eq_refl (or_intror eq_refl)).
Defined.

(** *** The maps of the reachable states *)

(** Split a handler into its branches and compare the fields. *)
Ltac frame :=
  repeat case_match; unfold same_ui; orch_cbn; by repeat split.

Lemma addBuffered_frame l s :
  peers (addBufferedIceCandidates l s) = peers s
  ∧ same_ui s (addBufferedIceCandidates l s).
Proof. unfold addBufferedIceCandidates. frame. Qed.

Lemma answerOffer_frame b offer from l s :
  peers (answerOffer b offer from l s).1 = peers s
  ∧ same_ui s (answerOffer b offer from l s).1.
Proof. unfold answerOffer, addBufferedIceCandidates. frame. Qed.

Lemma handleAnswer_frame b answer from s :
  peers (handleAnswer b answer from s).1 = peers s
  ∧ same_ui s (handleAnswer b answer from s).1.
Proof. unfold handleAnswer, addBufferedIceCandidates. frame. Qed.

Lemma handleIceCandidate_frame k from s :
  peers (handleIceCandidate k from s).1 = peers s
  ∧ same_ui s (handleIceCandidate k from s).1.
Proof. unfold handleIceCandidate. frame. Qed.

Lemma offerTo_ui b u pc s :
  peers (offerTo b u pc s).1 = peers s ∧ same_ui s (offerTo b u pc s).1.
Proof. unfold offerTo. frame. Qed.

Lemma same_ui_refl s : same_ui s s.
Proof. by repeat split. Qed.

Lemma same_ui_trans s1 s2 s3 : same_ui s1 s2 → same_ui s2 s3 → same_ui s1 s3.
Proof. unfold same_ui. intros ? ?. destruct_and!. split_and!; congruence. Qed.

Lemma createPeerConnection_ui u s : same_ui s (createPeerConnection u s).2.
Proof. destruct (createPeerConnection_eq u s) as (C & c0 & _ & ->). by repeat split. Qed.

Lemma handleRoomUsers_ui browser users s :
  same_ui s (handleRoomUsers browser users s).1.
Proof.
  revert s. induction users as [|v users IH]; intros s; cbn [handleRoomUsers];
    [apply same_ui_refl|].
  destruct (jmap_has v (peersRef s)); [apply IH|].
  pose proof (createPeerConnection_ui v s) as H1.
  destruct (createPeerConnection v s) as [pc s1]. cbn [snd] in H1.
  destruct (offerTo_ui (browser v) v pc s1) as [_ H2].
  destruct (offerTo (browser v) v pc s1) as [s2 out]. cbn [fst] in H2.
  specialize (IH s2). destruct (handleRoomUsers browser users s2) as [s3 out'].
  cbn [fst] in *. eauto using same_ui_trans.
Qed.

Lemma handleOffer_ui b offer from s : same_ui s (handleOffer b offer from s).1.
Proof.
  unfold handleOffer. destruct (jmap_get from (peersRef s)) as [l|].
  - apply answerOffer_frame.
  - pose proof (createPeerConnection_ui from s) as H1.
    destruct (createPeerConnection from s) as [pc s1]. cbn [snd] in H1.
    eapply same_ui_trans; [|apply answerOffer_frame].
    eapply same_ui_trans; [exact H1|]. by repeat split.
Qed.

Lemma same_links_consistent s s' :
  same_links s s' → peers s' = peers s → consistent s → consistent s'.
Proof.
  intros Hl Hp (Hwf & Hnd & Heq). split_and!.
  - by apply (same_links_wf s).
  - destruct Hl as (-> & _). done.
  - destruct Hl as (-> & _). congruence.
Qed.

Lemma createPeerConnection_consistent u s :
  consistent s → consistent (createPeerConnection u s).2.
Proof.
  intros (Hwf & Hnd & Heq). split_and!.
  - by apply createPeerConnection_wf.
  - destruct (createPeerConnection_eq u s) as (C & c0 & _ & ->). orch_cbn.
    by apply jmap_set_NoDup.
  - by destruct (createPeerConnection_eq u s) as (C & c0 & _ & ->).
Qed.

Lemma delete_consistent u s s' :
  peersRef s' = jmap_delete u (peersRef s) →
  peers s' = jmap_delete u (peers s) →
  heap s' = heap s → conns s' = conns s →
  consistent s → consistent s'.
Proof.
  intros Hpr Hp Hh Hc (Hwf & Hnd & Heq). split_and!.
  - by apply (delete_wf u s).
  - rewrite Hpr. by apply jmap_delete_NoDup.
  - congruence.
Qed.

Lemma handleRoomUsers_consistent browser users s :
  consistent s → consistent (handleRoomUsers browser users s).1.
Proof.
  revert s. induction users as [|v users IH]; intros s Hs; cbn [handleRoomUsers];
    [done|].
  destruct (jmap_has v (peersRef s)); [by apply IH|].
  pose proof (createPeerConnection_consistent v s Hs) as H1.
  destruct (createPeerConnection v s) as [pc s1]. cbn [snd] in H1.
  assert (consistent (offerTo (browser v) v pc s1).1) as H2.
  { apply (same_links_consistent s1); [| apply offerTo_ui | done]. unfold offerTo.
    destruct (created (browser v)) as [offer|];
      [destruct (setLocalOk (browser v))|]; cbn [fst];
      unfold pc_setLocalDescription; links. }
  destruct (offerTo (browser v) v pc s1) as [s2 out]. cbn [fst] in H2.
  specialize (IH s2 H2).
  by destruct (handleRoomUsers browser users s2) as [s3 out'].
Qed.

Lemma handleOffer_consistent b offer from s :
  consistent s → consistent (handleOffer b offer from s).1.
Proof.
  intros Hs. unfold handleOffer.
  destruct (jmap_get from (peersRef s)) as [l|].
  - apply (same_links_consistent s);
      [apply answerOffer_links | apply answerOffer_frame | done].
  - pose proof (createPeerConnection_consistent from s Hs) as H1.
    destruct (createPeerConnection from s) as [pc s1]. cbn [snd] in H1.
    eapply same_links_consistent; [| |exact H1].
    + eapply same_links_trans; [|apply answerOffer_links].
      unfold same_links. orch_cbn. rewrite length_app.
      split_and!; try done; [lia|]. intros l Hl. by rewrite lookup_app_l.
    + by rewrite (proj1 (answerOffer_frame _ _ _ _ _)).
Qed.

Lemma toggle_consistent s :
  consistent s → consistent (toggleAudio s).1 ∧ consistent (toggleVideo s).1.
Proof.
  intros Hs. pose proof Hs as (Hwf & Hnd & Heq).
  destruct (toggle_frames s (proj2 (proj2 Hwf))) as [Ha Hv].
  split.
  - split_and!; [apply (step_preserves_wf s OnToggleAudio Hwf) | |];
      unfold toggle_frame in Ha; destruct_and!; congruence.
  - split_and!; [apply (step_preserves_wf s OnToggleVideo Hwf) | |];
      unfold toggle_frame in Hv; destruct_and!; congruence.
Qed.

Lemma step_consistent s ev : consistent s → consistent (step s ev).1.
Proof.
  intros Hs.
  destruct ev as [browser users|u|b offer from|b answer from|k from|u
                 |pc state|pc state|pc remoteStream| | |joined roomId|roomId|];
    cbn [step].
  - by apply handleRoomUsers_consistent.
  - unfold handleUserJoined. destruct (jmap_has u (peersRef s)); [done|].
    by apply createPeerConnection_consistent.
  - by apply handleOffer_consistent.
  - apply (same_links_consistent s);
      [apply handleAnswer_links | apply handleAnswer_frame | done].
  - apply (same_links_consistent s);
      [apply handleIceCandidate_links | apply handleIceCandidate_frame | done].
  - unfold handleUserLeft. destruct (jmap_get u (peersRef s)) as [l|]; [|done].
    cbn [fst].
    assert (consistent (match heap s !! l with
                        | Some peer => pc_close (connection peer) s
                        | None => s
                        end)) as H1.
    { apply (same_links_consistent s); [| |done];
        destruct (heap s !! l); unfold pc_close; try done; links. }
    eapply (delete_consistent u); [..|exact H1]; orch_cbn; try done.
    by destruct H1 as (_ & _ & ->).
  - unfold onconnectionstatechange. destruct (conns s !! pc) as [this|]; [|done].
    destruct state; try done.
    + destruct (jmap_get _ (peersRef s)) as [l|]; [|done].
      destruct (heap s !! l) as [p|]; [|done].
      destruct (conns s !! connection p) as [c|]; [|done].
      case_decide; [|done]. cbn [fst].
      apply (same_links_consistent s); [unfold pc_restartIce; links | done | done].
    + destruct (jmap_get _ (peersRef s)) as [l|]; [|done].
      destruct (heap s !! l) as [p|]; [|done].
      destruct (conns s !! connection p) as [c|]; [|done].
      case_decide; [|done]. cbn [fst].
      apply (same_links_consistent s); [unfold pc_restartIce; links | done | done].
    + cbn [fst]. by eapply (delete_consistent (owner this) s).
  - unfold oniceconnectionstatechange.
    destruct state; try done. cbn [fst].
    apply (same_links_consistent s); [unfold pc_restartIce; links | done | done].
  - unfold ontrack. destruct (conns s !! pc) as [this|]; [|done].
    destruct remoteStream as [rs|]; [|done].
    destruct (jmap_get _ (peers s)) as [l|]; [|done]. cbn [fst].
    apply (same_links_consistent s); [links | done | done].
  - by apply toggle_consistent.
  - by apply toggle_consistent.
  - unfold handleConnect. destruct (_ && _); cbn [fst];
      (apply (same_links_consistent s); [links | done | done]).
  - unfold joinEffect. destruct (_ && _); cbn [fst]; [|done].
    apply (same_links_consistent s); [links | done | done].
  - cbn [fst]. unfold cleanup, consistent, wf, stored_sessions, sessions_of. orch_cbn.
    split_and!; by try constructor.
Qed.

Lemma lifecycle_frame s ev :
  peersRef (lifecycle_step s ev).1 = peersRef s
  ∧ peers (lifecycle_step s ev).1 = peers s
  ∧ heap (lifecycle_step s ev).1 = heap s
  ∧ conns (lifecycle_step s ev).1 = conns s.
Proof.
  destruct ev as [[stream|name]|pc candidate socketRef|reason| |];
    cbn [lifecycle_step]; try done.
  unfold onicecandidate. by repeat case_match.
Qed.

Lemma input_step_consistent s i : consistent s → consistent (input_step s i).1.
Proof.
  destruct i as [ev|ev]; cbn [input_step]; [apply step_consistent|].
  destruct (lifecycle_frame s ev) as (H1 & H2 & H3 & H4).
  intros Hs. apply (same_links_consistent s); [|done|done].
  by apply set_field_links.
Qed.

Lemma input_run_cons s i inputs :
  input_run s (i :: inputs)
  = ((input_run (input_step s i).1 inputs).1,
     (input_step s i).2 ++ (input_run (input_step s i).1 inputs).2).
Proof.
  cbn [input_run]. destruct (input_step s i) as [s1 out]. cbn [fst snd].
  by destruct (input_run s1 inputs).
Qed.

Lemma input_run_snoc_state s inputs i :
  (input_run s (inputs ++ [i])).1 = (input_step (input_run s inputs).1 i).1.
Proof.
  revert s. induction inputs as [|e inputs IH]; intros s.
  - cbn [app]. rewrite input_run_cons. done.
  - rewrite <- app_comm_cons, !input_run_cons. cbn [fst]. apply IH.
Qed.

Lemma reachable_consistent stream inputs :
  consistent (input_run (init stream) inputs).1.
Proof.
  induction inputs as [|i inputs IH] using rev_ind.
  - unfold consistent, wf, stored_sessions, sessions_of. cbn.
    split_and!; by try constructor.
  - rewrite input_run_snoc_state. by apply input_step_consistent.
Qed.

(** Two users with stored PeerLinks have different sessions. *)
Lemma sessions_differ hp (m : list (string * nat)) u v l l' p q :
  NoDup (sessions_of hp m) →
  u ≠ v →
  jmap_get u m = Some l → jmap_get v m = Some l' →
  hp !! l = Some p → hp !! l' = Some q →
  connection p ≠ connection q.
Proof.
  intros Hnd Huv Hl Hl' Hp Hq.
  assert (∀ w lw pw, jmap_get w m = Some lw → hp !! lw = Some pw →
            connection pw ∈ sessions_of hp m) as Hin.
  { clear. intros w lw pw Hw Hpw. unfold sessions_of.
    apply list_elem_of_omap. exists (w, lw). cbn [snd]. rewrite Hpw.
    split; [by apply jmap_get_Some_elem | done]. }
  revert Hnd Hl Hl'. unfold sessions_of in *.
  induction m as [|[k x] m IH]; cbn [jmap_get omap list_omap snd]; [done|].
  destruct (decide (u = k)) as [->|Hu]; destruct (decide (v = k)) as [->|Hv];
    try done.
  - intros Hnd [= ->] Hv'. rewrite Hp in Hnd. cbn in Hnd.
    apply NoDup_cons in Hnd as [Hnot _]. intros Heq. apply Hnot. rewrite Heq.
    apply list_elem_of_omap. exists (v, l'). cbn [snd]. rewrite Hq.
    split; [by apply jmap_get_Some_elem | done].
  - intros Hnd Hu' [= ->]. rewrite Hq in Hnd. cbn in Hnd.
    apply NoDup_cons in Hnd as [Hnot _]. intros Heq. apply Hnot. rewrite <- Heq.
    apply list_elem_of_omap. exists (u, l). cbn [snd]. rewrite Hp.
    split; [by apply jmap_get_Some_elem | done].
  - intros Hnd. apply IH.
    + intros w lw pw Hw Hpw. apply list_elem_of_omap. exists (w, lw). cbn [snd].
      rewrite Hpw. split; [by apply jmap_get_Some_elem | done].
    + destruct (connection <$> hp !! x); [by apply NoDup_cons in Hnd as [_ ?] | done].
Qed.

(** X7.  In every state the component reaches, each entry of
    [peersRef.current] leads to a [PeerConnection] record whose session
    exists, two users never share a session, no user is stored twice, and
    the rendered map [peers] has the entries of [peersRef.current]. *)
Theorem reachable_links_sound (stream : option (list Track)) (inputs : list Input) :
  let s := (input_run (init stream) inputs).1 in
  (∀ u l, jmap_get u (peersRef s) = Some l →
     ∃ p c, peerLink u s = Some p ∧ session u s = Some c)
  ∧ (∀ u v p q, u ≠ v → peerLink u s = Some p → peerLink v s = Some q →
       connection p ≠ connection q)
  ∧ NoDup (peersRef s).*1
  ∧ peers s = peersRef s.
Proof.
  intros s. destruct (reachable_consistent stream inputs) as ((W1 & W2 & W3) & Hnd & Heq).
  fold s in W1, W2, W3, Hnd, Heq. split_and!; try done.
  - intros u l Hl. unfold session, peerLink. rewrite Hl. cbn [mbind option_bind].
    pose proof (jmap_get_Some_elem _ _ _ Hl) as Hin.
    apply (proj1 (Forall_forall _ _) W1) in Hin. cbn [snd] in Hin.
    destruct (lookup_lt_is_Some_2 (heap s) l Hin) as [p Hp].
    rewrite Hp. cbn [mbind option_bind].
    assert (connection p ∈ stored_sessions s) as Hc.
    { unfold stored_sessions, sessions_of. apply list_elem_of_omap.
      exists (u, l). cbn [snd]. rewrite Hp.
      split; [by apply jmap_get_Some_elem | done]. }
    apply (proj1 (Forall_forall _ _) W2) in Hc.
    destruct (lookup_lt_is_Some_2 (conns s) _ Hc) as [c Hcs]. eauto.
  - intros u v p q Huv Hp Hq. unfold peerLink in Hp, Hq.
    destruct (jmap_get u (peersRef s)) as [l|] eqn:Hl; [|done].
    destruct (jmap_get v (peersRef s)) as [l'|] eqn:Hl'; [|done].
    cbn [mbind option_bind] in Hp, Hq.
    by apply (sessions_differ (heap s) (peersRef s) u v l l' p q).
Qed.

(** *** Leaving, closing and cleaning up *)

Lemma other_link_kept u v s s' l p :
  consistent s →
  jmap_get u (peersRef s) = Some l → heap s !! l = Some p →
  v ≠ u →
  jmap_get v (peersRef s') = jmap_get v (peersRef s) →
  heap s' = heap s →
  (∀ i, i ≠ connection p → conns s' !! i = conns s !! i) →
  peerLink v s' = peerLink v s ∧ session v s' = session v s.
Proof.
  intros ((_ & _ & W3) & _ & _) Hl Hp Hvu Hget Hh Hc.
  unfold session, peerLink. rewrite Hget, Hh.
  destruct (jmap_get v (peersRef s)) as [lv|] eqn:Hlv; [|done].
  cbn [mbind option_bind]. split; [done|].
  destruct (heap s !! lv) as [q|] eqn:Hq; [|done]. cbn [mbind option_bind].
  apply Hc. by apply (sessions_differ (heap s) (peersRef s) v u lv l q p).
Qed.

Lemma user_left s u :
  consistent s →
  let s' := (handleUserLeft u s).1 in
  (handleUserLeft u s).2 = []
  ∧ peerLink u s' = None
  ∧ jmap_get u (peers s') = None
  ∧ (∀ p c, peerLink u s = Some p → session u s = Some c →
       conns s' !! connection p = Some (rtc_close c))
  ∧ (∀ v, v ≠ u → peerLink v s' = peerLink v s ∧ session v s' = session v s)
  ∧ (∀ k, handleIceCandidate k u s' = (s', []))
  ∧ (∀ b d, handleAnswer b d u s' = (s', []))
  ∧ (jmap_get u (peersRef s) = None → s' = s).
Proof.
  intros Hs s'. pose proof Hs as ((W1 & W2 & W3) & Hnd & Heq).
  assert (jmap_get u (peersRef s') = None ∧ jmap_get u (peers s') = None) as [Hr Hp].
  { unfold s', handleUserLeft.
    destruct (jmap_get u (peersRef s)) as [l|] eqn:Hl; cbn [fst]; orch_cbn.
    - assert (peersRef (match heap s !! l with
                        | Some peer => pc_close (connection peer) s
                        | None => s
                        end) = peersRef s) as -> by by destruct (heap s !! l).
      split; by apply jmap_get_delete_eq.
    - by rewrite Heq. }
  split_and!.
  - unfold handleUserLeft. by destruct (jmap_get u (peersRef s)).
  - unfold peerLink. by rewrite Hr.
  - done.
  - intros p c Hpl Hc. destruct (stored_link u s p c Hpl Hc) as (l & Hl & Hhp & Hcs).
    unfold s', handleUserLeft. rewrite Hl, Hhp. orch_cbn.
    by rewrite list_lookup_alter_eq, Hcs.
  - intros v Hvu. unfold s', handleUserLeft.
    destruct (jmap_get u (peersRef s)) as [l|] eqn:Hl; [|done]. cbn [fst].
    destruct (heap s !! l) as [p|] eqn:Hhp.
    + apply (other_link_kept u v s _ l p Hs Hl Hhp Hvu); orch_cbn.
      * by apply jmap_get_delete_ne.
      * done.
      * intros i Hi. by rewrite list_lookup_alter_ne.
    + unfold session, peerLink. orch_cbn. by rewrite jmap_get_delete_ne.
  - intros k. unfold handleIceCandidate. by rewrite Hr.
  - intros b d. unfold handleAnswer. by rewrite Hr.
  - intros Hnone. unfold s', handleUserLeft. by rewrite Hnone.
Qed.

(** X8.  In every state the component reaches, the user-left handler
    for [u] emits nothing, closes the session of the PeerLink of [u] and
    removes the entry of [u] from both maps, and leaves the PeerLinks and
    sessions of the other users as they are; later answers and candidates
    from [u] are ignored.  Without an entry for [u] it changes nothing. *)
Theorem user_left_forgets_peer (stream : option (list Track))
    (inputs : list Input) (u : string) :
  let s := (input_run (init stream) inputs).1 in
  let s' := (handleUserLeft u s).1 in
  (handleUserLeft u s).2 = []
  ∧ peerLink u s' = None
  ∧ jmap_get u (peers s') = None
  ∧ (∀ p c, peerLink u s = Some p → session u s = Some c →
       conns s' !! connection p = Some (rtc_close c))
  ∧ (∀ v, v ≠ u → peerLink v s' = peerLink v s ∧ session v s' = session v s)
  ∧ (∀ k, handleIceCandidate k u s' = (s', []))
  ∧ (∀ b d, handleAnswer b d u s' = (s', []))
  ∧ (jmap_get u (peersRef s) = None → s' = s).
Proof. intros s. apply user_left, reachable_consistent. Qed.

(** X9.  In every state the component reaches, when a session reports
    that it is closed, the handler removes the entry of the user that the
    session was created for from both maps and does nothing else: nothing
    is emitted, no record and no session is touched, and the PeerLinks of
    the other users are as before. *)
Theorem closed_session_drops_link (stream : option (list Track))
    (inputs : list Input) (pc : nat) (this : RTCPeerConnection) :
  let s := (input_run (init stream) inputs).1 in
  conns s !! pc = Some this →
  let res := onconnectionstatechange pc Closed s in
  res.2 = []
  ∧ heap res.1 = heap s ∧ conns res.1 = conns s
  ∧ peerLink (owner this) res.1 = None
  ∧ jmap_get (owner this) (peers res.1) = None
  ∧ peers res.1 = peersRef res.1
  ∧ (∀ v, v ≠ owner this →
       peerLink v res.1 = peerLink v s ∧ session v res.1 = session v s).
Proof.
  intros s Hthis res.
  destruct (reachable_consistent stream inputs) as (Hwf & Hnd & Heq).
  fold s in Hwf, Hnd, Heq.
  assert (res = (set_peersRef (jmap_delete (owner this) (peersRef s))
                   (set_peers (jmap_delete (owner this) (peers s)) s), [])) as ->.
  { unfold res, onconnectionstatechange. by rewrite Hthis. }
  unfold session, peerLink. orch_cbn. rewrite Heq.
  rewrite jmap_get_delete_eq by done. split_and!; try done.
  intros v Hv. by rewrite jmap_get_delete_ne.
Qed.

(** [closed_session_drops_link] for the session of a user who joined. *)
Lemma closed_session_drops_link_witness :
  let s := (input_run (init (Some camera)) [Core (OnUserJoined "u")]).1 in
  peerLink "u" (onconnectionstatechange 0 Closed s).1 = None.
Proof.
  intros s.
  apply (closed_session_drops_link (Some camera) [Core (OnUserJoined "u")] 0
           (foldl (λ c track, if enabled track then rtc_addTrack track c else c)
              (new_conn "u") camera) eq_refl).
Defined.

(** The loop of [cleanup] over the entries of [peersRef.current]. *)
Lemma close_fold_frame (entries : list (string * nat)) s :
  let s' := foldl (λ acc e,
              match heap acc !! e.2 with
              | Some peer => pc_close (connection peer) acc
              | None => acc
              end) s entries in
  same_but_conns s s'
  ∧ (NoDup (sessions_of (heap s) entries) →
     ∀ pc, conns s' !! pc
           = if decide (pc ∈ sessions_of (heap s) entries)
             then rtc_close <$> conns s !! pc
             else conns s !! pc).
Proof.
  revert s. induction entries as [|e entries IH]; intros s; cbn [foldl].
  - unfold same_but_conns. split_and!; done.
  - set (s1 := match heap s !! e.2 with
               | Some peer => pc_close (connection peer) s
               | None => s
               end).
    assert (same_but_conns s s1
            ∧ ∀ pc, conns s1 !! pc
                    = if decide (Some pc = connection <$> heap s !! e.2)
                      then rtc_close <$> conns s !! pc
                      else conns s !! pc) as (E & E8).
    { unfold s1, same_but_conns. destruct (heap s !! e.2) as [peer|]; orch_cbn.
      - split_and!; try done; [apply length_alter|].
        intros pc. cbn [fmap option_fmap option_map].
        destruct (decide (Some pc = Some (connection peer))) as [[= ->]|Hne].
        + apply list_lookup_alter_eq.
        + apply list_lookup_alter_ne. congruence.
      - split_and!; done. }
    destruct (IH s1) as (F & F8). cbv zeta in *. split.
    + unfold same_but_conns in *. destruct_and!. split_and!; congruence.
    + assert (heap s1 = heap s) as E3 by (unfold same_but_conns in E; tauto).
      intros Hnd pc. rewrite E3 in F8. unfold sessions_of in *.
      cbn [omap list_omap] in Hnd |- *.
      destruct (heap s !! e.2) as [peer|] eqn:Hp;
        cbn [fmap option_fmap option_map] in *.
      * apply NoDup_cons in Hnd as [Hhead Hnd]. rewrite (F8 Hnd pc), E8.
        destruct (decide (Some pc = Some (connection peer))) as [[= ->]|Hne].
        -- rewrite decide_False by done.
           rewrite decide_True; [done | apply list_elem_of_here].
        -- destruct (decide (pc ∈ omap _ entries)) as [Hin|Hin].
           ++ rewrite decide_True; [done | by apply list_elem_of_further].
           ++ rewrite decide_False; [done|].
              rewrite not_elem_of_cons. split; [congruence | done].
      * rewrite (F8 Hnd pc), E8.
        by destruct (decide (Some pc = None)) as [[=]|_].
Qed.

(** X10.  [cleanup] in a state the component reaches: the session of
    every stored PeerLink is closed, once, and no other session is
    touched; both maps are emptied, the local stream is released and the
    joined and connected flags are reset.  Running it again changes
    nothing, and after it answers, candidates, user-left notices, the
    toggles, the join effect and a reconnection emit nothing. *)
Theorem cleanup_releases_everything (stream : option (list Track))
    (inputs : list Input) :
  let s := (input_run (init stream) inputs).1 in
  peersRef (cleanup s) = [] ∧ peers (cleanup s) = []
  ∧ localStream (cleanup s) = None
  ∧ hasJoinedRoom (cleanup s) = false ∧ isConnected (cleanup s) = false
  ∧ heap (cleanup s) = heap s
  ∧ (∀ pc c, conns s !! pc = Some c →
       conns (cleanup s) !! pc
       = Some (if decide (pc ∈ stored_sessions s) then rtc_close c else c))
  ∧ cleanup (cleanup s) = cleanup s
  ∧ (∀ b d k u r joined,
       handleAnswer b d u (cleanup s) = (cleanup s, [])
       ∧ handleIceCandidate k u (cleanup s) = (cleanup s, [])
       ∧ handleUserLeft u (cleanup s) = (cleanup s, [])
       ∧ toggleAudio (cleanup s) = (cleanup s, [])
       ∧ toggleVideo (cleanup s) = (cleanup s, [])
       ∧ joinEffect r (cleanup s) = (cleanup s, [])
       ∧ (handleConnect joined r (cleanup s)).2 = []).
Proof.
  intros s. destruct (reachable_consistent stream inputs) as ((_ & _ & W3) & _ & _).
  fold s in W3.
  destruct (close_fold_frame (peersRef s) s) as (F & F8). cbv zeta in F, F8.
  unfold same_but_conns in F. destruct F as (F1 & F2 & F3 & _).
  split_and!; try done.
  - intros pc c Hc. unfold cleanup. orch_cbn. rewrite (F8 W3 pc), Hc.
    unfold stored_sessions. by case_decide.
  - intros b d k u r joined. split_and!; try done.
    + unfold joinEffect. cbn. by rewrite andb_false_r.
    + unfold handleConnect. cbn. by rewrite andb_false_r.
Qed.

(** *** Local tracks and senders *)

Lemma list_find_insert_same {A} (P : A → Prop) `{∀ x, Decision (P x)}
    (l : list A) i x y :
  list_find P l = Some (i, x) → P y → list_find P (<[i:=y]> l) = Some (i, y).
Proof.
  intros (Hi & Hx & Hlt)%list_find_Some Hy. apply list_find_Some. split_and!.
  - apply list_lookup_insert_eq. by apply lookup_lt_Some in Hi.
  - done.
  - intros j z Hj Hji. rewrite list_lookup_insert_ne in Hj by lia. by apply (Hlt j).
Qed.

Lemma flip_flip t : flip (flip t) = t.
Proof. destruct t as [i k e]. unfold flip. cbn. by rewrite negb_involutive. Qed.

Lemma toggleAudio_found s tracks i t :
  localStream s = Some tracks →
  list_find (λ t, kind t = Audio) tracks = Some (i, t) →
  localStream (toggleAudio s).1 = Some (<[i := flip t]> tracks)
  ∧ isAudioEnabled (toggleAudio s).1 = enabled (flip t)
  ∧ (toggleAudio s).2 = [].
Proof.
  intros Hls Hfind. unfold toggleAudio. rewrite Hls, Hfind. cbn [fst snd].
  set (s2 := set_isAudioEnabled _ _).
  destruct (replace_fold_frame Audio (flip t) (peersRef s2) s2) as (F & _).
  cbv zeta in F. unfold same_but_conns in F.
  destruct F as (_ & _ & _ & F4 & _ & _ & F7 & F8 & _).
  split_and!; [by rewrite F4 | by rewrite ?F7, ?F8 | done].
Qed.

Lemma toggleVideo_found s tracks i t :
  localStream s = Some tracks →
  list_find (λ t, kind t = Video) tracks = Some (i, t) →
  localStream (toggleVideo s).1 = Some (<[i := flip t]> tracks)
  ∧ isVideoEnabled (toggleVideo s).1 = enabled (flip t)
  ∧ (toggleVideo s).2 = [].
Proof.
  intros Hls Hfind. unfold toggleVideo. rewrite Hls, Hfind. cbn [fst snd].
  set (s2 := set_isVideoEnabled _ _).
  destruct (replace_fold_frame Video (flip t) (peersRef s2) s2) as (F & _).
  cbv zeta in F. unfold same_but_conns in F.
  destruct F as (_ & _ & _ & F4 & _ & _ & F7 & F8 & _).
  split_and!; [by rewrite F4 | by rewrite ?F7, ?F8 | done].
Qed.

Lemma toggle_idle s :
  (first_track Audio s = None → toggleAudio s = (s, []))
  ∧ (first_track Video s = None → toggleVideo s = (s, [])).
Proof.
  unfold first_track, toggleAudio, toggleVideo.
  destruct (localStream s) as [tracks|]; [|done]. cbn [mbind option_bind].
  split; intros H; by destruct (list_find _ tracks) as [[i t]|].
Qed.

(** X11.  A toggle flips the [enabled] bit of the first local track of
    its kind, shows that bit in the flag of the user interface, and emits
    nothing; toggling twice gives back the local stream as it was.
    Without a track of that kind it does nothing. *)
Theorem toggle_round_trip (s : State) (k : Kind) :
  let toggle := match k with Audio => toggleAudio | Video => toggleVideo end in
  let flag := match k with Audio => isAudioEnabled | Video => isVideoEnabled end in
  (toggle s).2 = []
  ∧ first_track k (toggle s).1 = flip <$> first_track k s
  ∧ (∀ t, first_track k (toggle s).1 = Some t → flag (toggle s).1 = enabled t)
  ∧ localStream (toggle (toggle s).1).1 = localStream s
  ∧ (first_track k s = None → toggle s = (s, [])).
Proof.
  intros toggle flag.
  assert (∀ x tracks i t,
    localStream x = Some tracks →
    list_find (λ t, kind t = k) tracks = Some (i, t) →
    localStream (toggle x).1 = Some (<[i := flip t]> tracks)
    ∧ flag (toggle x).1 = enabled (flip t)
    ∧ (toggle x).2 = []) as Hfound.
  { unfold toggle, flag. destruct k; [apply toggleAudio_found | apply toggleVideo_found]. }
  assert (first_track k s = None → toggle s = (s, [])) as Hidle.
  { unfold toggle. destruct k; apply toggle_idle. }
  destruct (first_track k s) as [t0|] eqn:Hfirst.
  - unfold first_track in Hfirst.
    destruct (localStream s) as [tracks|] eqn:Hls; [|done].
    cbn [mbind option_bind] in Hfirst.
    destruct (list_find _ tracks) as [[i t]|] eqn:Hfind; [|done].
    injection Hfirst as <-.
    destruct (Hfound s tracks i t Hls Hfind) as (H1 & H2 & H3).
    assert (list_find (λ t, kind t = k) (<[i := flip t]> tracks)
            = Some (i, flip t)) as Hfind'.
    { apply (list_find_insert_same _ _ _ t); [done|].
      apply list_find_Some in Hfind as (_ & Hk & _). done. }
    destruct (Hfound (toggle s).1 _ i (flip t) H1 Hfind') as (H4 & _ & _).
    split_and!; try done.
    + unfold first_track. rewrite H1. cbn [mbind option_bind]. by rewrite Hfind'.
    + unfold first_track. rewrite H1. cbn [mbind option_bind]. rewrite Hfind'.
      intros t' [= <-]. done.
    + rewrite H4, flip_flip, list_insert_insert_eq, list_insert_id; [done|].
      by apply list_find_Some in Hfind as (? & _).
  - rewrite (Hidle eq_refl). cbn [fst snd]. rewrite (Hidle eq_refl), Hfirst. done.
Qed.

Lemma substitute_kinds k t c :
  kind t = k → sender_kinds (substitute k t c) = sender_kinds c.
Proof.
  intros Hk. unfold substitute, sender_kinds.
  destruct (list_find _ (senders c)) as [[i sd]|] eqn:Hfind; [|done].
  cbn [with_senders senders log]. rewrite list_fmap_insert.
  apply list_insert_id. rewrite list_lookup_fmap.
  apply list_find_Some in Hfind as (-> & Hsd & _). cbn. by rewrite Hk, <- Hsd.
Qed.

Lemma substitution_kinds k s c :
  sender_kinds (substitution k s c) = sender_kinds c.
Proof.
  unfold substitution, toggled.
  destruct (localStream s) as [tracks|]; [|done]. cbn [mbind option_bind].
  destruct (list_find _ tracks) as [[i t]|] eqn:Hfind; [|done].
  cbn [fmap option_fmap option_map snd]. apply substitute_kinds.
  by apply list_find_Some in Hfind as (_ & ? & _).
Qed.

(** X12.  In every state the component reaches, a toggle leaves the
    senders of every session in place: their number and the kind of track
    of each one are as before.  A session without a sender for a kind of
    track does not get one by a toggle. *)
Theorem toggle_keeps_senders (stream : option (list Track))
    (inputs : list Input) (pc : nat) (c : RTCPeerConnection) :
  let s := (input_run (init stream) inputs).1 in
  conns s !! pc = Some c →
  (∃ c', conns (toggleAudio s).1 !! pc = Some c' ∧ sender_kinds c' = sender_kinds c)
  ∧ (∃ c', conns (toggleVideo s).1 !! pc = Some c' ∧ sender_kinds c' = sender_kinds c).
Proof.
  intros s Hc.
  destruct (reachable_consistent stream inputs) as ((_ & _ & W3) & _ & _).
  fold s in W3. destruct (toggle_frames s W3) as [Ha Hv].
  unfold toggle_frame in Ha, Hv.
  split; eexists.
  - split; [by apply Ha|]. case_decide; [apply substitution_kinds | done].
  - split; [by apply Hv|]. case_decide; [apply substitution_kinds | done].
Qed.

(** [toggle_keeps_senders] for the session of a user who joined. *)
Lemma toggle_keeps_senders_witness :
  let s := (input_run (init (Some camera)) [Core (OnUserJoined "u")]).1 in
  ∃ c', conns (toggleAudio s).1 !! 0 = Some c'
        ∧ sender_kinds c' = [Some Audio; Some Video].
Proof.
  intros s.
  apply (toggle_keeps_senders (Some camera) [Core (OnUserJoined "u")] 0
           (foldl (λ c track, if enabled track then rtc_addTrack track c else c)
              (new_conn "u") camera) eq_refl).
Defined.

Lemma addTracks_senders tracks c :
  foldl (λ c track, if enabled track then rtc_addTrack track c else c) c tracks
  = {| owner := owner c; signalingState := signalingState c;
       senders := senders c
                  ++ ((λ t, Some (tid t, kind t))
                      <$> filter (λ t, enabled t = true) tracks);
       calls := calls c
                ++ ((λ t, AddTrack (tid t))
                    <$> filter (λ t, enabled t = true) tracks) |}.
Proof.
  revert c. induction tracks as [|t tracks IH]; intros c; cbn [foldl].
  - rewrite filter_nil. cbn. rewrite !app_nil_r. by destruct c.
  - rewrite IH, filter_cons. destruct (enabled t) eqn:Ht.
    + rewrite decide_True by done. cbn. by rewrite <- !app_assoc.
    + rewrite decide_False by done. done.
Qed.

(** X13.  [createPeerConnection(userId)] stores a fresh PeerLink for the
    user (empty queue, flag false, no remote stream) and returns its new
    session, which sends the local tracks that are enabled at that moment,
    in order, and no other: a kind of track that has no enabled local
    track gets no sender.  The entries of the other users are kept. *)
Theorem new_link_sends_enabled_tracks (u : string) (s : State) :
  let s' := (createPeerConnection u s).2 in
  let live := filter (λ t, enabled t = true) (default [] (localStream s)) in
  (createPeerConnection u s).1 = length (conns s)
  ∧ peerLink u s' = Some (new_peer u (length (conns s)))
  ∧ (∃ c, session u s' = Some c
          ∧ owner c = u ∧ signalingState c = Stable
          ∧ senders c = (λ t, Some (tid t, kind t)) <$> live
          ∧ calls c = (λ t, AddTrack (tid t)) <$> live
          ∧ ∀ k, (∀ t, t ∈ default [] (localStream s) → kind t = k →
                       enabled t = false) →
                 Some k ∉ sender_kinds c)
  ∧ (∀ v, v ≠ u → jmap_get v (peersRef s') = jmap_get v (peersRef s)).
Proof.
  intros s' live.
  set (s1 := match jmap_get u (peersRef s) with
             | Some l =>
                 match heap s !! l with
                 | Some existingPeer => pc_close (connection existingPeer) s
                 | None => s
                 end
             | None => s
             end).
  assert (peersRef s1 = peersRef s ∧ heap s1 = heap s
          ∧ length (conns s1) = length (conns s)
          ∧ localStream s1 = localStream s) as (E1 & E2 & E3 & E4).
  { unfold s1. destruct (jmap_get u (peersRef s)) as [l|]; [|done].
    destruct (heap s !! l) as [p|]; [|done]. orch_cbn.
    by rewrite length_alter. }
  set (c0 := match localStream s with
             | Some tracks =>
                 foldl (λ c track, if enabled track then rtc_addTrack track c else c)
                   (new_conn u) tracks
             | None => new_conn u
             end).
  assert (createPeerConnection u s
          = (length (conns s),
             set_peers (jmap_set u (length (heap s)) (peersRef s))
               (set_peersRef (jmap_set u (length (heap s)) (peersRef s))
                  (set_heap (heap s ++ [new_peer u (length (conns s))])
                     (set_conns (conns s1 ++ [c0]) s1))))) as Heq.
  { unfold createPeerConnection. fold s1. orch_cbn. by rewrite E1, E2, E3, E4. }
  assert (c0 = {| owner := u; signalingState := Stable;
                  senders := (λ t, Some (tid t, kind t)) <$> live;
                  calls := (λ t, AddTrack (tid t)) <$> live |}) as Hc0.
  { unfold c0, live. destruct (localStream s) as [tracks|]; [|done].
    by rewrite addTracks_senders. }
  unfold s'. rewrite Heq. unfold session, peerLink. orch_cbn.
  rewrite jmap_get_set_eq. cbn [mbind option_bind].
  rewrite list_lookup_middle by done. cbn [mbind option_bind new_peer connection].
  rewrite <- E3, list_lookup_middle by done.
  split_and!; try done.
  - exists c0. rewrite Hc0. split_and!; try done.
    intros k Hk. unfold sender_kinds, live. cbn [senders].
    intros (sd & Hsd & (t & -> & Ht)%list_elem_of_fmap)%list_elem_of_fmap.
    apply list_elem_of_filter in Ht as [Hen Hin]. cbn in Hsd.
    rewrite (Hk t Hin) in Hen; [done | congruence].
  - intros v Hv. by apply jmap_get_set_ne.
Qed.

(** *** What is emitted, and when *)

Lemma offerTo_out b u pc s :
  (offerTo b u pc s).2
  = match created b with
    | Some d => if setLocalOk b then [Offer d u] else []
    | None => []
    end.
Proof. unfold offerTo. by repeat case_match. Qed.

Lemma room_users browser users s :
  let res := handleRoomUsers browser users s in
  (∀ u, u ∈ users → jmap_has u (peersRef res.1) = true)
  ∧ NoDup (offer_targets res.2)
  ∧ (∀ m, m ∈ res.2 →
       ∃ d u, m = Offer d u ∧ u ∈ users ∧ jmap_get u (peersRef s) = None
              ∧ created (browser u) = Some d ∧ setLocalOk (browser u) = true)
  ∧ (∀ u d, u ∈ users → jmap_get u (peersRef s) = None →
       created (browser u) = Some d → setLocalOk (browser u) = true →
       Offer d u ∈ res.2).
Proof.
  revert s. induction users as [|v users IH]; intros s; cbn zeta;
    cbn [handleRoomUsers].
  - cbn [fst snd]. split_and!.
    + by intros u ?%elem_of_nil.
    + constructor.
    + by intros m ?%elem_of_nil.
    + by intros u d ?%elem_of_nil.
  - assert (jmap_has v (peersRef s)
            = match jmap_get v (peersRef s) with Some _ => true | None => false end)
      as -> by done.
    destruct (jmap_get v (peersRef s)) as [lv|] eqn:Hv.
    + destruct (IH s) as (H1 & H2 & H3 & H4). cbv zeta in *. split_and!.
      * intros u [->|Hu]%elem_of_cons; [|by apply H1].
        destruct (room_users_keeps_link browser users s v lv Hv) as (Hk & _).
        unfold jmap_has. by rewrite Hk.
      * done.
      * intros m Hm. destruct (H3 m Hm) as (d & u & ? & ? & ?).
        exists d, u. split_and!; try tauto. by apply list_elem_of_further.
      * intros u d [->|Hu]%elem_of_cons Hnone; [congruence | by apply H4].
    + destruct (createPeerConnection_fresh v s Hv) as (c0 & _ & _ & ->).
      set (s1 := set_peers _ _).
      destruct (offerTo_frame (browser v) v (length (conns s)) s1) as (Hpr & _).
      pose proof (offerTo_out (browser v) v (length (conns s)) s1) as Hout.
      destruct (offerTo (browser v) v (length (conns s)) s1) as [s2 out].
      cbn [fst snd] in Hpr, Hout.
      assert (jmap_get v (peersRef s2) = Some (length (heap s))) as Hv2.
      { rewrite Hpr. unfold s1. orch_cbn. apply jmap_get_set_eq. }
      assert (∀ u, u ≠ v → jmap_get u (peersRef s2) = jmap_get u (peersRef s)) as Hne.
      { intros u Hu. rewrite Hpr. unfold s1. orch_cbn. by apply jmap_get_set_ne. }
      destruct (IH s2) as (H1 & H2 & H3 & H4). cbv zeta in *.
      pose proof (room_users_keeps_link browser users s2 v _ Hv2) as (Hk & _).
      destruct (handleRoomUsers browser users s2) as [s3 out']. cbn [fst snd] in *.
      assert (∀ x, x ∈ offer_targets out' → x ≠ v) as Hfresh.
      { intros x (m & Hm & Hx)%list_elem_of_omap ->.
        destruct (H3 m Hm) as (d & u & -> & _ & Hnone & _).
        injection Hx as ->. congruence. }
      split_and!.
      * intros u [->|Hu]%elem_of_cons; [|by apply H1].
        unfold jmap_has. by rewrite Hk.
      * unfold offer_targets in *. rewrite omap_app. apply NoDup_app. split_and!.
        -- rewrite Hout. destruct (created (browser v)) as [d|];
             [destruct (setLocalOk (browser v))|]; cbn; repeat constructor.
           apply not_elem_of_nil.
        -- intros x Hx Hx'. apply (Hfresh x Hx'). rewrite Hout in Hx.
           destruct (created (browser v)) as [d|];
             [destruct (setLocalOk (browser v))|]; cbn in Hx;
             try by apply elem_of_nil in Hx.
           by apply list_elem_of_singleton in Hx.
        -- done.
      * intros m [Hm|Hm]%elem_of_app.
        -- rewrite Hout in Hm.
           destruct (created (browser v)) as [d|] eqn:Hd;
             [destruct (setLocalOk (browser v)) eqn:Hok|];
             try by apply elem_of_nil in Hm.
           apply list_elem_of_singleton in Hm as ->.
           exists d, v. split_and!; try done. apply list_elem_of_here.
        -- destruct (H3 m Hm) as (d & u & -> & Hu & Hnone & Hd & Hok).
           assert (u ≠ v) as Huv by (intros ->; congruence).
           exists d, u. split_and!; try done.
           ++ by apply list_elem_of_further.
           ++ by rewrite <- Hne.
      * intros u d Hu Hnone Hd Hok. apply elem_of_app.
        destruct (decide (u = v)) as [->|Huv].
        -- left. rewrite Hout, Hd, Hok. apply list_elem_of_here.
        -- right. apply elem_of_cons in Hu as [?|Hu]; [done|].
           apply H4; try done. by rewrite Hne.
Qed.

(** X14.  The room-users handler leaves a PeerLink stored for every
    listed user, keeps the entries that were stored, and sends offers to
    the listed users that had none, to each of them at most once even if
    listed twice: exactly to those for which the browser produced an offer
    and accepted it as local description.  It emits nothing else. *)
Theorem room_users_offers_new_users_once (browser : string → Browser)
    (users : list string) (s : State) :
  let res := handleRoomUsers browser users s in
  (∀ u, u ∈ users → jmap_has u (peersRef res.1) = true)
  ∧ (∀ u l, jmap_get u (peersRef s) = Some l →
       jmap_get u (peersRef res.1) = Some l)
  ∧ NoDup (offer_targets res.2)
  ∧ (∀ m, m ∈ res.2 ↔
       ∃ d u, m = Offer d u ∧ u ∈ users ∧ jmap_get u (peersRef s) = None
              ∧ created (browser u) = Some d ∧ setLocalOk (browser u) = true).
Proof.
  intros res. destruct (room_users browser users s) as (H1 & H2 & H3 & H4).
  split_and!; try done.
  - intros u l Hl. by apply room_users_keeps_link.
  - intros m. split; [apply H3|].
    intros (d & u & -> & Hu & Hnone & Hd & Hok). by apply H4.
Qed.

Lemma answerOffer_out b offer from l s m :
  m ∈ (answerOffer b offer from l s).2 →
  ∃ a, m = Answer a from ∧ setRemoteOk b = true ∧ created b = Some a
       ∧ setLocalOk b = true.
Proof.
  unfold answerOffer. destruct (heap s !! l) as [p|]; [|by intros ?%elem_of_nil].
  destruct (setRemoteOk b); [|by intros ?%elem_of_nil].
  destruct (created b) as [answer|]; [destruct (setLocalOk b)|]; cbn [snd];
    try by intros ?%elem_of_nil.
  intros ->%list_elem_of_singleton. by eexists.
Qed.

(** The handlers that emit nothing. *)
Lemma silent_handlers s :
  (∀ u, (handleUserJoined u s).2 = [])
  ∧ (∀ b d u, (handleAnswer b d u s).2 = [])
  ∧ (∀ k u, (handleIceCandidate k u s).2 = [])
  ∧ (∀ u, (handleUserLeft u s).2 = [])
  ∧ (∀ pc state, (onconnectionstatechange pc state s).2 = [])
  ∧ (∀ pc state, (oniceconnectionstatechange pc state s).2 = [])
  ∧ (∀ pc rs, (ontrack pc rs s).2 = [])
  ∧ (toggleAudio s).2 = []
  ∧ (toggleVideo s).2 = [].
Proof.
  split_and!; intros;
    unfold handleUserJoined, handleAnswer, handleIceCandidate, handleUserLeft,
      onconnectionstatechange, oniceconnectionstatechange, ontrack,
      toggleAudio, toggleVideo;
    by repeat case_match.
Qed.

Lemma emissions_origin s i m :
  m ∈ (input_step s i).2 →
  match m with
  | JoinRoom r =>
      is_Some (localStream s)
      ∧ (i = Core (OnConnect true r)
         ∨ (i = Core (OnJoinEffect r)
            ∧ hasJoinedRoom s = false ∧ isConnected s = true))
  | Offer d to =>
      ∃ browser users, i = Core (OnRoomUsers browser users) ∧ to ∈ users
        ∧ jmap_get to (peersRef s) = None ∧ created (browser to) = Some d
  | Answer a to =>
      ∃ b offer, i = Core (OnOffer b offer to) ∧ setRemoteOk b = true
        ∧ created b = Some a ∧ setLocalOk b = true
  | IceCandidate k to =>
      ∃ pc this, i = Life (OnGathered pc (Some k) true)
        ∧ conns s !! pc = Some this ∧ owner this = to
  end.
Proof.
  destruct (silent_handlers s) as (S1 & S2 & S3 & S4 & S5 & S6 & S7 & S8 & S9).
  destruct i as [ev|ev]; cbn [input_step].
  - destruct ev as [browser users|u|b offer from|b answer from|k from|u
                   |pc state|pc state|pc remoteStream| | |joined roomId|roomId|];
      cbn [step]; rewrite ?S1, ?S2, ?S3, ?S4, ?S5, ?S6, ?S7, ?S8, ?S9;
      try by intros ?%elem_of_nil.
    + intros Hm. destruct (room_users browser users s) as (_ & _ & H3 & _).
      destruct (H3 m Hm) as (d & u & -> & ? & ? & ? & ?). by exists browser, users.
    + unfold handleOffer. destruct (jmap_get from (peersRef s)) as [l|];
        [|destruct (createPeerConnection from s) as [pc s1]];
        intros (a & -> & ? & ? & ?)%answerOffer_out; by exists b, offer.
    + unfold handleConnect. orch_cbn. destruct joined; cbn [andb];
        [|by intros ?%elem_of_nil].
      case_bool_decide as Hls; [|by intros ?%elem_of_nil].
      intros ->%list_elem_of_singleton. split; [done | by left].
    + unfold joinEffect.
      destruct (socketSet s); cbn [andb]; [|by intros ?%elem_of_nil].
      case_bool_decide as Hls; cbn [andb]; [|by intros ?%elem_of_nil].
      destruct (isConnected s); cbn [andb]; [|by intros ?%elem_of_nil].
      destruct (hasJoinedRoom s); cbn [negb]; [by intros ?%elem_of_nil|].
      intros ->%list_elem_of_singleton. split; [done | by right].
  - destruct ev as [outcome|pc candidate socketRef|reason| |];
      cbn [lifecycle_step]; try by intros ?%elem_of_nil.
    unfold onicecandidate. destruct (conns s !! pc) as [this|] eqn:Hthis;
      [|by intros ?%elem_of_nil].
    destruct candidate as [k|]; [|by intros ?%elem_of_nil].
    destruct socketRef; [|by intros ?%elem_of_nil].
    intros ->%list_elem_of_singleton. by exists pc, this.
Qed.

(** X15.  Who sends what.  A join is emitted only by the [connect] /
    [reconnect] handler that closed over [hasJoinedRoom = true] and by the
    join effect (not yet joined, connected), and only while the local
    stream is held; an offer only by the room-users handler, to a listed
    user without stored PeerLink; an answer only by the offer handler, to
    the sender of an offer the browser accepted; a candidate only by the
    [onicecandidate] handler of a session, to the user the session was
    created for, and only while the socket reference is set. *)
Theorem emissions_by_origin (s : State) (i : Input) (m : ClientMsg) :
  m ∈ (input_step s i).2 →
  match m with
  | JoinRoom r =>
      is_Some (localStream s)
      ∧ (i = Core (OnConnect true r)
         ∨ (i = Core (OnJoinEffect r)
            ∧ hasJoinedRoom s = false ∧ isConnected s = true))
  | Offer d to =>
      ∃ browser users, i = Core (OnRoomUsers browser users) ∧ to ∈ users
        ∧ jmap_get to (peersRef s) = None ∧ created (browser to) = Some d
  | Answer a to =>
      ∃ b offer, i = Core (OnOffer b offer to) ∧ setRemoteOk b = true
        ∧ created b = Some a ∧ setLocalOk b = true
  | IceCandidate k to =>
      ∃ pc this, i = Life (OnGathered pc (Some k) true)
        ∧ conns s !! pc = Some this ∧ owner this = to
  end.
Proof. apply emissions_origin. Qed.

(** [emissions_by_origin] for the candidate that the session of "u"
    gathers. *)
Lemma emissions_by_origin_witness :
  let s := (input_run (init (Some camera)) [Core (OnUserJoined "u")]).1 in
  ∃ pc this, Life (OnGathered 0 (Some "candidate:1") true)
             = Life (OnGathered pc (Some "candidate:1") true)
             ∧ conns s !! pc = Some this ∧ owner this = "u".
Proof.
  intros s.
  apply (emissions_by_origin s (Life (OnGathered 0 (Some "candidate:1") true))
           (IceCandidate "candidate:1" "u")).
  vm_compute. apply list_elem_of_here.
Defined.

Lemma handleUserJoined_ui u s : same_ui s (handleUserJoined u s).1.
Proof.
  unfold handleUserJoined. destruct (jmap_has u (peersRef s));
    [apply same_ui_refl | apply createPeerConnection_ui].
Qed.

Lemma quiet_handlers_ui s :
  (∀ u, same_ui s (handleUserLeft u s).1)
  ∧ (∀ pc state, same_ui s (onconnectionstatechange pc state s).1)
  ∧ (∀ pc state, same_ui s (oniceconnectionstatechange pc state s).1)
  ∧ (∀ pc rs, same_ui s (ontrack pc rs s).1).
Proof.
  split_and!; intros;
    unfold handleUserLeft, onconnectionstatechange, oniceconnectionstatechange,
      ontrack; frame.
Qed.

(** The handlers of the messages of the gateway and of the events of the
    sessions leave the local stream and the React state alone. *)
Lemma negotiation_ui s ev :
  match ev with
  | OnToggleAudio | OnToggleVideo | OnConnect _ _ | OnJoinEffect _ | OnCleanup => True
  | _ => same_ui s (step s ev).1
  end.
Proof.
  destruct (quiet_handlers_ui s) as (Q1 & Q2 & Q3 & Q4).
  destruct ev; cbn [step]; try done.
  - apply handleRoomUsers_ui.
  - apply handleUserJoined_ui.
  - apply handleOffer_ui.
  - apply handleAnswer_frame.
  - apply handleIceCandidate_frame.
Qed.

Lemma toggle_flags s :
  hasJoinedRoom (toggleAudio s).1 = hasJoinedRoom s
  ∧ hasJoinedRoom (toggleVideo s).1 = hasJoinedRoom s
  ∧ (localStream s = None →
     localStream (toggleAudio s).1 = None ∧ localStream (toggleVideo s).1 = None).
Proof.
  split_and!.
  - unfold toggleAudio. destruct (localStream s) as [tracks|]; [|done].
    destruct (list_find _ tracks) as [[i t]|]; [|done]. cbn [fst].
    set (s2 := set_isAudioEnabled _ _).
    destruct (replace_fold_frame Audio (flip t) (peersRef s2) s2) as (F & _).
    cbv zeta in F. unfold same_but_conns in F.
    destruct F as (_ & _ & _ & _ & _ & _ & _ & _ & F9 & _). by rewrite F9.
  - unfold toggleVideo. destruct (localStream s) as [tracks|]; [|done].
    destruct (list_find _ tracks) as [[i t]|]; [|done]. cbn [fst].
    set (s2 := set_isVideoEnabled _ _).
    destruct (replace_fold_frame Video (flip t) (peersRef s2) s2) as (F & _).
    cbv zeta in F. unfold same_but_conns in F.
    destruct F as (_ & _ & _ & _ & _ & _ & _ & _ & F9 & _). by rewrite F9.
  - intros Hls. unfold toggleAudio, toggleVideo. by rewrite Hls.
Qed.

Lemma step_stream_None s i :
  ¬ grants_stream i → localStream s = None →
  localStream (input_step s i).1 = None.
Proof.
  intros Hi Hls. destruct i as [ev|ev]; cbn [input_step].
  - pose proof (negotiation_ui s ev) as Hui.
    destruct (toggle_flags s) as (_ & _ & Ht). destruct (Ht Hls) as [Ha Hv].
    destruct ev; cbn [step] in *; try done;
      try (destruct Hui as (-> & _); done).
    + unfold handleConnect. by destruct (_ && _).
    + unfold joinEffect. by destruct (_ && _).
  - destruct ev as [[stream|name]|pc candidate socketRef|reason| |];
      cbn [lifecycle_step]; try done; try (exfalso; by apply Hi).
    unfold onicecandidate. by repeat case_match.
Qed.

(** X16.  Without a local stream the room is never joined: as long as
    the media devices have not delivered a stream (access still pending,
    or refused), whatever happens, the component holds no stream and emits
    no join. *)
Theorem no_join_without_local_stream (s : State) (inputs : list Input) :
  localStream s = None →
  Forall (λ i, ¬ grants_stream i) inputs →
  localStream (input_run s inputs).1 = None
  ∧ ∀ r, JoinRoom r ∉ (input_run s inputs).2.
Proof.
  intros Hls Hall. revert s Hls.
  induction Hall as [|i inputs Hi _ IH]; intros s Hls.
  - split; [done|]. intros r. apply not_elem_of_nil.
  - rewrite input_run_cons. cbn [fst snd].
    destruct (IH _ (step_stream_None s i Hi Hls)) as [H1 H2].
    split; [done|]. intros r [Hin|Hin]%elem_of_app; [|by apply (H2 r)].
    apply emissions_origin in Hin as [[x Hx] _]. congruence.
Qed.

(** [no_join_without_local_stream] when access to the devices is refused
    and the socket connects and reconnects. *)
Lemma no_join_without_local_stream_witness :
  JoinRoom "r1" ∉
    (input_run (init None)
       [Life (OnLocalStream (Refused "NotAllowedError"));
        Core (OnConnect false "r1"); Core (OnJoinEffect "r1");
        Core (OnConnect true "r1")]).2.
Proof.
  apply (no_join_without_local_stream (init None)); [reflexivity|].
  repeat constructor; cbn; tauto.
Defined.

(** Only [cleanup] resets [hasJoinedRoom]. *)
Lemma step_joined s i :
  (match i with Core OnCleanup => False | _ => True end) →
  hasJoinedRoom s = true → hasJoinedRoom (input_step s i).1 = true.
Proof.
  intros Hi Hj. destruct i as [ev|ev]; cbn [input_step].
  - pose proof (negotiation_ui s ev) as Hui.
    destruct (toggle_flags s) as (Ha & Hv & _).
    destruct ev; cbn [step] in *; try done;
      try (destruct Hui as (_ & _ & _ & _ & _ & -> & _); done);
      try congruence.
    + unfold handleConnect. by destruct (_ && _).
    + unfold joinEffect. by destruct (_ && _).
  - destruct ev as [[stream|name]|pc candidate socketRef|reason| |];
      cbn [lifecycle_step]; try done.
    unfold onicecandidate. by repeat case_match.
Qed.

(** X17.  Once the room is joined, the component emits no further join
    and stays joined until [cleanup] runs or a [connect] / [reconnect]
    handler that closed over [hasJoinedRoom = true] fires: the join effect
    does not repeat the join. *)
Theorem joined_once (s : State) (inputs : list Input) :
  hasJoinedRoom s = true →
  Forall (λ i, ¬ rejoins i) inputs →
  hasJoinedRoom (input_run s inputs).1 = true
  ∧ ∀ r, JoinRoom r ∉ (input_run s inputs).2.
Proof.
  intros Hj Hall. revert s Hj.
  induction Hall as [|i inputs Hi _ IH]; intros s Hj.
  - split; [done|]. intros r. apply not_elem_of_nil.
  - rewrite input_run_cons. cbn [fst snd].
    assert (hasJoinedRoom (input_step s i).1 = true) as Hj'.
    { apply step_joined; [|done]. destruct i as [[]|]; try done; by apply Hi. }
    destruct (IH _ Hj') as [H1 H2].
    split; [done|]. intros r [Hin|Hin]%elem_of_app; [|by apply (H2 r)].
    apply emissions_origin in Hin as [_ [-> | (_ & Hf & _)]]; [by apply Hi | congruence].
Qed.

(** [joined_once] after the first join: the join effect runs again and
    the socket reconnects with a handler from before the join. *)
Lemma joined_once_witness :
  let s := (input_run (init (Some camera))
              [Core (OnConnect false "r1"); Core (OnJoinEffect "r1")]).1 in
  JoinRoom "r1" ∉
    (input_run s [Core (OnJoinEffect "r1"); Core (OnConnect false "r1");
                  Core (OnJoinEffect "r1")]).2.
Proof.
  intros s. apply (joined_once s); [reflexivity|].
  repeat constructor; cbn; tauto.
Defined.

(** *** What removes a PeerLink, and what closes a session *)

Lemma toggle_peersRef s :
  peersRef (toggleAudio s).1 = peersRef s ∧ peersRef (toggleVideo s).1 = peersRef s.
Proof.
  split.
  - unfold toggleAudio. destruct (localStream s) as [tracks|]; [|done].
    destruct (list_find _ tracks) as [[i t]|]; [|done]. cbn [fst].
    set (s2 := set_isAudioEnabled _ _).
    destruct (replace_fold_frame Audio (flip t) (peersRef s2) s2) as (F & _).
    cbv zeta in F. unfold same_but_conns in F. destruct F as (F1 & _). by rewrite F1.
  - unfold toggleVideo. destruct (localStream s) as [tracks|]; [|done].
    destruct (list_find _ tracks) as [[i t]|]; [|done]. cbn [fst].
    set (s2 := set_isVideoEnabled _ _).
    destruct (replace_fold_frame Video (flip t) (peersRef s2) s2) as (F & _).
    cbv zeta in F. unfold same_but_conns in F. destruct F as (F1 & _). by rewrite F1.
Qed.

Lemma quiet_peersRef s :
  (∀ pc state, state ≠ Closed →
     peersRef (onconnectionstatechange pc state s).1 = peersRef s)
  ∧ (∀ pc state, peersRef (oniceconnectionstatechange pc state s).1 = peersRef s)
  ∧ (∀ pc rs, peersRef (ontrack pc rs s).1 = peersRef s)
  ∧ (∀ joined r, peersRef (handleConnect joined r s).1 = peersRef s)
  ∧ (∀ r, peersRef (joinEffect r s).1 = peersRef s).
Proof.
  split_and!; intros;
    unfold onconnectionstatechange, oniceconnectionstatechange, ontrack,
      handleConnect, joinEffect;
    by repeat case_match.
Qed.

(** X18.  A stored PeerLink stays in [peersRef.current], at its place,
    through everything but a user-left notice, a session that reports
    itself closed, and [cleanup]: in particular through failed or
    disconnected sessions, rejected descriptions, reconnections and the
    arrival of other users. *)
Theorem link_kept_unless_removed (s : State) (i : Input) (u : string) (l : nat) :
  ¬ removes_links i →
  jmap_get u (peersRef s) = Some l →
  jmap_get u (peersRef (input_step s i).1) = Some l.
Proof.
  intros Hi Hl. destruct i as [ev|ev]; cbn [input_step];
    [|by rewrite (proj1 (lifecycle_frame s ev))].
  destruct (quiet_peersRef s) as (Q1 & Q2 & Q3 & Q4 & Q5).
  destruct (toggle_peersRef s) as (Ta & Tv).
  destruct ev as [browser users|v|b offer from|b answer from|k from|v
                 |pc state|pc state|pc remoteStream| | |joined roomId|roomId|];
    cbn [step]; rewrite ?Q2, ?Q3, ?Q4, ?Q5, ?Ta, ?Tv; try done.
  - by apply room_users_keeps_link.
  - unfold handleUserJoined, jmap_has.
    destruct (jmap_get v (peersRef s)) as [lv|] eqn:Hv; [done|].
    destruct (createPeerConnection_fresh v s Hv) as (c0 & _ & _ & ->). orch_cbn.
    rewrite jmap_get_set_ne; [done | congruence].
  - unfold handleOffer. destruct (jmap_get from (peersRef s)) as [lf|] eqn:Hf.
    + by rewrite (proj1 (answerOffer_links b offer from lf s)).
    + destruct (createPeerConnection_fresh from s Hf) as (c0 & _ & _ & ->).
      rewrite (proj1 (answerOffer_links b offer from _ _)). orch_cbn.
      rewrite jmap_get_set_ne; [done | congruence].
  - by rewrite (proj1 (handleAnswer_links b answer from s)).
  - by rewrite (proj1 (handleIceCandidate_links k from s)).
  - rewrite Q1; [done|]. intros ->. by apply Hi.
Qed.

(** [link_kept_unless_removed] for a session that reports a failure. *)
Lemma link_kept_unless_removed_witness :
  let s := (input_run (init (Some camera)) [Core (OnUserJoined "u")]).1 in
  jmap_get "u" (peersRef (input_step s (Core (OnConnectionState 0 Failed))).1)
  = Some 0.
Proof.
  intros s.
  apply (link_kept_unless_removed s (Core (OnConnectionState 0 Failed)) "u" 0);
    [cbn; tauto | reflexivity].
Defined.

Lemma keeps_open_refl s : keeps_open s s.
Proof. intros pc c Hc. by exists c. Qed.

Lemma keeps_open_trans s1 s2 s3 :
  keeps_open s1 s2 → keeps_open s2 s3 → keeps_open s1 s3.
Proof.
  intros H12 H23 pc c Hc. destruct (H12 pc c Hc) as (c2 & Hc2 & O2 & H2).
  destruct (H23 pc c2 Hc2) as (c3 & Hc3 & O3 & H3). exists c3.
  split_and!; [done | congruence | auto].
Qed.

Lemma keeps_open_conns s s' : conns s' = conns s → keeps_open s s'.
Proof. intros Heq pc c Hc. exists c. by rewrite Heq. Qed.

Lemma keeps_open_app s s' X : conns s' = conns s ++ X → keeps_open s s'.
Proof.
  intros Heq pc c Hc. exists c. rewrite Heq. split; [|done].
  by apply lookup_app_l_Some.
Qed.

Lemma owner_flush ks c :
  owner (foldl (λ c k, rtc_addIceCandidate k c) c ks) = owner c.
Proof.
  revert c. induction ks as [|k ks IH]; intros c; cbn [foldl]; [done|].
  by rewrite IH.
Qed.

(** Every method keeps the user of the session. *)
Lemma owner_kept :
  (∀ call c, owner (log call c) = owner c)
  ∧ (∀ d ok c, owner (rtc_setRemoteDescription d ok c) = owner c)
  ∧ (∀ d ok c, owner (rtc_setLocalDescription d ok c) = owner c)
  ∧ (∀ k c, owner (rtc_addIceCandidate k c) = owner c)
  ∧ (∀ k t c, owner (substitute k t c) = owner c).
Proof.
  split_and!; try done.
  - by intros d [] c.
  - by intros d [] c.
  - intros k t c. apply substitute_frame.
Qed.

Lemma on_conn_open pc f s :
  (∀ c, owner (f c) = owner c) →
  (∀ c, Close ∈ calls (f c) → Close ∈ calls c) → keeps_open s (on_conn pc f s).
Proof.
  intros Ho Hf i c Hc. orch_cbn. destruct (decide (i = pc)) as [->|Hne].
  - exists (f c). rewrite list_lookup_alter_eq, Hc. split_and!; [done | apply Ho | apply Hf].
  - exists c. by rewrite list_lookup_alter_ne.
Qed.

(** The calls on a session that do not close it. *)
Lemma open_log call :
  call ≠ Close → ∀ c, Close ∈ calls (log call c) → Close ∈ calls c.
Proof.
  intros Hne c. unfold log. cbn [calls].
  intros [?|?%list_elem_of_singleton]%elem_of_app; [done | congruence].
Qed.

Lemma open_setRemote d ok c :
  Close ∈ calls (rtc_setRemoteDescription d ok c) → Close ∈ calls c.
Proof.
  rewrite calls_setRemote. by intros [?|?%list_elem_of_singleton]%elem_of_app.
Qed.

Lemma open_setLocal d ok c :
  Close ∈ calls (rtc_setLocalDescription d ok c) → Close ∈ calls c.
Proof.
  rewrite calls_setLocal. by intros [?|?%list_elem_of_singleton]%elem_of_app.
Qed.

Lemma open_addIceCandidate k c :
  Close ∈ calls (rtc_addIceCandidate k c) → Close ∈ calls c.
Proof. by apply open_log. Qed.

Lemma open_flush ks c :
  Close ∈ calls (foldl (λ c k, rtc_addIceCandidate k c) c ks) → Close ∈ calls c.
Proof.
  rewrite calls_flush.
  intros [?|Hin]%elem_of_app; [done|].
  apply list_elem_of_fmap in Hin as (k & ? & _). done.
Qed.

Lemma open_substitute k t c :
  Close ∈ calls (substitute k t c) → Close ∈ calls c.
Proof.
  destruct (substitute_frame k t c) as (_ & _ & _ & added & -> & Hall).
  intros [?|Hin]%elem_of_app; [done|].
  by apply (proj1 (Forall_forall _ _) Hall) in Hin.
Qed.

Lemma addBuffered_open l s : keeps_open s (addBufferedIceCandidates l s).
Proof.
  unfold addBufferedIceCandidates. destruct (heap s !! l) as [p|];
    [|apply keeps_open_refl].
  destruct (_ && _); [|apply keeps_open_refl]. unfold on_peer.
  eapply keeps_open_trans; [|by apply keeps_open_conns].
  apply on_conn_open; intros c; [apply owner_flush | apply open_flush].
Qed.

Lemma answerOffer_open b offer from l s :
  keeps_open s (answerOffer b offer from l s).1.
Proof.
  unfold answerOffer. destruct (heap s !! l) as [p|]; [|apply keeps_open_refl].
  assert (keeps_open s (pc_setRemoteDescription (connection p) offer (setRemoteOk b) s))
    as H1 by (apply on_conn_open; intros c; [apply owner_kept | apply open_setRemote]).
  destruct (setRemoteOk b); [|done].
  assert (keeps_open s
    (on_conn (connection p) (log CreateAnswer)
       (addBufferedIceCandidates l
          (on_peer l mark_remote_set
             (pc_setRemoteDescription (connection p) offer true s))))) as H2.
  { eapply keeps_open_trans; [|by apply on_conn_open; [|apply open_log]].
    eapply keeps_open_trans; [|apply addBuffered_open].
    eapply keeps_open_trans; [exact H1 | by apply keeps_open_conns]. }
  destruct (created b) as [answer|]; [destruct (setLocalOk b)|]; cbn [fst];
    try done;
    (eapply keeps_open_trans; [exact H2|]; apply on_conn_open; intros c;
     [apply owner_kept | apply open_setLocal]).
Qed.

Lemma handleAnswer_open b answer from s :
  keeps_open s (handleAnswer b answer from s).1.
Proof.
  unfold handleAnswer. destruct (jmap_get from (peersRef s)) as [l|];
    [|apply keeps_open_refl].
  destruct (heap s !! l) as [p|]; [|apply keeps_open_refl].
  assert (keeps_open s (pc_setRemoteDescription (connection p) answer (setRemoteOk b) s))
    as H1 by (apply on_conn_open; intros c; [apply owner_kept | apply open_setRemote]).
  destruct (setRemoteOk b); [|done]. cbn [fst].
  eapply keeps_open_trans; [|apply addBuffered_open].
  eapply keeps_open_trans; [exact H1 | by apply keeps_open_conns].
Qed.

Lemma offerTo_open b u pc s : keeps_open s (offerTo b u pc s).1.
Proof.
  unfold offerTo.
  assert (keeps_open s (on_conn pc (log CreateOffer) s)) as H1
    by by apply on_conn_open; [|apply open_log].
  destruct (created b) as [offer|]; [|done].
  assert (keeps_open s
            (pc_setLocalDescription pc offer (setLocalOk b)
               (on_conn pc (log CreateOffer) s))) as H2.
  { eapply keeps_open_trans; [exact H1|].
    apply on_conn_open; intros c; [apply owner_kept | apply open_setLocal]. }
  by destruct (setLocalOk b).
Qed.

Lemma fresh_open u s :
  jmap_get u (peersRef s) = None → keeps_open s (createPeerConnection u s).2.
Proof.
  intros Hnone. destruct (createPeerConnection_fresh u s Hnone) as (c0 & _ & _ & ->).
  by eapply keeps_open_app.
Qed.

Lemma handleRoomUsers_open browser users s :
  keeps_open s (handleRoomUsers browser users s).1.
Proof.
  revert s. induction users as [|v users IH]; intros s; cbn [handleRoomUsers];
    [apply keeps_open_refl|].
  assert (jmap_has v (peersRef s)
          = match jmap_get v (peersRef s) with Some _ => true | None => false end)
    as -> by done.
  destruct (jmap_get v (peersRef s)) as [lv|] eqn:Hv; [apply IH|].
  pose proof (fresh_open v s Hv) as H1.
  destruct (createPeerConnection v s) as [pc s1]. cbn [snd] in H1.
  pose proof (offerTo_open (browser v) v pc s1) as H2.
  destruct (offerTo (browser v) v pc s1) as [s2 out]. cbn [fst] in H2.
  specialize (IH s2). destruct (handleRoomUsers browser users s2) as [s3 out'].
  cbn [fst] in *. eauto using keeps_open_trans.
Qed.

Lemma replace_fold_open k t (entries : list (string * nat)) s :
  keeps_open s (foldl (λ acc e, replaceIn k t e.2 acc) s entries).
Proof.
  revert s. induction entries as [|e entries IH]; intros s; cbn [foldl];
    [apply keeps_open_refl|].
  eapply keeps_open_trans; [|apply IH].
  unfold replaceIn. destruct (heap s !! e.2); [|apply keeps_open_refl].
  apply on_conn_open; intros c; [apply owner_kept | apply open_substitute].
Qed.

Lemma quiet_open s :
  (∀ k from, keeps_open s (handleIceCandidate k from s).1)
  ∧ (∀ pc state, keeps_open s (onconnectionstatechange pc state s).1)
  ∧ (∀ pc state, keeps_open s (oniceconnectionstatechange pc state s).1)
  ∧ (∀ pc rs, keeps_open s (ontrack pc rs s).1)
  ∧ (∀ joined r, keeps_open s (handleConnect joined r s).1)
  ∧ (∀ r, keeps_open s (joinEffect r s).1).
Proof.
  split_and!; intros;
    unfold handleIceCandidate, onconnectionstatechange, oniceconnectionstatechange,
      ontrack, handleConnect, joinEffect;
    repeat case_match; cbn [fst];
    first [ apply keeps_open_refl
          | by apply keeps_open_conns
          | by apply on_conn_open; [|apply open_log]
          | apply on_conn_open; intros ?;
            [apply owner_kept | apply open_addIceCandidate] ].
Qed.

Lemma session_kept_open s i :
  ¬ closes_sessions i → keeps_open s (input_step s i).1.
Proof.
  intros Hi. destruct i as [ev|ev]; cbn [input_step];
    [|apply keeps_open_conns, lifecycle_frame].
  destruct (quiet_open s) as (Q1 & Q2 & Q3 & Q4 & Q5 & Q6).
  destruct ev as [browser users|v|b offer from|b answer from|k from|v
                 |pc state|pc state|pc remoteStream| | |joined roomId|roomId|];
    cbn [step]; try done.
  - apply handleRoomUsers_open.
  - unfold handleUserJoined, jmap_has.
    destruct (jmap_get v (peersRef s)) as [lv|] eqn:Hv;
      [apply keeps_open_refl | by apply fresh_open].
  - unfold handleOffer. destruct (jmap_get from (peersRef s)) as [lf|] eqn:Hf;
      [apply answerOffer_open|].
    pose proof (fresh_open from s Hf) as H1.
    destruct (createPeerConnection from s) as [pc s1]. cbn [snd] in H1.
    eapply keeps_open_trans; [|apply answerOffer_open].
    eapply keeps_open_trans; [exact H1 | by apply keeps_open_conns].
  - apply handleAnswer_open.
  - unfold toggleAudio. destruct (localStream s) as [tracks|]; [|apply keeps_open_refl].
    destruct (list_find _ tracks) as [[i t]|]; [|apply keeps_open_refl]. cbn [fst].
    eapply keeps_open_trans; [|apply replace_fold_open]. by apply keeps_open_conns.
  - unfold toggleVideo. destruct (localStream s) as [tracks|]; [|apply keeps_open_refl].
    destruct (list_find _ tracks) as [[i t]|]; [|apply keeps_open_refl]. cbn [fst].
    eapply keeps_open_trans; [|apply replace_fold_open]. by apply keeps_open_conns.
Qed.

(** X19.  The component closes sessions on a user-left notice and in
    [cleanup] only: through every other event each session stays at its
    place and is not closed, whatever the browser answers; a new PeerLink
    for another user, a rejected description or a failed connection close
    nothing. *)
Theorem session_closed_only_on_leave_or_cleanup (s : State) (i : Input)
    (pc : nat) (c : RTCPeerConnection) :
  ¬ closes_sessions i →
  conns s !! pc = Some c →
  ∃ c', conns (input_step s i).1 !! pc = Some c'
        ∧ owner c' = owner c
        ∧ (Close ∈ calls c' → Close ∈ calls c).
Proof.
  intros Hi Hc. by apply session_kept_open.
Qed.

(** [session_closed_only_on_leave_or_cleanup] for a session that reports a
    failure. *)
Lemma session_closed_only_on_leave_or_cleanup_witness :
  let s := (input_run (init (Some camera)) [Core (OnUserJoined "u")]).1 in
  ∃ c', conns (input_step s (Core (OnConnectionState 0 Failed))).1 !! 0 = Some c'
        ∧ owner c' = "u"
        ∧ (Close ∈ calls c' → Close ∈ [AddTrack 0; AddTrack 1]).
Proof.
  intros s.
  apply (session_closed_only_on_leave_or_cleanup s
           (Core (OnConnectionState 0 Failed)) 0
           (foldl (λ c track, if enabled track then rtc_addTrack track c else c)
              (new_conn "u") camera));
    [cbn; tauto | reflexivity].
Defined.

(** *** Records and sessions over time *)

Lemma records_kept_refl s : records_kept s s.
Proof. split; intros i x Hx; exists x; by split_and!. Qed.

Lemma records_kept_trans s1 s2 s3 :
  records_kept s1 s2 → records_kept s2 s3 → records_kept s1 s3.
Proof.
  intros [A1 A2] [B1 B2]. split.
  - intros l p Hp. destruct (A1 l p Hp) as (p2 & Hp2 & U2 & C2 & S2 & F2).
    destruct (B1 l p2 Hp2) as (p3 & Hp3 & U3 & C3 & S3 & F3).
    exists p3. split_and!; [done | congruence | congruence | auto | auto].
  - intros pc c Hc. destruct (A2 pc c Hc) as (c2 & Hc2 & O2).
    destruct (B2 pc c2 Hc2) as (c3 & Hc3 & O3). exists c3. split; [done | congruence].
Qed.

Lemma records_kept_lengths s s' :
  records_kept s s' →
  (length (heap s) ≤ length (heap s'))%nat
  ∧ (length (conns s) ≤ length (conns s'))%nat.
Proof.
  intros [A1 A2]. split.
  - destruct (heap s) as [|p hp] eqn:E using rev_ind; [cbn; lia|].
    destruct (A1 (length hp) p) as (p' & Hp' & _); [by apply list_lookup_middle|].
    apply lookup_lt_Some in Hp'. rewrite length_app. cbn. lia.
  - destruct (conns s) as [|c cs] eqn:E using rev_ind; [cbn; lia|].
    destruct (A2 (length cs) c) as (c' & Hc' & _); [by apply list_lookup_middle|].
    apply lookup_lt_Some in Hc'. rewrite length_app. cbn. lia.
Qed.

Lemma records_kept_app s s' H C :
  heap s' = heap s ++ H → conns s' = conns s ++ C → records_kept s s'.
Proof.
  intros Hh Hc. unfold records_kept. rewrite Hh, Hc.
  split; intros i x Hx; exists x;
    (split_and!; [by apply lookup_app_l_Some | done..]).
Qed.

Lemma records_kept_eq s s' :
  heap s' = heap s → conns s' = conns s → records_kept s s'.
Proof.
  intros Hh Hc. apply (records_kept_app s s' [] []); by rewrite app_nil_r.
Qed.

Lemma on_conn_kept pc f s :
  (∀ c, owner (f c) = owner c) → records_kept s (on_conn pc f s).
Proof.
  intros Ho. split; orch_cbn.
  - intros l p Hp. exists p. by split_and!.
  - intros i c Hc. destruct (decide (i = pc)) as [->|Hne].
    + exists (f c). by rewrite list_lookup_alter_eq, Hc.
    + exists c. by rewrite list_lookup_alter_ne.
Qed.

Lemma on_peer_kept l f s :
  (∀ p, userId (f p) = userId p ∧ connection (f p) = connection p
        ∧ (is_Some (stream p) → is_Some (stream (f p)))
        ∧ (remoteDescriptionSet p = true → remoteDescriptionSet (f p) = true)) →
  records_kept s (on_peer l f s).
Proof.
  intros Hf. split; orch_cbn.
  - intros i p Hp. destruct (decide (i = l)) as [->|Hne].
    + exists (f p). rewrite list_lookup_alter_eq, Hp. split; [done | apply Hf].
    + exists p. rewrite list_lookup_alter_ne by done. by split_and!.
  - intros i c Hc. by exists c.
Qed.

(** What the handlers do to a record. *)
Lemma record_updates :
  (∀ l s, records_kept s (on_peer l mark_remote_set s))
  ∧ (∀ l k s, records_kept s (on_peer l (push_candidate k) s))
  ∧ (∀ l rs s, records_kept s (on_peer l (with_stream rs) s))
  ∧ (∀ l s, records_kept s
       (on_peer l (λ p,
          {| userId := userId p; connection := connection p; stream := stream p;
             iceCandidates := []; remoteDescriptionSet := remoteDescriptionSet p |}) s)).
Proof.
  split_and!; intros; apply on_peer_kept; intros p; split_and!; try done;
    intros _; by eexists.
Qed.

Lemma owner_close c : owner (rtc_close c) = owner c.
Proof. done. Qed.

Lemma setter_kept s :
  (∀ v, records_kept s (set_peers v s))
  ∧ (∀ v, records_kept s (set_peersRef v s))
  ∧ (∀ v, records_kept s (set_localStream v s))
  ∧ (∀ v, records_kept s (set_isConnected v s))
  ∧ (∀ v, records_kept s (set_isAudioEnabled v s))
  ∧ (∀ v, records_kept s (set_isVideoEnabled v s))
  ∧ (∀ v, records_kept s (set_hasJoinedRoom v s))
  ∧ (∀ v, records_kept s (set_connectionError v s)).
Proof. split_and!; intros v; by apply records_kept_eq. Qed.

(** Peel the outermost operation of the state in a [records_kept] goal. *)
Ltac kept :=
  repeat first
    [ apply records_kept_refl
    | eapply records_kept_trans;
      [|apply on_conn_kept; intros ?;
        first [apply owner_flush | apply owner_kept | apply owner_close]]
    | eapply records_kept_trans; [|apply record_updates]
    | eapply records_kept_trans; [|apply setter_kept] ].

Lemma addBuffered_kept l s : records_kept s (addBufferedIceCandidates l s).
Proof.
  unfold addBufferedIceCandidates. destruct (heap s !! l) as [p|]; [|kept].
  destruct (_ && _); kept.
Qed.

Lemma answerOffer_kept b offer from l s :
  records_kept s (answerOffer b offer from l s).1.
Proof.
  unfold answerOffer. destruct (heap s !! l) as [p|]; [|kept].
  destruct (setRemoteOk b);
    [|unfold pc_setRemoteDescription; cbn [fst]; kept].
  assert (records_kept s
    (on_conn (connection p) (log CreateAnswer)
       (addBufferedIceCandidates l
          (on_peer l mark_remote_set
             (pc_setRemoteDescription (connection p) offer true s))))) as H.
  { eapply records_kept_trans; [|by apply on_conn_kept].
    eapply records_kept_trans; [|apply addBuffered_kept].
    unfold pc_setRemoteDescription. kept. }
  destruct (created b) as [answer|]; [destruct (setLocalOk b)|]; cbn [fst];
    unfold pc_setLocalDescription;
    try (eapply records_kept_trans;
         [exact H | apply on_conn_kept; intros ?; apply owner_kept]);
    exact H.
Qed.

Lemma handleAnswer_kept b answer from s :
  records_kept s (handleAnswer b answer from s).1.
Proof.
  unfold handleAnswer. destruct (jmap_get from (peersRef s)) as [l|]; [|kept].
  destruct (heap s !! l) as [p|]; [|kept].
  destruct (setRemoteOk b); cbn [fst]; unfold pc_setRemoteDescription; [|kept].
  eapply records_kept_trans; [|apply addBuffered_kept]. kept.
Qed.

Lemma offerTo_kept b u pc s : records_kept s (offerTo b u pc s).1.
Proof.
  unfold offerTo.
  destruct (created b) as [offer|]; [destruct (setLocalOk b)|]; cbn [fst];
    unfold pc_setLocalDescription; kept.
Qed.

Lemma replace_fold_kept k t (entries : list (string * nat)) s :
  records_kept s (foldl (λ acc e, replaceIn k t e.2 acc) s entries).
Proof.
  revert s. induction entries as [|e entries IH]; intros s; cbn [foldl]; [kept|].
  eapply records_kept_trans; [|apply IH].
  unfold replaceIn. destruct (heap s !! e.2); kept.
Qed.

Lemma close_fold_kept (entries : list (string * nat)) s :
  records_kept s
    (foldl (λ acc e,
       match heap acc !! e.2 with
       | Some peer => pc_close (connection peer) acc
       | None => acc
       end) s entries).
Proof.
  revert s. induction entries as [|e entries IH]; intros s; cbn [foldl]; [kept|].
  eapply records_kept_trans; [|apply IH].
  destruct (heap s !! e.2); unfold pc_close; kept.
Qed.

Lemma extends_refl s : extends s s.
Proof.
  split; [apply records_kept_refl|]. intros l p Hp%lookup_lt_Some Hl. lia.
Qed.

Lemma extends_trans s1 s2 s3 : extends s1 s2 → extends s2 s3 → extends s1 s3.
Proof.
  intros [A N1] [B N2]. split; [by eapply records_kept_trans|].
  intros l p3 Hp3 Hl.
  destruct (records_kept_lengths s1 s2 A) as [L1 L2].
  destruct (decide (l < length (heap s2))) as [Hlt|Hge].
  - destruct (lookup_lt_is_Some_2 (heap s2) l Hlt) as [p2 Hp2].
    destruct (proj1 B l p2 Hp2) as (p3' & Hp3' & U & C & _).
    assert (p3' = p3) as -> by congruence.
    destruct (N1 l p2 Hp2 Hl) as (c2 & Hc2 & O2 & G2).
    destruct (proj2 B _ c2 Hc2) as (c3 & Hc3 & O3).
    exists c3. rewrite C, U. split_and!; [done | congruence | done].
  - destruct (N2 l p3 Hp3) as (c3 & Hc3 & O3 & G3); [lia|].
    exists c3. split_and!; [done | done | lia].
Qed.

(** A step that adds no record. *)
Lemma extends_same s s' :
  records_kept s s' → length (heap s') = length (heap s) → extends s s'.
Proof.
  intros Hk Hlen. split; [done|]. intros l p Hp%lookup_lt_Some Hl. lia.
Qed.

Lemma same_links_length s s' :
  same_links s s' → (length (heap s) ≤ length (heap s'))%nat.
Proof. by intros (_ & ? & _). Qed.

(** The two ways a handler adds records: [createPeerConnection], and the
    object literal of [handleOffer] besides. *)
Lemma extends_new s s' H c0 :
  heap s' = heap s ++ H → conns s' = conns s ++ [c0] →
  Forall (λ p, connection p = length (conns s) ∧ userId p = owner c0) H →
  extends s s'.
Proof.
  intros Hh Hc Hall. split; [by eapply records_kept_app|].
  intros l p Hp Hl. rewrite Hh in Hp.
  rewrite lookup_app_r in Hp by done.
  apply list_elem_of_lookup_2 in Hp.
  apply (proj1 (Forall_forall _ _) Hall) in Hp as [-> ->].
  exists c0. rewrite Hc. split_and!; [by apply list_lookup_middle | done | lia].
Qed.

Lemma createPeerConnection_shape u s :
  ∃ s1 c0, records_kept s s1
    ∧ length (heap s1) = length (heap s) ∧ length (conns s1) = length (conns s)
    ∧ owner c0 = u
    ∧ createPeerConnection u s
      = (length (conns s1),
         set_peers (jmap_set u (length (heap s1)) (peersRef s))
           (set_peersRef (jmap_set u (length (heap s1)) (peersRef s))
              (set_heap (heap s1 ++ [new_peer u (length (conns s1))])
                 (set_conns (conns s1 ++ [c0]) s1)))).
Proof.
  unfold createPeerConnection.
  set (s1 := match jmap_get u (peersRef s) with
             | Some l =>
                 match heap s !! l with
                 | Some existingPeer => pc_close (connection existingPeer) s
                 | None => s
                 end
             | None => s
             end).
  assert (records_kept s s1 ∧ length (heap s1) = length (heap s)
          ∧ length (conns s1) = length (conns s) ∧ peersRef s1 = peersRef s)
    as (K & L1 & L2 & E).
  { unfold s1. destruct (jmap_get u (peersRef s)) as [l|];
      [destruct (heap s !! l) as [p|]|]; unfold pc_close; orch_cbn;
      rewrite ?length_alter; split_and!; try done; kept. }
  exists s1. eexists. split_and!; try done; [|orch_cbn; by rewrite E].
  destruct (localStream s1) as [tracks|]; [|done]. by rewrite owner_addTracks.
Qed.

Lemma createPeerConnection_extends u s : extends s (createPeerConnection u s).2.
Proof.
  destruct (createPeerConnection_shape u s) as (s1 & c0 & K & L1 & L2 & O & ->).
  cbn [snd]. eapply extends_trans; [by apply extends_same|].
  eapply (extends_new s1 _ [new_peer u (length (conns s1))] c0); [done | done|].
  by repeat constructor.
Qed.

Lemma handleRoomUsers_extends browser users s :
  extends s (handleRoomUsers browser users s).1.
Proof.
  revert s. induction users as [|v users IH]; intros s; cbn [handleRoomUsers];
    [apply extends_refl|].
  destruct (jmap_has v (peersRef s)); [apply IH|].
  pose proof (createPeerConnection_extends v s) as H1.
  destruct (createPeerConnection v s) as [pc s1]. cbn [snd] in H1.
  assert (extends s1 (offerTo (browser v) v pc s1).1) as H2.
  { apply extends_same; [apply offerTo_kept|]. by rewrite (proj1 (proj2 (offerTo_frame _ _ _ _))). }
  destruct (offerTo (browser v) v pc s1) as [s2 out]. cbn [fst] in H2.
  specialize (IH s2). destruct (handleRoomUsers browser users s2) as [s3 out'].
  cbn [fst] in *. eauto using extends_trans.
Qed.

Lemma answerOffer_heap b offer from l s :
  length (heap (answerOffer b offer from l s).1) = length (heap s).
Proof.
  unfold answerOffer, addBufferedIceCandidates.
  repeat case_match; orch_cbn; by rewrite ?length_alter.
Qed.

Lemma handleOffer_extends b offer from s :
  extends s (handleOffer b offer from s).1.
Proof.
  unfold handleOffer. destruct (jmap_get from (peersRef s)) as [l|].
  - apply extends_same; [apply answerOffer_kept | apply answerOffer_heap].
  - destruct (createPeerConnection_shape from s) as (s1 & c0 & K & L1 & L2 & O & ->).
    eapply extends_trans; [by apply extends_same|].
    eapply extends_trans;
      [|apply extends_same; [apply answerOffer_kept | apply answerOffer_heap]].
    eapply (extends_new s1 _ [new_peer from (length (conns s1));
                              new_peer from (length (conns s1))] c0).
    + orch_cbn. by rewrite <- app_assoc.
    + done.
    + by repeat constructor.
Qed.

Lemma quiet_extends s :
  (∀ b d u, extends s (handleAnswer b d u s).1)
  ∧ (∀ k u, extends s (handleIceCandidate k u s).1)
  ∧ (∀ u, extends s (handleUserLeft u s).1)
  ∧ (∀ pc state, extends s (onconnectionstatechange pc state s).1)
  ∧ (∀ pc state, extends s (oniceconnectionstatechange pc state s).1)
  ∧ (∀ pc rs, extends s (ontrack pc rs s).1)
  ∧ (∀ joined r, extends s (handleConnect joined r s).1)
  ∧ (∀ r, extends s (joinEffect r s).1)
  ∧ extends s (toggleAudio s).1
  ∧ extends s (toggleVideo s).1
  ∧ extends s (cleanup s).
Proof.
  split_and!; intros.
  - apply extends_same; [apply handleAnswer_kept|].
    apply Nat.le_antisymm; [|apply same_links_length, handleAnswer_links].
    unfold handleAnswer, addBufferedIceCandidates.
    repeat case_match; orch_cbn; by rewrite ?length_alter.
  - unfold handleIceCandidate. repeat case_match; cbn [fst];
      unfold pc_addIceCandidate;
      (apply extends_same; [kept | orch_cbn; by rewrite ?length_alter]).
  - unfold handleUserLeft. repeat case_match; cbn [fst]; unfold pc_close;
      (apply extends_same; [kept | orch_cbn; by rewrite ?length_alter]).
  - unfold onconnectionstatechange. repeat case_match; cbn [fst];
      unfold pc_restartIce;
      (apply extends_same; [kept | orch_cbn; by rewrite ?length_alter]).
  - unfold oniceconnectionstatechange. repeat case_match; cbn [fst];
      unfold pc_restartIce;
      (apply extends_same; [kept | orch_cbn; by rewrite ?length_alter]).
  - unfold ontrack. repeat case_match; cbn [fst];
      (apply extends_same; [kept | orch_cbn; by rewrite ?length_alter]).
  - unfold handleConnect. repeat case_match; cbn [fst];
      (apply extends_same; [kept | done]).
  - unfold joinEffect. repeat case_match; cbn [fst];
      (apply extends_same; [kept | done]).
  - unfold toggleAudio. destruct (localStream s) as [tracks|]; [|apply extends_refl].
    destruct (list_find _ tracks) as [[i t]|]; [|apply extends_refl]. cbn [fst].
    set (s2 := set_isAudioEnabled _ _).
    destruct (replace_fold_frame Audio (flip t) (peersRef s2) s2) as (F & _).
    cbv zeta in F. unfold same_but_conns in F. destruct F as (_ & _ & F3 & _).
    apply extends_same; [|by rewrite F3].
    eapply records_kept_trans; [|apply replace_fold_kept]. by apply records_kept_eq.
  - unfold toggleVideo. destruct (localStream s) as [tracks|]; [|apply extends_refl].
    destruct (list_find _ tracks) as [[i t]|]; [|apply extends_refl]. cbn [fst].
    set (s2 := set_isVideoEnabled _ _).
    destruct (replace_fold_frame Video (flip t) (peersRef s2) s2) as (F & _).
    cbv zeta in F. unfold same_but_conns in F. destruct F as (_ & _ & F3 & _).
    apply extends_same; [|by rewrite F3].
    eapply records_kept_trans; [|apply replace_fold_kept]. by apply records_kept_eq.
  - destruct (close_fold_frame (peersRef s) s) as (F & _).
    cbv zeta in F. unfold same_but_conns in F. destruct F as (_ & _ & F3 & _).
    unfold cleanup. apply extends_same; [|orch_cbn; by rewrite F3].
    eapply records_kept_trans; [apply (close_fold_kept (peersRef s))|].
    by apply records_kept_eq.
Qed.

Lemma input_step_extends s i : extends s (input_step s i).1.
Proof.
  destruct i as [ev|ev]; cbn [input_step].
  - destruct (quiet_extends s)
      as (Q1 & Q2 & Q3 & Q4 & Q5 & Q6 & Q7 & Q8 & Q9 & Q10 & Q11).
    destruct ev; cbn [step]; try done.
    + apply handleRoomUsers_extends.
    + unfold handleUserJoined. destruct (jmap_has _ _);
        [apply extends_refl | apply createPeerConnection_extends].
    + apply handleOffer_extends.
  - destruct (lifecycle_frame s ev) as (_ & _ & Hh & Hc).
    apply extends_same; [by apply records_kept_eq | by rewrite Hh].
Qed.

Lemma input_run_extends s inputs : extends s (input_run s inputs).1.
Proof.
  revert s. induction inputs as [|i inputs IH]; intros s; [apply extends_refl|].
  rewrite input_run_cons. cbn [fst].
  eapply extends_trans; [apply input_step_extends | apply IH].
Qed.

(** X21.  Through whatever happens, a [PeerConnection] record stays at
    its place with its user and its session, keeps a remote stream once
    it has one, and keeps its flag once it is set (no handler resets
    [remoteDescriptionSet]); and its session stays at its place, for the
    user it was created for. *)
Theorem records_never_regress (s : State) (inputs : list Input) (l : nat)
    (p : PeerConnection) :
  heap s !! l = Some p →
  ∃ p', heap (input_run s inputs).1 !! l = Some p'
        ∧ userId p' = userId p ∧ connection p' = connection p
        ∧ (is_Some (stream p) → is_Some (stream p'))
        ∧ (remoteDescriptionSet p = true → remoteDescriptionSet p' = true)
        ∧ ∀ c, conns s !! connection p = Some c →
            ∃ c', conns (input_run s inputs).1 !! connection p' = Some c'
                  ∧ owner c' = owner c.
Proof.
  intros Hp. destruct (input_run_extends s inputs) as [[K1 K2] _].
  destruct (K1 l p Hp) as (p' & Hp' & U & C & S & F).
  exists p'. split_and!; try done. intros c Hc. rewrite C. by apply K2.
Qed.

(** [records_never_regress] for the flag of a PeerLink whose answer was
    accepted, through a rejected second answer, a failure and a toggle. *)
Lemma records_never_regress_witness :
  let ok := {| setRemoteOk := true; created := None; setLocalOk := false |} in
  let no := {| setRemoteOk := false; created := None; setLocalOk := false |} in
  let d := {| sdp_type := SdpAnswer; sdp := "v=0" |} in
  let s := (input_run (init (Some camera))
              [Core (OnUserJoined "u"); Core (OnAnswer ok d "u")]).1 in
  let later := [Core (OnAnswer no d "u"); Core (OnConnectionState 0 Failed);
                Core OnToggleAudio] in
  ∃ p', heap (input_run s later).1 !! 0 = Some p'
        ∧ userId p' = "u" ∧ connection p' = 0
        ∧ (is_Some (None : option nat) → is_Some (stream p'))
        ∧ (true = true → remoteDescriptionSet p' = true)
        ∧ ∀ c, conns s !! 0 = Some c →
            ∃ c', conns (input_run s later).1 !! connection p' = Some c'
                  ∧ owner c' = owner c.
Proof.
  intros ok no d s later.
  apply (records_never_regress s later 0 (flushed (new_peer "u" 0)) eq_refl).
Defined.

Lemma named_records s s' :
  extends s s' →
  (∀ l p, heap s !! l = Some p →
     ∃ c, conns s !! connection p = Some c ∧ owner c = userId p) →
  ∀ l p, heap s' !! l = Some p →
    ∃ c, conns s' !! connection p = Some c ∧ owner c = userId p.
Proof.
  intros [[K1 K2] New] Hs l p' Hp'.
  destruct (decide (l < length (heap s))) as [Hlt|Hge].
  - destruct (lookup_lt_is_Some_2 (heap s) l Hlt) as [p Hp].
    destruct (K1 l p Hp) as (p'' & Hp'' & U & C & _).
    assert (p'' = p') as -> by congruence.
    destruct (Hs l p Hp) as (c & Hc & O).
    destruct (K2 _ c Hc) as (c' & Hc' & O').
    exists c'. rewrite C, U. split; [done | congruence].
  - destruct (New l p' Hp') as (c & Hc & O & _); [lia|]. by exists c.
Qed.

Lemma filed_step s s' :
  Forall (λ e : string * nat, e.2 < length (heap s)) (peersRef s) →
  records_kept s s' →
  Forall (λ e, ∀ p, heap s !! e.2 = Some p → userId p = e.1) (peersRef s) →
  (∀ e, e ∈ peersRef s' →
     e ∈ peersRef s ∨ ∃ p, heap s' !! e.2 = Some p ∧ userId p = e.1) →
  Forall (λ e, ∀ p, heap s' !! e.2 = Some p → userId p = e.1) (peersRef s').
Proof.
  intros W1 [K1 _] Hs Horigin. apply Forall_forall. intros e He p' Hp'.
  destruct (Horigin e He) as [Hold|(p & Hp & U)]; [|congruence].
  pose proof (proj1 (Forall_forall _ _) W1 e Hold) as Hlt. cbn beta in Hlt.
  destruct (lookup_lt_is_Some_2 (heap s) _ Hlt) as [p Hp].
  destruct (K1 _ p Hp) as (p'' & Hp'' & U & _).
  assert (p'' = p') as -> by congruence.
  rewrite U. by apply (proj1 (Forall_forall _ _) Hs e Hold).
Qed.

Lemma named_sub s s' :
  consistent s → named s → extends s s' → peersRef s' ⊆ peersRef s → named s'.
Proof.
  intros ((W1 & _) & _) [N1 N2] Hext Hsub. split.
  - by apply (named_records s s').
  - apply (filed_step s s'); [done | apply Hext | done|].
    intros e He. left. by apply Hsub.
Qed.

Lemma jmap_delete_sub {V} u (m : list (string * V)) : jmap_delete u m ⊆ m.
Proof.
  induction m as [|[k v] m IH]; cbn [jmap_delete]; [done|].
  destruct (decide (u = k)) as [->|Hne]; intros x Hx.
  - by apply list_elem_of_further.
  - apply elem_of_cons in Hx as [->|Hx]; [apply list_elem_of_here|].
    apply list_elem_of_further. by apply IH.
Qed.

Lemma createPeerConnection_named u s :
  consistent s → named s → named (createPeerConnection u s).2.
Proof.
  intros ((W1 & _) & _) [N1 N2].
  pose proof (createPeerConnection_extends u s) as Hext. split.
  - by apply (named_records s _ Hext).
  - apply (filed_step s _ W1 (proj1 Hext) N2).
    destruct (createPeerConnection_shape u s) as (s1 & c0 & K & L1 & L2 & O & ->).
    orch_cbn. intros e [->|He]%jmap_set_elem; [right | by left].
    exists (new_peer u (length (conns s1))). cbn [snd fst].
    split; [by apply list_lookup_middle | done].
Qed.

Lemma offerTo_consistent b u pc s :
  consistent s → consistent (offerTo b u pc s).1.
Proof.
  intros Hs. apply (same_links_consistent s); [| apply offerTo_ui | done].
  unfold offerTo.
  destruct (created b) as [offer|]; [destruct (setLocalOk b)|]; cbn [fst];
    unfold pc_setLocalDescription; links.
Qed.

Lemma handleRoomUsers_named browser users s :
  consistent s → named s → named (handleRoomUsers browser users s).1.
Proof.
  revert s. induction users as [|v users IH]; intros s Hs Hn; cbn [handleRoomUsers];
    [done|].
  destruct (jmap_has v (peersRef s)); [by apply IH|].
  pose proof (createPeerConnection_consistent v s Hs) as C1.
  pose proof (createPeerConnection_named v s Hs Hn) as N1.
  destruct (createPeerConnection v s) as [pc s1]. cbn [snd] in C1, N1.
  pose proof (offerTo_consistent (browser v) v pc s1 C1) as C2.
  assert (named (offerTo (browser v) v pc s1).1) as N2.
  { apply (named_sub s1); try done.
    - apply extends_same; [apply offerTo_kept|].
      by rewrite (proj1 (proj2 (offerTo_frame _ _ _ _))).
    - by rewrite (proj1 (offerTo_frame _ _ _ _)). }
  destruct (offerTo (browser v) v pc s1) as [s2 out]. cbn [fst] in C2, N2.
  specialize (IH s2 C2 N2).
  by destruct (handleRoomUsers browser users s2) as [s3 out'].
Qed.

Lemma handleOffer_named b offer from s :
  consistent s → named s → named (handleOffer b offer from s).1.
Proof.
  intros Hs Hn. pose proof (handleOffer_extends b offer from s) as Hext.
  pose proof Hs as ((W1 & _) & _). destruct Hn as [N1 N2]. split.
  - by apply (named_records s _ Hext).
  - apply (filed_step s _ W1 (proj1 Hext) N2).
    unfold handleOffer. destruct (jmap_get from (peersRef s)) as [l|] eqn:Hfrom.
    + rewrite (proj1 (answerOffer_links b offer from l s)). by left.
    + destruct (createPeerConnection_fresh from s Hfrom) as (c0 & _ & _ & ->).
      set (s1 := set_peers _ _). set (s2 := set_heap (heap s1 ++ _) s1).
      rewrite (proj1 (answerOffer_links b offer from (length (heap s1)) s2)).
      destruct (answerOffer_kept b offer from (length (heap s1)) s2) as [K1 _].
      unfold s2 at 1, s1 at 1. orch_cbn.
      intros e [->|He]%jmap_set_elem; [right | by left]. cbn [fst snd].
      destruct (K1 (length (heap s)) (new_peer from (length (conns s))))
        as (p' & Hp' & U & _).
      { unfold s2, s1. orch_cbn. rewrite <- app_assoc. by apply list_lookup_middle. }
      by exists p'.
Qed.

Lemma step_named s i : consistent s → named s → named (input_step s i).1.
Proof.
  intros Hs Hn. pose proof (input_step_extends s i) as Hext.
  destruct i as [ev|ev]; cbn [input_step] in *.
  - destruct (quiet_peersRef s) as (Q1 & Q2 & Q3 & Q4 & Q5).
    destruct (toggle_peersRef s) as (Ta & Tv).
    destruct ev as [browser users|v|b offer from|b answer from|k from|v
                   |pc state|pc state|pc remoteStream| | |joined roomId|roomId|];
      cbn [step] in *.
    + by apply handleRoomUsers_named.
    + unfold handleUserJoined. destruct (jmap_has v (peersRef s)); [done|].
      by apply createPeerConnection_named.
    + by apply handleOffer_named.
    + apply (named_sub s); try done.
      by rewrite (proj1 (handleAnswer_links b answer from s)).
    + apply (named_sub s); try done.
      by rewrite (proj1 (handleIceCandidate_links k from s)).
    + apply (named_sub s); try done. unfold handleUserLeft.
      destruct (jmap_get v (peersRef s)) as [l|]; [|done]. cbn [fst]. orch_cbn.
      assert (peersRef (match heap s !! l with
                        | Some peer => pc_close (connection peer) s
                        | None => s
                        end) = peersRef s) as -> by by destruct (heap s !! l).
      apply jmap_delete_sub.
    + apply (named_sub s); try done.
      destruct state; try by rewrite Q1.
      unfold onconnectionstatechange. destruct (conns s !! pc) as [this|]; [|done].
      cbn [fst]. orch_cbn. apply jmap_delete_sub.
    + apply (named_sub s); try done. by rewrite Q2.
    + apply (named_sub s); try done. by rewrite Q3.
    + apply (named_sub s); try done. by rewrite Ta.
    + apply (named_sub s); try done. by rewrite Tv.
    + apply (named_sub s); try done. by rewrite Q4.
    + apply (named_sub s); try done. by rewrite Q5.
    + apply (named_sub s); try done. unfold cleanup. orch_cbn.
      intros e He. by apply elem_of_nil in He.
  - apply (named_sub s); try done. by rewrite (proj1 (lifecycle_frame s ev)).
Qed.

Lemma reachable_named stream inputs :
  named (input_run (init stream) inputs).1.
Proof.
  induction inputs as [|i inputs IH] using rev_ind.
  - split; [by intros l p ?|constructor].
  - rewrite input_run_snoc_state.
    apply step_named; [apply reachable_consistent | done].
Qed.

(** X22.  In every state the component reaches, the PeerLink stored
    under a user id carries that id, and its session is one that was
    created for that user: what the handlers of that session do with the
    user id they closed over, they do to the entry of that PeerLink. *)
Theorem links_named (stream : option (list Track)) (inputs : list Input)
    (u : string) (p : PeerConnection) :
  let s := (input_run (init stream) inputs).1 in
  peerLink u s = Some p →
  userId p = u ∧ ∃ c, session u s = Some c ∧ owner c = u.
Proof.
  intros s Hp. destruct (reachable_named stream inputs) as [N1 N2].
  fold s in N1, N2. unfold session. rewrite Hp. cbn [mbind option_bind].
  unfold peerLink in Hp.
  destruct (jmap_get u (peersRef s)) as [l|] eqn:Hl; [|done].
  cbn [mbind option_bind] in Hp.
  apply jmap_get_Some_elem in Hl.
  pose proof (proj1 (Forall_forall _ _) N2 (u, l) Hl p Hp) as U. cbn [fst] in U.
  destruct (N1 l p Hp) as (c & Hc & O). split; [done|].
  exists c. split; [done | congruence].
Qed.

(** [links_named] for a user whose offer arrived before any notice. *)
Lemma links_named_witness :
  let b := {| setRemoteOk := true; created := None; setLocalOk := false |} in
  let offer := {| sdp_type := SdpOffer; sdp := "v=0" |} in
  let s := (input_run (init (Some camera)) [Core (OnOffer b offer "u")]).1 in
  userId (new_peer "u" 0) = "u" ∧ ∃ c, session "u" s = Some c ∧ owner c = "u".
Proof.
  intros b offer s.
  apply (links_named (Some camera) [Core (OnOffer b offer "u")] "u"
           (new_peer "u" 0) eq_refl).
Defined.

(** *** Remote streams *)

(** X23.  In every state the component reaches, when a session delivers
    a remote track with its stream, the stream is stored in the PeerLink
    of the user the session was created for, and nothing else changes:
    nothing is emitted, the maps, the queue, the flag and the sessions are
    as before, and the PeerLinks of the other users are untouched.  A
    track event without stream changes nothing. *)
Theorem track_attaches_stream (stream : option (list Track))
    (inputs : list Input) (pc : nat) (this : RTCPeerConnection)
    (p : PeerConnection) (rs : nat) :
  let s := (input_run (init stream) inputs).1 in
  conns s !! pc = Some this →
  peerLink (owner this) s = Some p →
  let res := ontrack pc (Some rs) s in
  res.2 = []
  ∧ peersRef res.1 = peersRef s ∧ peers res.1 = peers s ∧ conns res.1 = conns s
  ∧ peerLink (owner this) res.1 = Some (with_stream rs p)
  ∧ (∀ v, v ≠ owner this → peerLink v res.1 = peerLink v s)
  ∧ ontrack pc None s = (s, []).
Proof.
  intros s Hthis Hp res.
  destruct (reachable_consistent stream inputs) as ((_ & _ & W3) & Hnd & Heq).
  fold s in W3, Hnd, Heq. unfold peerLink in Hp.
  destruct (jmap_get (owner this) (peersRef s)) as [l|] eqn:Hl; [|done].
  cbn [mbind option_bind] in Hp.
  assert (res = (on_peer l (with_stream rs) s, [])) as ->.
  { unfold res, ontrack. by rewrite Hthis, Heq, Hl. }
  unfold peerLink. orch_cbn. rewrite Hl. cbn [mbind option_bind].
  rewrite list_lookup_alter_eq, Hp. split_and!; try done.
  - intros v Hv. destruct (jmap_get v (peersRef s)) as [l'|] eqn:Hl'; [|done].
    cbn [mbind option_bind]. destruct (decide (l' = l)) as [->|Hne];
      [|by rewrite list_lookup_alter_ne].
    exfalso.
    by apply (sessions_differ (heap s) (peersRef s) v (owner this) l l p p W3 Hv).
  - unfold ontrack. by rewrite Hthis.
Qed.

(** [track_attaches_stream] for the session of a user who joined. *)
Lemma track_attaches_stream_witness :
  let s := (input_run (init (Some camera)) [Core (OnUserJoined "u")]).1 in
  peerLink "u" (ontrack 0 (Some 7) s).1 = Some (with_stream 7 (new_peer "u" 0)).
Proof.
  intros s.
  apply (track_attaches_stream (Some camera) [Core (OnUserJoined "u")] 0
           (foldl (λ c track, if enabled track then rtc_addTrack track c else c)
              (new_conn "u") camera)
           (new_peer "u" 0) 7 eq_refl eq_refl).
Defined.

End OrchestratorFacts.

(** ** Gateway and clients together *)

Module HandshakeFacts.





End HandshakeFacts.
